(** * Example notebooks of the inference gateway: scoring, retries, fan-out, analytics

    A shallow embedding of the two example notebooks
    [examples/ner-fine-tuning-demonstrations/conll.ipynb] and
    [examples/haiku-hidden-preferences/haiku.ipynb].

    Conventions of the embedding.
    - A Python [str] is a [string]; [str.upper] is a library function and is
      kept abstract ([upper]), so every result holds for any case mapping.
    - A Python [Dict[str, List[str]]] is an association list in insertion
      order, the order in which [d.items()] iterates.
    - A Python [set] of strings is a [gset string], a [Counter] a
      [gmap string Z]; a Python [int] is a [Z].
    - True division [num / den] of two ints is the exact quotient in [Qc];
      the rounding to a double is not modelled. The int [1] and the int [0]
      returned by the scoring code are the rationals 1 and 0. *)

From stdpp Require Import gmap strings list fin_maps fin_sets numbers sorting.
From Stdlib Require Import QArith Qcanon.

Open Scope Z_scope.

(** ** Part I: definitions *)

Abbreviation dict := (list (string * list string)).

(** Identifiers issued by the gateway are opaque. *)
Definition UUID := N.


(** *** The Python runtime the notebooks run on

    Exceptions. An [exn] is an instance of Python's [Exception] class, the
    class both notebooks name in their [except] clauses and the class the
    retry library retries on: [PyError] carries the class name and the
    message, [RetryError] is the error of the retry library, wrapping the
    last failed attempt. Interrupts and cancellation ([KeyboardInterrupt],
    [asyncio.CancelledError]), which are not instances of [Exception], are
    not modelled. *)
Inductive exn :=
| PyError (cls msg : string)
| RetryError (last_attempt : exn).

Inductive outcome (A : Type) :=
| Return (a : A)
| Raise (e : exn).
Arguments Return {A} a.
Arguments Raise {A} e.

(** The gateway client: [client.inference(function_name=..., input=...,
    variant_name=..., dryrun=..., episode_id=...)] and
    [client.feedback(metric_name=..., value=..., inference_id=...)]. *)
Inductive input_content :=
| UserText (content : string)
| UserArguments (value : list (string * string)).

Inductive inference_request :=
| InferenceRequest (function_name : string) (input : input_content)
    (variant_name : option string) (dryrun : bool) (episode_id : option UUID).

(** Parsed JSON, for a payload whose shape the notebook does not fix. *)
#[local] Set Warnings "-register-all".
Inductive json :=
| JNull
| JBool (b : bool)
| JNumber (q : Qc)
| JString (s : string)
| JArray (items : list json)
| JObject (members : list (string * json)).

Inductive feedback_value :=
| BoolValue (b : bool)
| FloatValue (q : Qc)
| DictValue (d : dict)
| JsonValue (v : json).

Inductive feedback_request :=
| FeedbackRequest (metric_name : string) (value : feedback_value)
    (inference_id : UUID).

(** What [print] is given: literal text, [str(e)] and [type(e).__name__]. *)
Inductive print_part :=
| Lit (text : string)
| StrOf (e : exn)
| TypeNameOf (e : exn).

(** The observable events of a task, in program order. [EvGather] is
    [await asyncio.gather(c1, ..., cn)] over feedback calls: the calls are
    started together and awaited together. *)
Inductive event :=
| EvAcquire
| EvRelease
| EvInference (req : inference_request)
| EvGather (calls : list feedback_request)
| EvFeedback (fb : feedback_request)
| EvSleep (seconds : Qc)
| EvPrint (line : list print_part).

(** The state threaded through a task: how many inference calls, feedback
    calls and random draws were made so far, and the events so far. *)
Record world := {
  calls : nat;
  feedbacks : nat;
  draws : nat;
  trace : list event
}.

(** An effectful computation returns or raises, and leaves a new world
    either way. *)
Definition M (A : Type) : Type := world → outcome A * world.

Definition ret {A} (a : A) : M A := λ w, (Return a, w).

Definition bind {A B} (m : M A) (k : A → M B) : M B :=
  λ w, match m w with
       | (Return a, w') => k a w'
       | (Raise e, w') => (Raise e, w')
       end.

Definition raise {A} (e : exn) : M A := λ w, (Raise e, w).

(** [try: body  except Exception as e: handler(e)]. *)
Definition try_except {A} (body : M A) (handler : exn → M A) : M A :=
  λ w, match body w with
       | (Return a, w') => (Return a, w')
       | (Raise e, w') => handler e w'
       end.

Declare Scope py_scope.
Delimit Scope py_scope with py.
Notation "x <- m ;; k" := (bind m (λ x, k))
  (at level 100, m at next level, right associativity) : py_scope.
Notation "m ;;; k" := (bind m (λ _, k))
  (at level 100, right associativity) : py_scope.
Open Scope py_scope.

Definition emit (ev : event) : M unit :=
  λ w, (Return (), {| calls := calls w; feedbacks := feedbacks w;
                      draws := draws w; trace := trace w ++ [ev] |}).

Definition lift {A} (o : outcome A) : M A := λ w, (o, w).

Definition print (line : list print_part) : M unit := emit (EvPrint line).

(** [await asyncio.sleep(seconds)]. *)
Definition sleep (seconds : Qc) : M unit := emit (EvSleep seconds).

(** [async with semaphore: body]: the semaphore is released when the body
    returns and when it raises. *)
Definition async_with_semaphore {A} (body : M A) : M A :=
  emit EvAcquire;;;
  try_except (a <- body;; emit EvRelease;;; ret a)
             (λ e, emit EvRelease;;; raise e).

(** Python's [min] and [max] on two numbers. *)
Definition Qc_min (a b : Qc) : Qc := if decide (a ≤ b)%Qc then a else b.
Definition Qc_max (a b : Qc) : Qc := if decide (a ≤ b)%Qc then b else a.

Section gateway.
(** The external services, as oracles: the outcome of the [n]-th inference
    call, of the [n]-th feedback call, and the [n]-th sample of
    [random.random()], a number in the interval from 0 to 1. *)
Context {R : Type}.
Variable gateway : nat → inference_request → outcome R.
Variable feedback_gateway : nat → feedback_request → outcome unit.
Variable random : nat → Qc.

(** [await client.inference(...)]. *)
Definition inference (req : inference_request) : M R :=
  λ w, (gateway (calls w) req,
        {| calls := S (calls w); feedbacks := feedbacks w; draws := draws w;
           trace := trace w ++ [EvInference req] |}).

(** [await client.feedback(...)]. *)
Definition feedback (fb : feedback_request) : M unit :=
  λ w, (feedback_gateway (feedbacks w) fb,
        {| calls := calls w; feedbacks := S (feedbacks w); draws := draws w;
           trace := trace w ++ [EvFeedback fb] |}).

(** The first failure in a list of outcomes. *)
Fixpoint first_failure (outcomes : list (outcome unit)) : outcome (list unit) :=
  match outcomes with
  | [] => Return []
  | Return u :: rest =>
      match first_failure rest with
      | Return us => Return (u :: us)
      | Raise e => Raise e
      end
  | Raise e :: _ => Raise e
  end.

(** What [asyncio.gather] hands to the task that awaits it: the list of the
    results when every call returns, and otherwise the failure that comes
    first in time. [completion] lists the positions of the calls in the
    order in which they complete, the choice of the event loop; a position
    it does not list completes after the listed ones, in argument order. *)
Definition gather_outcome (completion : list nat) (outcomes : list (outcome unit))
    : outcome (list unit) :=
  match first_failure (omap (λ i, outcomes !! i) completion) with
  | Raise e => Raise e
  | Return _ => first_failure outcomes
  end.

(** The order in which the calls of the gathering that starts at the [n]-th
    feedback call complete. *)
Variable completion : nat → list nat.

(** [await asyncio.gather(client.feedback(...), ..., client.feedback(...))]
    without [return_exceptions]: all the calls are started; the awaiting
    task gets the list of results, or the first failure in time, at which
    point the other calls are not cancelled and may still be running (the
    task system below accounts for them). *)
Definition gather_feedback (fbs : list feedback_request) : M (list unit) :=
  λ w, (gather_outcome (completion (feedbacks w))
          (imap (λ i fb, feedback_gateway (feedbacks w + i) fb) fbs),
        {| calls := calls w; feedbacks := (feedbacks w + length fbs)%nat;
           draws := draws w; trace := trace w ++ [EvGather fbs] |}).

(** [random.uniform(a, b)] is [a + (b - a) * random.random()]. *)
Definition random_uniform (a b : Qc) : M Qc :=
  λ w, (Return (a + (b - a) * random (draws w))%Qc,
        {| calls := calls w; feedbacks := feedbacks w; draws := S (draws w);
           trace := trace w |}).

(** The retry library. [wait_exponential(multiplier, max)] at attempt
    [attempt_number] is [multiplier * 2 ** (attempt_number - 1)], kept
    between 0 and [max]; [wait_random_exponential] draws uniformly between 0
    and that bound. *)
Definition wait_exponential (multiplier max : Qc) (attempt_number : nat) : Qc :=
  Qc_max 0 (Qc_min (multiplier * Qc_of_Z (2 ^ Z.of_nat (attempt_number - 1))) max).

Definition wait_random_exponential (multiplier max : Qc) (attempt_number : nat)
    : M Qc :=
  random_uniform 0 (wait_exponential multiplier max attempt_number).

(** [@retry(stop=stop_after_attempt(n), wait=wait)]: the function is called;
    when the attempt numbered [attempt_number] raises and [attempt_number >=
    n], a [RetryError] is raised; otherwise the decorator sleeps for
    [wait(attempt_number)] and tries again. [remaining] is
    [n - attempt_number]. *)
Fixpoint retry_from {A} (remaining attempt_number : nat) (wait : nat → M Qc)
    (fn : M A) : M A :=
  try_except fn
    (λ e, match remaining with
          | O => raise (RetryError e)
          | S remaining' =>
              seconds <- wait attempt_number;;
              sleep seconds;;;
              retry_from remaining' (S attempt_number) wait fn
          end).

Definition retry {A} (stop_after_attempt : nat) (wait : nat → M Qc) (fn : M A)
    : M A :=
  retry_from (stop_after_attempt - 1) 1 wait fn.

End gateway.

(** The events of repeated attempts at one request: an inference call, then
    a sleep and another call for every entry of [sleeps]. *)
Definition attempts_trace (req : inference_request) (sleeps : list Qc)
    : list event :=
  EvInference req :: concat ((λ s, [EvSleep s; EvInference req]) <$> sleeps).

(** [tqdm_asyncio.gather] over the awaitables [fs]: every awaitable is
    wrapped with its position, the wrapped awaitables are awaited in the
    order in which they complete, and the pairs (position, result) are sorted
    before the positions are dropped. [order] is the completion order, the
    choice of the event loop. A task runs here in one piece at its place in
    [order]: tasks share no state but the gateway, whose answers are arbitrary
    anyway. When a task raises, the gathering raises and no list results. *)
Definition wrap_awaitable {A} (i : nat) (f : M A) : M (nat * A) :=
  a <- f;; ret (i, a).

Fixpoint as_completed {A} (order : list nat) (ifs : list (M A)) : M (list A) :=
  match order with
  | [] => ret []
  | i :: order' =>
      match ifs !! i with
      | Some f => a <- f;; rest <- as_completed order' ifs;; ret (a :: rest)
      | None => as_completed order' ifs
      end
  end.

(** [sorted] on pairs whose first components differ orders by them. *)
Definition position_le {A} (x y : nat * A) : Prop := (x.1 ≤ y.1)%nat.

Global Instance position_le_dec {A} (x y : nat * A) : Decision (position_le x y).
Proof. unfold position_le. apply _. Defined.

Definition tqdm_gather {A} (order : list nat) (fs : list (M A)) : M (list A) :=
  res <- as_completed order (imap wrap_awaitable fs);;
  ret ((merge_sort position_le res).*2).

(** A task of the batch [fs] produced [r]: it is the task at position [i],
    and it returned [r] from some world. *)
Definition produced_by {A} (fs : list (M A)) (i : nat) (r : A) : Prop :=
  ∃ f w w', fs !! i = Some f ∧ f w = (Return r, w').

(** *** Tasks interleaved under an [asyncio.Semaphore]

    What matters of a task for the semaphore is its skeleton: where it
    acquires and releases, and where it awaits gateway calls, [IAwait n]
    standing for [n] calls started together and awaited together. Whether
    the calls succeed is not part of the skeleton: the task system lets any
    awaited call fail. *)
Inductive instr :=
| IAcquire
| IRelease
| IAwait (n_calls : nat).

Definition instr_of (ev : event) : option instr :=
  match ev with
  | EvAcquire => Some IAcquire
  | EvRelease => Some IRelease
  | EvInference _ => Some (IAwait 1)
  | EvFeedback _ => Some (IAwait 1)
  | EvGather fbs => Some (IAwait (length fbs))
  | EvSleep _ | EvPrint _ => None
  end.

Definition skeleton (tr : list event) : list instr := omap instr_of tr.

(** The events a computation adds when it runs from the world [w]. *)
Definition events_of {A} (m : M A) (w : world) : list event :=
  drop (length (trace w)) (trace (m w).2).

(** A task is running the rest of its program, or suspended until its
    [outstanding] calls have completed. *)
Inductive task :=
| Running (prog : list instr)
| Awaiting (outstanding : nat) (cont : list instr).

(** Besides the semaphore and the tasks, the system counts the calls that
    are still in flight though no task awaits them any more: the calls that
    were pending when another call of their gathering failed. *)
Record system := {
  sem_value : nat;
  tasks : list task;
  orphans : nat
}.

(** The move task [i] makes when nothing fails: acquire when the
    semaphore's value is positive (it waits otherwise), release, start its
    calls, see one of its calls return, resume. *)
Definition step_task (i : nat) (s : system) : option system :=
  match tasks s !! i with
  | Some (Running (IAcquire :: p)) =>
      if decide (0 < sem_value s)%nat
      then Some {| sem_value := sem_value s - 1; tasks := <[i := Running p]> (tasks s);
                   orphans := orphans s |}
      else None
  | Some (Running (IRelease :: p)) =>
      Some {| sem_value := sem_value s + 1; tasks := <[i := Running p]> (tasks s);
              orphans := orphans s |}
  | Some (Running (IAwait n :: p)) =>
      Some {| sem_value := sem_value s; tasks := <[i := Awaiting n p]> (tasks s);
              orphans := orphans s |}
  | Some (Awaiting (S m) p) =>
      Some {| sem_value := sem_value s; tasks := <[i := Awaiting m p]> (tasks s);
              orphans := orphans s |}
  | Some (Awaiting O p) =>
      Some {| sem_value := sem_value s; tasks := <[i := Running p]> (tasks s);
              orphans := orphans s |}
  | Some (Running []) | None => None
  end.

(** One of the calls task [i] awaits fails: the awaiting raises at once, so
    the task resumes (an exception leaves [async with] through the release
    that follows), and the other calls of the gathering stay in flight with
    no task awaiting them. *)
Definition fail_task (i : nat) (s : system) : option system :=
  match tasks s !! i with
  | Some (Awaiting (S m) p) =>
      Some {| sem_value := sem_value s; tasks := <[i := Running p]> (tasks s);
              orphans := orphans s + m |}
  | _ => None
  end.

(** A call that no task awaits completes. *)
Definition orphan_done (s : system) : option system :=
  match orphans s with
  | S k => Some {| sem_value := sem_value s; tasks := tasks s; orphans := k |}
  | O => None
  end.

Inductive move :=
| Go (i : nat)
| Fail (i : nat)
| Orphan.

Definition step_move (mv : move) (s : system) : option system :=
  match mv with
  | Go i => step_task i s
  | Fail i => fail_task i s
  | Orphan => orphan_done s
  end.

Definition step (s s' : system) : Prop := ∃ mv, step_move mv s = Some s'.

Definition reachable (s0 s : system) : Prop := rtc step s0 s.

Fixpoint run_schedule (schedule : list move) (s : system) : option system :=
  match schedule with
  | [] => Some s
  | mv :: schedule' =>
      match step_move mv s with
      | Some s' => run_schedule schedule' s'
      | None => None
      end
  end.

Definition in_flight (t : task) : nat :=
  match t with
  | Awaiting m _ => m
  | Running _ => 0
  end.

(** The gateway calls in flight that a task awaits, and all the gateway
    calls in flight. *)
Definition awaited_in_flight (s : system) : nat := sum_list (in_flight <$> tasks s).

Definition total_in_flight (s : system) : nat := (awaited_in_flight s + orphans s)%nat.

(** A batch: every task at the start of its program, the semaphore at its
    initial value, no call in flight. *)
Definition batch (size : nat) (progs : list (list instr)) : system :=
  {| sem_value := size; tasks := Running <$> progs; orphans := 0 |}.

Global Instance instr_eq_dec : EqDecision instr.
Proof. solve_decision. Defined.

Definition remaining (t : task) : list instr :=
  match t with
  | Running prog => prog
  | Awaiting _ cont => cont
  end.

(** A task holds the semaphore when it has acquired it and not yet released
    it: a release is still ahead and no acquire is. *)
Definition holding (t : task) : bool :=
  bool_decide (IRelease ∈ remaining t ∧ IAcquire ∉ remaining t).

Definition holders (s : system) : nat :=
  length (filter (λ t, holding t = true) (tasks s)).

(** A program that does all its gateway calls inside one hold of the
    semaphore, at most [width] of them at a time. *)
Definition awaits_at_most (width : nat) (i : instr) : Prop :=
  match i with
  | IAwait n => (n ≤ width)%nat
  | IAcquire | IRelease => False
  end.

Definition guarded (width : nat) (prog : list instr) : Prop :=
  ∃ body, prog = IAcquire :: body ++ [IRelease] ∧ Forall (awaits_at_most width) body.

(** What the tasks of a batch of guarded programs look like while the batch
    runs: not yet inside the semaphore, inside it and running, inside it and
    awaiting at most [width] calls, or done. *)
Section batch_invariant.
Variable width size : nat.

Inductive task_ok : task → Prop :=
| ok_waiting body :
    Forall (awaits_at_most width) body →
    task_ok (Running (IAcquire :: body ++ [IRelease]))
| ok_holding body :
    Forall (awaits_at_most width) body →
    task_ok (Running (body ++ [IRelease]))
| ok_awaiting m body :
    (m ≤ width)%nat → Forall (awaits_at_most width) body →
    task_ok (Awaiting m (body ++ [IRelease]))
| ok_done : task_ok (Running []).

(** A task counts 1 while it holds the semaphore. *)
Definition weight (t : task) : nat := if holding t then 1 else 0.

(** Every task is well placed and the semaphore's value accounts for the
    tasks inside it. *)
Definition invariant (s : system) : Prop :=
  Forall task_ok (tasks s) ∧ (sem_value s + holders s = size)%nat.

End batch_invariant.

(** The calls a task can still leave behind: all but one of each group of
    calls it awaits together. *)
Definition spare_calls (i : instr) : nat :=
  match i with
  | IAwait n => n - 1
  | IAcquire | IRelease => 0
  end.

Definition can_leave_behind (t : task) : nat :=
  match t with
  | Running prog => sum_list (spare_calls <$> prog)
  | Awaiting m cont => (m - 1) + sum_list (spare_calls <$> cont)
  end.

(** A batch is finished when every task has run its program to the end. *)
Definition all_done (s : system) : Prop :=
  Forall (λ t, t = Running []) (tasks s).

(** The moves a task has ahead of it when nothing fails: one per acquire
    and per release; for [n] calls awaited together, one to start them, one
    per completion and one to resume. *)
Definition cost (i : instr) : nat :=
  match i with
  | IAcquire | IRelease => 1
  | IAwait n => n + 2
  end.

Definition steps_left (t : task) : nat :=
  match t with
  | Running prog => sum_list (cost <$> prog)
  | Awaiting m cont => m + 1 + sum_list (cost <$> cont)
  end.

Definition total_steps_left (s : system) : nat :=
  sum_list (steps_left <$> tasks s).

(** *** The analytics database

    A row maps column names to values; the database maps the four tables the
    notebooks read to their rows. *)
Inductive sql_value :=
| VString (s : string)
| VUuid (u : UUID)
| VBool (b : bool)
| VFloat (q : Qc).

Global Instance sql_value_eq_dec : EqDecision sql_value.
Proof. solve_decision. Defined.

Inductive table :=
| JsonInference
| ChatInference
| BooleanMetricFeedback
| FloatMetricFeedback.

Abbreviation row := (gmap string sql_value).

(** [alias.name] *)
Inductive column_ref := Column (alias name : string).

Inductive operand :=
| OColumn (c : column_ref)
| OLiteral (s : string)
| OParameter (name : string).

Inductive condition :=
| Eq (a b : operand)
| And (c1 c2 : condition).

(** [SELECT columns FROM from_table from_alias JOIN join_table join_alias
    ON on_condition WHERE where_condition]. *)
Record select_query := {
  columns : list column_ref;
  from_table : table;
  from_alias : string;
  join_table : table;
  join_alias : string;
  on_condition : condition;
  where_condition : condition
}.

Section query.
Variable db : table → list row.
Variable parameters : gmap string string.
Variable q : select_query.

Definition column_value (i b : row) (c : column_ref) : option sql_value :=
  match c with
  | Column alias name =>
      if decide (alias = from_alias q) then i !! name
      else if decide (alias = join_alias q) then b !! name
      else None
  end.

Definition operand_value (i b : row) (o : operand) : option sql_value :=
  match o with
  | OColumn c => column_value i b c
  | OLiteral s => Some (VString s)
  | OParameter name => VString <$> parameters !! name
  end.

Fixpoint holds (i b : row) (c : condition) : bool :=
  match c with
  | Eq x y =>
      match operand_value i b x, operand_value i b y with
      | Some vx, Some vy => bool_decide (vx = vy)
      | _, _ => false
      end
  | And c1 c2 => holds i b c1 && holds i b c2
  end.

(** The pairs of an inference row and a feedback row that the query keeps. *)
Definition joined : list (row * row) :=
  filter (λ '(i, b), holds i b (on_condition q) && holds i b (where_condition q) = true)
    (i ← db (from_table q); b ← db (join_table q); [(i, b)]).

(** The data frame returned by [query_df]: one row per kept pair, with the
    selected columns under their bare names. *)
Definition query_df : list row :=
  (λ '(i, b),
     list_to_map
       (omap (λ c, match c with
                   | Column _ name => (λ v, (name, v)) <$> column_value i b c
                   end) (columns q)))
  <$> joined.

End query.

(** A boolean column averages as 0 and 1. *)
Definition numeric (v : sql_value) : option Qc :=
  match v with
  | VBool true => Some 1%Qc
  | VBool false => Some 0%Qc
  | VFloat q => Some q
  | VString _ | VUuid _ => None
  end.

Definition group (by_ col : string) (df : list row) (key : string) : list Qc :=
  omap (λ r : row, r !! col ≫= numeric)
       (filter (λ r : row, r !! by_ = Some (VString key)) df).

Definition mean (xs : list Qc) : Qc :=
  (foldr Qcplus 0%Qc xs / Qc_of_Z (Z.of_nat (length xs)))%Qc.

(** [df.groupby(by_)[col].mean()]: the series maps every value of the
    grouping column to the mean of [col] over its rows. *)
Definition groupby_mean (by_ col : string) (df : list row) : gmap string Qc :=
  list_to_map
    ((λ key, (key, mean (group by_ col df key))) <$>
     omap (λ r : row, match r !! by_ with Some (VString key) => Some key | _ => None end) df).

(** *** The NER notebook (conll.ipynb) *)

Module Conll.

Section notebook.
Variable upper : string → string.

(** [flatten_dict]: the two nested loops append one tagged entry per element,
    category by category. *)
Definition flatten_dict (d : dict) : list string :=
  foldl (λ res '(k, v),
           foldl (λ res elt, res ++ ["__" +:+ upper k +:+ "__::" +:+ elt]) res v)
        [] d.

(** [exact_match]: equality of the two Python sets. *)
Definition exact_match (predicted gold : dict) : bool :=
  bool_decide (list_to_set (flatten_dict predicted) =@{gset string}
               list_to_set (flatten_dict gold)).

(** [Counter(iterable)]: every element bumps its count, a missing key
    counting as 0. *)
Definition Counter (l : list string) : gmap string Z :=
  foldl (λ c elem, <[elem := default 0 (c !! elem) + 1]> c) ∅ l.

(** [c.get(key, dflt)]. *)
Definition get (c : gmap string Z) (key : string) (dflt : Z) : Z :=
  default dflt (c !! key).

(** The [for key in all_keys] loop of [jaccard_similarity], for the keys in
    the order [keys] in which the set happens to be iterated. *)
Definition jaccard_loop (target_count pred_count : gmap string Z)
    (keys : list string) : Z * Z :=
  foldl (λ '(num, den) key,
           (num + Z.min (get target_count key 0) (get pred_count key 0),
            den + Z.max (get target_count key 0) (get pred_count key 0)))
        (0, 0) keys.

Definition jaccard_similarity (predicted gold : dict) : Qc :=
  let target_entities := flatten_dict gold in
  let pred_entities := flatten_dict predicted in
  let target_count := Counter target_entities in
  let pred_count := Counter pred_entities in
  let all_keys : gset string :=
    list_to_set target_entities ∪ list_to_set pred_entities in
  let '(num, den) := jaccard_loop target_count pred_count (elements all_keys) in
  if bool_decide (den = 0) then 1%Qc
  else (Qc_of_Z num / Qc_of_Z den)%Qc.

(** The response of the JSON function [extract_entities], with the
    attributes the notebook reads. [parsed] is [None] when the model's output
    is not valid JSON for the schema. *)
Record JsonInferenceOutput := { raw : string; parsed : option dict }.

Record InferenceResponse := {
  inference_id : UUID;
  episode_id : UUID;
  variant_name : string;
  output : JsonInferenceOutput
}.

(** [evaluate]. A response object is truthy; a dictionary is truthy when it
    is not empty, and [None] is falsy. *)
Definition evaluate (response : option InferenceResponse) (gold_data : dict)
    : bool * bool * Qc :=
  let predicted :=
    match response with Some r => parsed (output r) | None => None end in
  let valid_json := bool_decide (predicted ≠ None) in
  let matched :=
    match predicted with
    | Some p => if bool_decide (p ≠ []) then exact_match p gold_data else false
    | None => false
    end in
  let jaccard :=
    match predicted with
    | Some p => if bool_decide (p ≠ []) then jaccard_similarity p gold_data else 0%Qc
    | None => 0%Qc
    end in
  (valid_json, matched, jaccard).

(** The gateway behind [tensorzero_client], the order in which calls
    gathered together complete, and the random source of the retry policy. *)
Variable gateway : nat → inference_request → outcome InferenceResponse.
Variable feedback_gateway : nat → feedback_request → outcome unit.
Variable completion : nat → list nat.
Variable random : nat → Qc.

(** [_get_entities], under
    [@retry(stop=stop_after_attempt(3), wait=wait_random_exponential(multiplier=1, max=10))].
    The client argument is the gateway above. *)
Definition _get_entities (text : string) (variant_name : option string)
    (dryrun : bool) : M InferenceResponse :=
  retry 3 (wait_random_exponential random (Qc_of_Z 1) (Qc_of_Z 10))
    (inference gateway
       (InferenceRequest "extract_entities" (UserText text) variant_name dryrun None)).

Definition get_entities (text : string) (variant_name : option string)
    (dryrun : bool) : M (option InferenceResponse) :=
  try_except
    (r <- _get_entities text variant_name dryrun;; ret (Some r))
    (λ e, print [Lit "Error: "; StrOf e];;; ret None).

Definition NUM_TRAIN_PREDICTIONS : nat := 100.
Definition MAX_CONCURRENT_REQUESTS : nat := 20.

(** [make_inference] of the training cell. *)
Definition make_inference (text : string) : M (option InferenceResponse) :=
  async_with_semaphore (get_entities text None false).

(** The training fan-out over [train_df["input"][:NUM_TRAIN_PREDICTIONS]]. *)
Definition responses (order : list nat) (train_input : list string)
    : M (list (option InferenceResponse)) :=
  tqdm_gather order (make_inference <$> take NUM_TRAIN_PREDICTIONS train_input).

(** [evaluate_send_feedback]: the four feedback calls are awaited together
    inside one hold of the semaphore; when one of them fails the exception
    leaves the [async with] block, which releases the semaphore. Reading
    [response.inference_id] of [None] raises. *)
Definition evaluate_send_feedback (response : option InferenceResponse)
    (gold_data : dict) : M unit :=
  let '(valid_json, matched, jaccard) := evaluate response gold_data in
  async_with_semaphore
    (match response with
     | None =>
         raise (PyError "AttributeError"
                  "'NoneType' object has no attribute 'inference_id'")
     | Some r =>
         gather_feedback feedback_gateway completion
           [FeedbackRequest "valid_json" (BoolValue valid_json) (inference_id r);
            FeedbackRequest "exact_match" (BoolValue matched) (inference_id r);
            FeedbackRequest "jaccard_similarity" (FloatValue jaccard) (inference_id r);
            FeedbackRequest "demonstration" (DictValue gold_data) (inference_id r)];;;
         ret ()
     end).

(** The feedback fan-out: the responses are zipped with
    [train_df["output"][:NUM_TRAIN_PREDICTIONS]] and the absent ones are
    skipped. *)
Definition feedback_tasks (responses : list (option InferenceResponse))
    (train_output : list dict) : list (M unit) :=
  (λ '(response, gold), evaluate_send_feedback response gold) <$>
  filter (λ '(response, gold), response ≠ None)
    (zip responses (take NUM_TRAIN_PREDICTIONS train_output)).

Definition send_all_feedback (order : list nat)
    (responses : list (option InferenceResponse)) (train_output : list dict)
    : M (list unit) :=
  tqdm_gather order (feedback_tasks responses train_output).

(** The test cells: [make_inference] is defined again, with the variant
    pinned and [dryrun=True]. *)
Definition NUM_TEST_PREDICTIONS : nat := 500.

Definition make_inference_dryrun (text : string) (variant_name : option string)
    : M (option InferenceResponse) :=
  async_with_semaphore (get_entities text variant_name true).

Definition variant_result (order : list nat) (variant_name : string)
    (test_input : list string) : M (list (option InferenceResponse)) :=
  tqdm_gather order
    ((λ text, make_inference_dryrun text (Some variant_name)) <$>
     take NUM_TEST_PREDICTIONS test_input).

(** The scores of one variant on the test set. *)
Definition variant_scores (responses : list (option InferenceResponse))
    (test_output : list dict) : list (bool * bool * Qc) :=
  (λ '(response, gold), evaluate response gold) <$>
  zip responses (take NUM_TEST_PREDICTIONS test_output).

(** The averages printed for a variant, [sum(xs) / len(xs)]: in a sum
    [False] and [True] count as 0 and 1, and dividing by the length of an
    empty list raises. *)
Definition as_number (b : bool) : Qc := if b then 1%Qc else 0%Qc.

Definition average (xs : list Qc) : outcome Qc :=
  if decide (length xs = 0%nat)
  then Raise (PyError "ZeroDivisionError" "division by zero")
  else Return (foldl Qcplus 0%Qc xs / Qc_of_Z (Z.of_nat (length xs)))%Qc.

(** The averages of one variant in the order they are printed: well-formed
    JSON, Jaccard similarity, exact match. *)
Definition variant_averages (responses : list (option InferenceResponse))
    (test_output : list dict) : outcome (Qc * Qc * Qc) :=
  let scores := variant_scores responses test_output in
  let jaccards := (λ score : bool * bool * Qc, score.2) <$> scores in
  let well_formed_jsons := (λ score : bool * bool * Qc, as_number score.1.1) <$> scores in
  let exact_matches := (λ score : bool * bool * Qc, as_number score.1.2) <$> scores in
  match average well_formed_jsons with
  | Raise e => Raise e
  | Return well_formed =>
      match average jaccards with
      | Raise e => Raise e
      | Return jaccard =>
          match average exact_matches with
          | Raise e => Raise e
          | Return matched => Return (well_formed, jaccard, matched)
          end
      end
  end.

End notebook.

(** The two analytics queries of the notebook, and the aggregation that
    follows each. *)
Definition metric_name : string := "exact_match".

Definition exact_match_query : select_query := {|
  columns := [Column "i" "variant_name"; Column "i" "input";
              Column "i" "output"; Column "b" "value"];
  from_table := JsonInference; from_alias := "i";
  join_table := BooleanMetricFeedback; join_alias := "b";
  on_condition := Eq (OColumn (Column "i" "id")) (OColumn (Column "b" "target_id"));
  where_condition :=
    And (Eq (OColumn (Column "i" "function_name")) (OLiteral "extract_entities"))
        (Eq (OColumn (Column "b" "metric_name")) (OParameter "metric_name"))
|}.

Definition exact_match_parameters : gmap string string :=
  {[ "metric_name" := metric_name ]}.

Definition jaccard_query : select_query := {|
  columns := [Column "i" "variant_name"; Column "i" "input";
              Column "i" "output"; Column "f" "value"];
  from_table := JsonInference; from_alias := "i";
  join_table := FloatMetricFeedback; join_alias := "f";
  on_condition := Eq (OColumn (Column "i" "id")) (OColumn (Column "f" "target_id"));
  where_condition :=
    And (Eq (OColumn (Column "i" "function_name")) (OLiteral "extract_entities"))
        (Eq (OColumn (Column "f" "metric_name")) (OLiteral "jaccard_similarity"))
|}.

Definition exact_match_by_variant (db : table → list row) : gmap string Qc :=
  groupby_mean "variant_name" "value"
    (query_df db exact_match_parameters exact_match_query).

Definition jaccard_by_variant (db : table → list row) : gmap string Qc :=
  groupby_mean "variant_name" "value" (query_df db ∅ jaccard_query).

End Conll.

(** *** The haiku notebook (haiku.ipynb) *)

Module Haiku.

Inductive ContentBlock :=
| Text (text : string)
| ToolCall (name arguments : string).

Record JsonInferenceOutput := { raw : string; parsed : option json }.

(** The gateway answers a chat function with a chat response and a JSON
    function with a JSON response; reading an attribute the response does not
    have raises [AttributeError]. *)
Inductive InferenceResponse :=
| ChatInferenceResponse (inference_id episode_id : UUID) (variant_name : string)
    (content : list ContentBlock)
| JsonInferenceResponse (inference_id episode_id : UUID) (variant_name : string)
    (output : JsonInferenceOutput).

Definition inference_id (r : InferenceResponse) : UUID :=
  match r with
  | ChatInferenceResponse i _ _ _ | JsonInferenceResponse i _ _ _ => i
  end.

Definition episode_id (r : InferenceResponse) : UUID :=
  match r with
  | ChatInferenceResponse _ e _ _ | JsonInferenceResponse _ e _ _ => e
  end.

Definition AttributeError (attr : string) : exn :=
  PyError "AttributeError" ("object has no attribute " +:+ attr).

Definition content (r : InferenceResponse) : outcome (list ContentBlock) :=
  match r with
  | ChatInferenceResponse _ _ _ c => Return c
  | JsonInferenceResponse _ _ _ _ => Raise (AttributeError "content")
  end.

Definition output (r : InferenceResponse) : outcome JsonInferenceOutput :=
  match r with
  | ChatInferenceResponse _ _ _ _ => Raise (AttributeError "output")
  | JsonInferenceResponse _ _ _ o => Return o
  end.

Definition text (b : ContentBlock) : outcome string :=
  match b with
  | Text t => Return t
  | ToolCall _ _ => Raise (AttributeError "text")
  end.

(** [l[0]]. *)
Definition first_item {A} (l : list A) : outcome A :=
  match l with
  | x :: _ => Return x
  | [] => Raise (PyError "IndexError" "list index out of range")
  end.

Fixpoint member (key : string) (members : list (string * json)) : option json :=
  match members with
  | [] => None
  | (k, v) :: rest => if decide (k = key) then Some v else member key rest
  end.

(** [parsed[key]] for a string key: only a JSON object can be subscripted
    by it. *)
Definition subscript (parsed : option json) (key : string) : outcome json :=
  match parsed with
  | Some (JObject members) =>
      match member key members with
      | Some v => Return v
      | None => Raise (PyError "KeyError" key)
      end
  | _ => Raise (PyError "TypeError" "object is not subscriptable by str")
  end.

Definition newline : Ascii.ascii := Ascii.ascii_of_nat 10.

(** [s.split("\n")]. *)
Fixpoint split_lines (s : string) : list string :=
  match s with
  | EmptyString => [EmptyString]
  | String a s' =>
      if Ascii.eqb a newline then EmptyString :: split_lines s'
      else match split_lines s' with
           | line :: lines => String a line :: lines
           | [] => [String a EmptyString]
           end
  end.

(** ["\n".join(lines)]. *)
Fixpoint join_lines (lines : list string) : string :=
  match lines with
  | [] => EmptyString
  | [line] => line
  | line :: rest => line +:+ String newline (join_lines rest)
  end.

(** [lines[-3:]]. *)
Definition last_three {A} (lines : list A) : list A :=
  drop (length lines - 3) lines.

Section notebook.
(** [str.strip] is a library function. *)
Variable strip : string → string.
Variable gateway : nat → inference_request → outcome InferenceResponse.
Variable feedback_gateway : nat → feedback_request → outcome unit.

Definition write_grade_haiku (topic : string)
    : M (option (string * json * UUID)) :=
  haiku <-
    try_except
      (r <- inference gateway
              (InferenceRequest "write_haiku" (UserArguments [("topic", topic)])
                 None false None);;
       ret (Some r))
      (λ e, print [StrOf e];;; ret None);;
  match haiku with
  | None => ret None
  | Some haiku_result =>
      blocks <- lift (content haiku_result);;
      block <- lift (first_item blocks);;
      haiku_text <- lift (text block);;
      let haiku_lines := split_lines (strip haiku_text) in
      let haiku_text := join_lines (last_three haiku_lines) in
      let inference_id := inference_id haiku_result in
      judge <-
        try_except
          (r <- inference gateway
                  (InferenceRequest "judge_haiku"
                     (UserArguments [("topic", topic); ("haiku", haiku_text)])
                     None false (Some (episode_id haiku_result)));;
           ret (Some r))
          (λ e, print [Lit "Error occurred: "; TypeNameOf e; Lit ": "; StrOf e];;;
                ret None);;
      match judge with
      | None => ret None
      | Some judge_result =>
          out <- lift (output judge_result);;
          score <- lift (subscript (parsed out) "score");;
          ret (Some (haiku_text, score, inference_id))
      end
  end.

Definition max_concurrent_requests : nat := 50.
Definition num_requests : nat := 500.

Definition ratelimited_write_grade_haiku (noun : string)
    : M (option (string * json * UUID)) :=
  async_with_semaphore (write_grade_haiku noun).

Definition results (order : list nat) (nouns : list string)
    : M (list (option (string * json * UUID))) :=
  tqdm_gather order (ratelimited_write_grade_haiku <$> take num_requests nouns).

Definition send_haiku_feedback (inference_id : UUID) (score : json) : M unit :=
  feedback feedback_gateway
    (FeedbackRequest "haiku_score" (JsonValue score) inference_id).

(** The feedback cell: absent results are dropped, and the feedback calls
    are gathered without the semaphore. *)
Definition send_all_feedback (order : list nat)
    (results : list (option (string * json * UUID))) : M (list unit) :=
  tqdm_gather order
    ((λ result : string * json * UUID, send_haiku_feedback result.2 result.1.2) <$>
     omap id results).

End notebook.

(** The analytics query of the notebook, and its aggregation. *)
Definition haiku_query : select_query := {|
  columns := [Column "i" "variant_name"; Column "i" "input";
              Column "i" "output"; Column "b" "value"];
  from_table := ChatInference; from_alias := "i";
  join_table := BooleanMetricFeedback; join_alias := "b";
  on_condition := Eq (OColumn (Column "i" "id")) (OColumn (Column "b" "target_id"));
  where_condition :=
    Eq (OColumn (Column "i" "function_name")) (OLiteral "write_haiku")
|}.

Definition score_by_variant (db : table → list row) : gmap string Qc :=
  groupby_mean "variant_name" "value" (query_df db ∅ haiku_query).

End Haiku.

(** *** The scoring properties in the specification's words *)

Section scoring_spec.
Variable upper : string → string.

(** The key of an entry: the uppercased category tag plus the literal value. *)
Definition spec_key (category value : string) : string :=
  "__" +:+ upper category +:+ "__::" +:+ value.

(** [s] is a tagged entry of [d]. *)
Definition spec_entry_of (d : dict) (s : string) : Prop :=
  ∃ k v e, (k, v) ∈ d ∧ e ∈ v ∧ s = spec_key k e.

(** The multiset of tagged entries of [d], as a list with repetitions. *)
Definition spec_entries (d : dict) : list string :=
  '(k, v) ← d; spec_key k <$> v.

(** Multiplicity count of [x] in a multiset given as a list. *)
Definition multiplicity_in (x : string) (l : list string) : nat :=
  length (filter (x =.) l).

(** The keys in the union of the two entry multisets, each once. *)
Definition spec_keys (predicted gold : dict) : list string :=
  remove_dups (spec_entries predicted ++ spec_entries gold).

Definition spec_sum_min (predicted gold : dict) : nat :=
  sum_list_with
    (λ x, Nat.min (multiplicity_in x (spec_entries predicted))
                  (multiplicity_in x (spec_entries gold)))
    (spec_keys predicted gold).

Definition spec_sum_max (predicted gold : dict) : nat :=
  sum_list_with
    (λ x, Nat.max (multiplicity_in x (spec_entries predicted))
                  (multiplicity_in x (spec_entries gold)))
    (spec_keys predicted gold).

(** Sum of minima over sum of maxima, the zero denominator apart. *)
Definition spec_jaccard (predicted gold : dict) : Qc :=
  if decide (spec_sum_max predicted gold = 0%nat) then 1%Qc
  else (Qc_of_Z (Z.of_nat (spec_sum_min predicted gold)) /
        Qc_of_Z (Z.of_nat (spec_sum_max predicted gold)))%Qc.

End scoring_spec.

(** *** Notions used to state the properties of the feedback cells *)

(** The four feedback calls [evaluate_send_feedback] makes for a response. *)
Definition feedback_requests (upper : string → string)
    (r : Conll.InferenceResponse) (gold : dict) : list feedback_request :=
  let '(valid_json, matched, jaccard) := Conll.evaluate upper (Some r) gold in
  [FeedbackRequest "valid_json" (BoolValue valid_json) (Conll.inference_id r);
   FeedbackRequest "exact_match" (BoolValue matched) (Conll.inference_id r);
   FeedbackRequest "jaccard_similarity" (FloatValue jaccard) (Conll.inference_id r);
   FeedbackRequest "demonstration" (DictValue gold) (Conll.inference_id r)].

(** The responses that are present among the first [n] positions, each with
    the gold output of its position. *)
Definition present_pairs {R G} (n : nat) (responses : list (option R))
    (golds : list G) : list (R * G) :=
  omap (λ '(response, gold), (λ r, (r, gold)) <$> response)
       (zip responses (take n golds)).

(** The feedback call [send_haiku_feedback] makes for a result. *)
Definition haiku_feedback_request (result : string * json * UUID) : feedback_request :=
  FeedbackRequest "haiku_score" (JsonValue result.1.2) result.2.

(** *** The tasks the notebooks run under a semaphore

    The programs of the four fan-outs, each with the size of the semaphore
    it shares. *)
Inductive notebook_task : nat → list instr → Prop :=
| task_make_inference gateway random text w :
    notebook_task Conll.MAX_CONCURRENT_REQUESTS
      (skeleton (events_of (Conll.make_inference gateway random text) w))
| task_make_inference_dryrun gateway random text variant_name w :
    notebook_task Conll.MAX_CONCURRENT_REQUESTS
      (skeleton (events_of
         (Conll.make_inference_dryrun gateway random text variant_name) w))
| task_evaluate_send_feedback upper feedback_gateway completion response gold w :
    notebook_task Conll.MAX_CONCURRENT_REQUESTS
      (skeleton (events_of
         (Conll.evaluate_send_feedback upper feedback_gateway completion
            response gold) w))
| task_ratelimited_write_grade_haiku strip gateway noun w :
    notebook_task Haiku.max_concurrent_requests
      (skeleton (events_of
         (Haiku.ratelimited_write_grade_haiku strip gateway noun) w)).

(** *** Notions used to state the properties of the haiku task *)

(** The two inference calls of [write_grade_haiku]. *)
Definition write_haiku_request (topic : string) : inference_request :=
  InferenceRequest "write_haiku" (UserArguments [("topic", topic)]) None false None.

Definition judge_haiku_request (topic haiku_text : string) (episode : UUID)
    : inference_request :=
  InferenceRequest "judge_haiku"
    (UserArguments [("topic", topic); ("haiku", haiku_text)]) None false (Some episode).

(** The exceptions that reading a response can raise. *)
Definition local_error (e : exn) : Prop :=
  ∃ cls msg, e = PyError cls msg ∧
             cls ∈ ["AttributeError"; "IndexError"; "TypeError"; "KeyError"].

(** A string that holds no line break. *)
Fixpoint one_line (s : string) : bool :=
  match s with
  | EmptyString => true
  | String a s' => negb (Ascii.eqb a Haiku.newline) && one_line s'
  end.

(** *** Notions used to state the properties of the analytics queries *)

(** The values averaged for a variant: the feedback values of the kept
    pairs whose inference row carries that variant. *)
Definition variant_values (pairs : list (row * row)) (variant : string) : list Qc :=
  omap (λ '(i, b), b !! "value" ≫= numeric)
       (filter (λ '(i, b), i !! "variant_name" = Some (VString variant)) pairs).

(** The two rows share the inference identifier. *)
Definition same_inference (i b : row) : Prop :=
  ∃ u, i !! "id" = Some u ∧ b !! "target_id" = Some u.

(** The queries the notebooks issue, each with its parameters. *)
Definition issued_queries : list (gmap string string * select_query) :=
  [(Conll.exact_match_parameters, Conll.exact_match_query);
   (∅, Conll.jaccard_query);
   (∅, Haiku.haiku_query)].

Definition joins_on_identifier (ps : gmap string string) (q : select_query) : Prop :=
  ∀ db i b, (i, b) ∈ joined db ps q → same_inference i b.

Definition filters_function_name (ps : gmap string string) (q : select_query)
    : Prop :=
  ∃ f, ∀ db i b, (i, b) ∈ joined db ps q → i !! "function_name" = Some (VString f).

Definition filters_metric_name (ps : gmap string string) (q : select_query)
    : Prop :=
  ∃ m, ∀ db i b, (i, b) ∈ joined db ps q → b !! "metric_name" = Some (VString m).

(** A database in which one haiku inference has feedback for two boolean
    metrics. *)
Definition two_metrics_db (t : table) : list row :=
  match t with
  | ChatInference =>
      [list_to_map [("id", VUuid 1%N); ("function_name", VString "write_haiku");
                    ("variant_name", VString "initial_prompt");
                    ("input", VString "{}"); ("output", VString "[]")]]
  | BooleanMetricFeedback =>
      [list_to_map [("target_id", VUuid 1%N); ("metric_name", VString "haiku_score");
                    ("value", VBool true)];
       list_to_map [("target_id", VUuid 1%N); ("metric_name", VString "haiku_liked");
                    ("value", VBool false)]]
  | JsonInference | FloatMetricFeedback => []
  end.

(** Replacing a category key by another spelling, on the association-list
    model of a Python dict: [d.get(k)], [del d[k]] and [d[k] = v] (an
    existing key keeps its position, a new key goes last). *)
Fixpoint dict_get (k : string) (d : dict) : option (list string) :=
  match d with
  | [] => None
  | (k0, v0) :: d' => if decide (k0 = k) then Some v0 else dict_get k d'
  end.

Fixpoint dict_del (k : string) (d : dict) : dict :=
  match d with
  | [] => []
  | (k0, v0) :: d' => if decide (k0 = k) then d' else (k0, v0) :: dict_del k d'
  end.

Fixpoint dict_setitem (k : string) (v : list string) (d : dict) : dict :=
  match d with
  | [] => [(k, v)]
  | (k0, v0) :: d' =>
      if decide (k0 = k) then (k0, v) :: d' else (k0, v0) :: dict_setitem k v d'
  end.

(** The entry of [k] moves to the key [k']; when [k'] is already a key of
    the dictionary the two value lists are merged. *)
Definition rename_key (k k' : string) (d : dict) : dict :=
  match dict_get k d with
  | None => d
  | Some v =>
      let d' := dict_del k d in
      dict_setitem k' (default [] (dict_get k' d') ++ v) d'
  end.

(** A case mapping for concrete runs: ASCII letters are uppercased, every
    other character is kept. *)
Definition ascii_upper (a : Ascii.ascii) : Ascii.ascii :=
  let n := Ascii.nat_of_ascii a in
  if (97 <=? n)%nat && (n <=? 122)%nat then Ascii.ascii_of_nat (n - 32) else a.

Fixpoint str_upper (s : string) : string :=
  match s with
  | EmptyString => EmptyString
  | String a s' => String (ascii_upper a) (str_upper s')
  end.

(** *** Concrete runs *)

Definition start : world := {| calls := 0; feedbacks := 0; draws := 0; trace := [] |}.

(** A gateway that is down, one that answers its first call only, a
    feedback endpoint that accepts everything, and a random source stuck at
    one half. *)
Definition timing_out {R} : nat → inference_request → outcome R :=
  λ _ _, Raise (PyError "TimeoutError" "timed out").

Definition haiku_then_down : nat → inference_request → outcome Haiku.InferenceResponse :=
  λ n _,
    match n with
    | O => Return (Haiku.ChatInferenceResponse 1%N 2%N "initial_prompt"
                     [Haiku.Text "An old silent pond"])
    | S _ => Raise (PyError "TimeoutError" "timed out")
    end.

Definition accepting : nat → feedback_request → outcome unit := λ _ _, Return ().

(** A feedback endpoint that rejects the exact-match score only, and an
    event loop in which the calls of a gathering complete last first. *)
Definition rejecting_exact_match : nat → feedback_request → outcome unit :=
  λ _ fb,
    match fb with
    | FeedbackRequest "exact_match" _ _ => Raise (PyError "TensorZeroError" "rejected")
    | _ => Return ()
    end.

Definition last_first : nat → list nat := λ _, [3; 2; 1; 0]%nat.

(** A gateway whose answers hold no content block. *)
Definition empty_content : nat → inference_request → outcome Haiku.InferenceResponse :=
  λ _ _, Return (Haiku.ChatInferenceResponse 1%N 2%N "initial_prompt" []).

Definition one_half : nat → Qc := λ _, Q2Qc (1 # 2).

Definition sample_response : Conll.InferenceResponse :=
  {| Conll.inference_id := 7%N; Conll.episode_id := 8%N;
     Conll.variant_name := "gpt_4o_mini";
     Conll.output := {| Conll.raw := "{}"; Conll.parsed := Some [] |} |}.

(** Six feedback tasks of the NER notebook, and the schedule in which each
    acquires the semaphore and then each starts its calls. *)
Definition six_feedback_runs : list (option Conll.InferenceResponse * dict * world) :=
  replicate 6 (Some sample_response, [], start).

Definition acquire_all_then_call : list move :=
  Go <$> [0; 1; 2; 3; 4; 5; 0; 1; 2; 3; 4; 5]%nat.

(** Twenty-one feedback tasks, and the schedule in which twenty of them
    enter the semaphore and start their calls, a call of the first one
    fails, that task leaves the semaphore with three calls pending, and the
    last task enters and starts its calls. *)
Definition twenty_one_feedback_runs
    : list (option Conll.InferenceResponse * dict * world) :=
  replicate 21 (Some sample_response, [], start).

Definition one_call_fails : list move :=
  (Go <$> seq 0 20) ++ (Go <$> seq 0 20) ++ [Fail 0; Go 0; Go 20; Go 20]%nat.

(** One feedback task whose gathering fails at the first completion. *)
Definition enter_fail_leave : list move := [Go 0; Go 0; Fail 0; Go 0]%nat.

(** ** Part II: theorems *)

(** *** The scoring functions *)

Section scoring_facts.
Variable upper : string → string.
Implicit Types (d predicted gold : dict) (l : list string) (x s : string).

Lemma flatten_inner_loop (f : string → string) (res v : list string) :
  foldl (λ res elt, res ++ [f elt]) res v = res ++ (f <$> v).
Proof.
  revert res. induction v as [|e v IH]; intros res; simpl.
  - by rewrite app_nil_r.
  - by rewrite IH, <-app_assoc.
Qed.

Lemma flatten_dict_entries d :
  Conll.flatten_dict upper d = spec_entries upper d.
Proof.
  unfold Conll.flatten_dict.
  cut (∀ res, foldl (λ res '(k, v),
           foldl (λ res elt, res ++ ["__" +:+ upper k +:+ "__::" +:+ elt]) res v)
        res d = res ++ spec_entries upper d).
  { intros H. by rewrite H. }
  induction d as [|[k v] d IH]; intros res; simpl.
  - by rewrite app_nil_r.
  - rewrite IH, flatten_inner_loop, <-app_assoc. done.
Qed.

Lemma Counter_snoc l x :
  Conll.Counter (l ++ [x]) =
  <[x := Conll.get (Conll.Counter l) x 0 + 1]> (Conll.Counter l).
Proof. unfold Conll.Counter. by rewrite foldl_app. Qed.

Lemma multiplicity_in_snoc x y l :
  multiplicity_in x (l ++ [y]) =
  (multiplicity_in x l + (if decide (x = y) then 1 else 0))%nat.
Proof.
  unfold multiplicity_in. rewrite filter_app, length_app. f_equal.
  rewrite filter_cons, filter_nil. by destruct (decide (x = y)).
Qed.

(** A [Counter] holds the multiplicity of every element, and nothing else. *)
Lemma get_Counter l x :
  Conll.get (Conll.Counter l) x 0 = Z.of_nat (multiplicity_in x l).
Proof.
  induction l as [|y l IH] using rev_ind; [done|].
  rewrite Counter_snoc, multiplicity_in_snoc. unfold Conll.get in *.
  destruct (decide (x = y)) as [->|Hne].
  - rewrite lookup_insert_eq. simpl. lia.
  - rewrite lookup_insert_ne by done. lia.
Qed.

Lemma jaccard_loop_acc (tc pc : gmap string Z) keys num den :
  foldl (λ '(num, den) key,
           (num + Z.min (Conll.get tc key 0) (Conll.get pc key 0),
            den + Z.max (Conll.get tc key 0) (Conll.get pc key 0)))
        (num, den) keys =
  (num + foldr (λ key acc, Z.min (Conll.get tc key 0) (Conll.get pc key 0) + acc) 0 keys,
   den + foldr (λ key acc, Z.max (Conll.get tc key 0) (Conll.get pc key 0) + acc) 0 keys).
Proof.
  revert num den. induction keys as [|k keys IH]; intros num den; simpl.
  - f_equal; lia.
  - rewrite IH. f_equal; lia.
Qed.

Lemma jaccard_loop_sums t p keys :
  Conll.jaccard_loop (Conll.Counter t) (Conll.Counter p) keys =
  (Z.of_nat (sum_list_with
     (λ x, Nat.min (multiplicity_in x p) (multiplicity_in x t)) keys),
   Z.of_nat (sum_list_with
     (λ x, Nat.max (multiplicity_in x p) (multiplicity_in x t)) keys)).
Proof.
  unfold Conll.jaccard_loop. rewrite jaccard_loop_acc.
  f_equal; rewrite Z.add_0_l;
    (induction keys as [|k keys IH]; [done|]);
    simpl; rewrite IH, !get_Counter; lia.
Qed.

(** The sums do not depend on the order in which the key set is iterated. *)
Lemma jaccard_loop_order (tc pc : gmap string Z) keys keys' :
  keys ≡ₚ keys' →
  Conll.jaccard_loop tc pc keys = Conll.jaccard_loop tc pc keys'.
Proof.
  unfold Conll.jaccard_loop. rewrite !jaccard_loop_acc.
  induction 1 as [|k ks ks' _ IH|k k' ks|ks ks' ks'' _ IH1 _ IH2]; simpl.
  - done.
  - injection IH as IH1 IH2. f_equal; lia.
  - f_equal; lia.
  - congruence.
Qed.

Lemma all_keys_order t p :
  elements (list_to_set t ∪ list_to_set p : gset string) ≡ₚ remove_dups (p ++ t).
Proof.
  apply NoDup_Permutation.
  - apply NoDup_elements.
  - apply NoDup_remove_dups.
  - intros x.
    rewrite elem_of_elements, elem_of_remove_dups, elem_of_union,
      !elem_of_list_to_set, elem_of_app.
    tauto.
Qed.

Lemma jaccard_counts predicted gold :
  Conll.jaccard_loop (Conll.Counter (Conll.flatten_dict upper gold))
    (Conll.Counter (Conll.flatten_dict upper predicted))
    (elements (list_to_set (Conll.flatten_dict upper gold) ∪
               list_to_set (Conll.flatten_dict upper predicted) : gset string)) =
  (Z.of_nat (spec_sum_min upper predicted gold),
   Z.of_nat (spec_sum_max upper predicted gold)).
Proof.
  rewrite (jaccard_loop_order _ _ _ _ (all_keys_order _ _)).
  rewrite jaccard_loop_sums, !flatten_dict_entries. done.
Qed.

(** C1. For all dictionaries [predicted] and [gold], [jaccard_similarity]
    is the sum, over the keys in the union of the two flattened entry
    multisets, of the minimum of the two multiplicities, divided by the sum
    of the maxima (and 1 when that denominator is 0); a key is
    "__" + uppercased category + "__::" + value. *)
Theorem jaccard_similarity_min_over_max predicted gold :
  Conll.jaccard_similarity upper predicted gold = spec_jaccard upper predicted gold.
Proof.
  unfold Conll.jaccard_similarity, spec_jaccard.
  rewrite jaccard_counts.
  destruct (decide (spec_sum_max upper predicted gold = 0%nat)) as [H0|Hpos].
  - rewrite H0. done.
  - rewrite bool_decide_eq_false_2 by lia. done.
Qed.

Lemma elem_of_spec_entries d s :
  s ∈ spec_entries upper d ↔ spec_entry_of upper d s.
Proof.
  unfold spec_entries, spec_entry_of. rewrite list_elem_of_bind. split.
  - intros ([k v] & Hs & Hd). apply list_elem_of_fmap in Hs as (e & -> & He).
    by exists k, v, e.
  - intros (k & v & e & Hd & He & ->). exists (k, v). split; [|done].
    apply list_elem_of_fmap. by exists e.
Qed.

(** C2. [exact_match predicted gold] is [True] exactly when the set of
    tagged entries of [predicted] equals the set of tagged entries of [gold],
    an entry being "__" + uppercased category + "__::" + value. *)
Theorem exact_match_iff_set_equal predicted gold :
  Conll.exact_match upper predicted gold = true ↔
  ∀ s, spec_entry_of upper predicted s ↔ spec_entry_of upper gold s.
Proof.
  unfold Conll.exact_match. rewrite bool_decide_eq_true, set_eq.
  rewrite !flatten_dict_entries.
  split; intros H s; specialize (H s).
  - by rewrite !elem_of_list_to_set, !elem_of_spec_entries in H.
  - by rewrite !elem_of_list_to_set, !elem_of_spec_entries.
Qed.

(** C3. When both dictionaries flatten to no entries, the denominator is 0
    and [jaccard_similarity] returns 1. *)
Theorem jaccard_similarity_no_entries predicted gold :
  Conll.flatten_dict upper predicted = [] →
  Conll.flatten_dict upper gold = [] →
  Conll.jaccard_similarity upper predicted gold = 1%Qc.
Proof.
  intros Hp Hg. unfold Conll.jaccard_similarity. rewrite Hp, Hg. simpl.
  rewrite (left_id_L ∅ (∪)), elements_empty. done.
Qed.

(** The denominator vanishes in no other case. *)
Lemma spec_sum_max_zero predicted gold :
  spec_sum_max upper predicted gold = 0%nat ↔
  spec_entries upper predicted = [] ∧ spec_entries upper gold = [].
Proof.
  unfold spec_sum_max, spec_keys. split.
  - intros H0.
    destruct (spec_entries upper predicted ++ spec_entries upper gold)
      as [|x l] eqn:Happ.
    { by apply app_eq_nil in Happ. }
    exfalso.
    assert (Hx : x ∈ remove_dups (x :: l)) by (apply elem_of_remove_dups; left).
    apply sum_list_with_in with (f := λ x,
      Nat.max (multiplicity_in x (spec_entries upper predicted))
              (multiplicity_in x (spec_entries upper gold))) in Hx.
    rewrite H0 in Hx.
    assert (Hin : x ∈ spec_entries upper predicted ++ spec_entries upper gold)
      by (rewrite Happ; left).
    assert (Hpos : ∀ l', x ∈ l' → (0 < multiplicity_in x l')%nat).
    { intros l' Hl'. unfold multiplicity_in.
      assert (x ∈ filter (x =.) l') as Hf by (by apply list_elem_of_filter).
      destruct (filter (x =.) l'); [by apply elem_of_nil in Hf|simpl; lia]. }
    apply elem_of_app in Hin as [Hin|Hin]; apply Hpos in Hin; lia.
  - intros [-> ->]. done.
Qed.

(** C9. A present response whose parsed output is the empty dictionary is
    scored valid_json = True, matched = False, jaccard = 0, whatever the gold
    data, the empty gold data included: the empty dictionary is falsy in
    both [if predicted] guards, so neither scoring function runs. *)
Theorem evaluate_empty_prediction (response : Conll.InferenceResponse) gold :
  Conll.parsed (Conll.output response) = Some [] →
  Conll.evaluate upper (Some response) gold = (true, false, 0%Qc).
Proof. intros H. unfold Conll.evaluate. rewrite H. done. Qed.

Lemma spec_entries_cons k v d :
  spec_entries upper ((k, v) :: d) = (spec_key upper k <$> v) ++ spec_entries upper d.
Proof. done. Qed.

Lemma spec_entries_del k v d :
  dict_get k d = Some v →
  spec_entries upper d ≡ₚ (spec_key upper k <$> v) ++ spec_entries upper (dict_del k d).
Proof.
  induction d as [|[k0 v0] d IH]; cbn [dict_get dict_del]; [done|].
  destruct (decide (k0 = k)) as [->|Hne]; intros Hget.
  - injection Hget as ->. by rewrite spec_entries_cons.
  - rewrite !spec_entries_cons, (IH Hget).
    rewrite !app_assoc. f_equiv. apply Permutation_app_comm.
Qed.

Lemma spec_entries_setitem_merge k v d :
  spec_entries upper (dict_setitem k (default [] (dict_get k d) ++ v) d) ≡ₚ
  spec_entries upper d ++ (spec_key upper k <$> v).
Proof.
  induction d as [|[k0 v0] d IH]; cbn [dict_get dict_setitem default].
  - by rewrite spec_entries_cons, app_nil_r.
  - destruct (decide (k0 = k)) as [->|Hne]; cbn [default].
    + rewrite !spec_entries_cons, fmap_app, <-!app_assoc.
      f_equiv. apply Permutation_app_comm.
    + by rewrite !spec_entries_cons, IH, <-app_assoc.
Qed.

Lemma spec_key_same_case k k' e :
  upper k = upper k' → spec_key upper k e = spec_key upper k' e.
Proof. unfold spec_key. by intros ->. Qed.

Lemma flatten_dict_rename_key k k' d :
  upper k = upper k' →
  Conll.flatten_dict upper (rename_key k k' d) ≡ₚ Conll.flatten_dict upper d.
Proof.
  intros Hcase. rewrite !flatten_dict_entries. unfold rename_key.
  destruct (dict_get k d) as [v|] eqn:Hget; [|done].
  rewrite spec_entries_setitem_merge, (spec_entries_del k v d Hget).
  rewrite Permutation_app_comm.
  replace (spec_key upper k' <$> v) with (spec_key upper k <$> v); [done|].
  apply list_fmap_ext. intros _ e _. by apply spec_key_same_case.
Qed.

Lemma multiplicity_in_perm x l l' :
  l ≡ₚ l' → multiplicity_in x l = multiplicity_in x l'.
Proof. unfold multiplicity_in. by intros ->. Qed.

Lemma sum_list_with_perm (f : string → nat) l l' :
  l ≡ₚ l' → sum_list_with f l = sum_list_with f l'.
Proof.
  induction 1 as [|y ks ks' _ IH|y y' ks|ks ks' ks'' _ IH1 _ IH2]; simpl; lia.
Qed.

Lemma sum_list_with_pointwise (f g : string → nat) l :
  (∀ x, f x = g x) → sum_list_with f l = sum_list_with g l.
Proof. intros Hfg. induction l as [|y l IH]; simpl; [done|]. by rewrite Hfg, IH. Qed.

Lemma remove_dups_perm l l' : l ≡ₚ l' → remove_dups l ≡ₚ remove_dups l'.
Proof.
  intros Hp. apply NoDup_Permutation; [apply NoDup_remove_dups..|].
  intros y. by rewrite !elem_of_remove_dups, Hp.
Qed.

(** Both scores see their arguments only through the flattened entries up
    to reordering. *)
Lemma exact_match_perm p p' g g' :
  Conll.flatten_dict upper p ≡ₚ Conll.flatten_dict upper p' →
  Conll.flatten_dict upper g ≡ₚ Conll.flatten_dict upper g' →
  Conll.exact_match upper p g = Conll.exact_match upper p' g'.
Proof.
  intros Hp Hg. unfold Conll.exact_match.
  by rewrite (list_to_set_perm_L _ _ Hp), (list_to_set_perm_L _ _ Hg).
Qed.

Lemma jaccard_similarity_perm p p' g g' :
  Conll.flatten_dict upper p ≡ₚ Conll.flatten_dict upper p' →
  Conll.flatten_dict upper g ≡ₚ Conll.flatten_dict upper g' →
  Conll.jaccard_similarity upper p g = Conll.jaccard_similarity upper p' g'.
Proof.
  rewrite !flatten_dict_entries. intros Hp Hg.
  unfold Conll.jaccard_similarity. rewrite !jaccard_counts.
  assert (Hk : spec_keys upper p g ≡ₚ spec_keys upper p' g').
  { unfold spec_keys. apply remove_dups_perm. by rewrite Hp, Hg. }
  assert (spec_sum_min upper p g = spec_sum_min upper p' g') as ->.
  { unfold spec_sum_min. rewrite (sum_list_with_perm _ _ _ Hk).
    apply sum_list_with_pointwise. intros x.
    by rewrite (multiplicity_in_perm x _ _ Hp), (multiplicity_in_perm x _ _ Hg). }
  assert (spec_sum_max upper p g = spec_sum_max upper p' g') as ->.
  { unfold spec_sum_max. rewrite (sum_list_with_perm _ _ _ Hk).
    apply sum_list_with_pointwise. intros x.
    by rewrite (multiplicity_in_perm x _ _ Hp), (multiplicity_in_perm x _ _ Hg). }
  done.
Qed.

(** C10. Category keys that differ only in letter case are not told apart:
    moving the entry of [k] to a key [k'] with the same uppercase form
    (merging with the list of [k'] when it is already a key) leaves the output
    of [flatten_dict] the same up to reordering, and the results of
    [exact_match] and [jaccard_similarity] unchanged, in either argument
    position and for any other argument. *)
Theorem scores_ignore_category_case (d other : dict) (k k' : string) :
  upper k = upper k' →
  Conll.flatten_dict upper (rename_key k k' d) ≡ₚ Conll.flatten_dict upper d ∧
  Conll.exact_match upper (rename_key k k' d) other =
    Conll.exact_match upper d other ∧
  Conll.exact_match upper other (rename_key k k' d) =
    Conll.exact_match upper other d ∧
  Conll.jaccard_similarity upper (rename_key k k' d) other =
    Conll.jaccard_similarity upper d other ∧
  Conll.jaccard_similarity upper other (rename_key k k' d) =
    Conll.jaccard_similarity upper other d.
Proof.
  intros Hcase. pose proof (flatten_dict_rename_key k k' d Hcase) as Hp.
  repeat split;
    [done|by apply exact_match_perm..|by apply jaccard_similarity_perm
    |by apply jaccard_similarity_perm].
Qed.

End scoring_facts.

Example flatten_dict_ex :
  Conll.flatten_dict str_upper [("person", ["Ada"; "Bob"]); ("Loc", []); ("org", ["Acme"])]
  = ["__PERSON__::Ada"; "__PERSON__::Bob"; "__ORG__::Acme"].
Proof. reflexivity. Qed.

Example exact_match_ex :
  Conll.exact_match str_upper [("per", ["a"; "b"])] [("PER", ["b"; "a"; "a"])] = true.
Proof. vm_compute. reflexivity. Qed.

Example jaccard_ex :
  Conll.jaccard_similarity str_upper [("per", ["a"; "b"])] [("PER", ["b"; "a"; "a"]); ("loc", ["x"])]
  = Q2Qc (2 # 4).
Proof. vm_compute. reflexivity. Qed.

Lemma scores_ignore_category_case_witness :
  str_upper "per" = str_upper "PER" ∧
  Conll.flatten_dict str_upper
    (rename_key "per" "PER" [("per", ["Ada"]); ("PER", ["Bob"])]) ≡ₚ
  Conll.flatten_dict str_upper [("per", ["Ada"]); ("PER", ["Bob"])].
Proof.
  split; [reflexivity|].
  apply (scores_ignore_category_case str_upper
           [("per", ["Ada"]); ("PER", ["Bob"])] [] "per" "PER" eq_refl).
Defined.

Lemma jaccard_similarity_no_entries_witness :
  Conll.jaccard_similarity str_upper [("per", []); ("loc", [])] [] = 1%Qc.
Proof. apply (jaccard_similarity_no_entries str_upper); reflexivity. Defined.

Lemma evaluate_empty_prediction_witness :
  Conll.evaluate str_upper
    (Some {| Conll.inference_id := 7%N; Conll.episode_id := 8%N;
             Conll.variant_name := "gpt_4o_mini";
             Conll.output := {| Conll.raw := "{}"; Conll.parsed := Some [] |} |})
    [] = (true, false, 0%Qc).
Proof. apply (evaluate_empty_prediction str_upper); reflexivity. Defined.

(** *** More on the scoring functions *)

(** Ratios of two counts. *)
Lemma Qc_of_nat_pos (d : nat) : (0 < d)%nat → (0 < Qc_of_Z (Z.of_nat d))%Qc.
Proof. intros Hd. rewrite <-Z2Qc_inj_0, <-Z2Qc_inj_lt. lia. Qed.

Lemma Qc_ratio_le (n d : nat) (q : Qc) :
  (0 < d)%nat →
  (q ≤ Qc_of_Z (Z.of_nat n) / Qc_of_Z (Z.of_nat d))%Qc ↔
  (Qc_of_Z (Z.of_nat d) * q ≤ Qc_of_Z (Z.of_nat n))%Qc.
Proof.
  intros Hd. pose proof (Qc_of_nat_pos d Hd) as Hpos.
  rewrite (Qcmult_le_mono_pos_l _ _ _ Hpos), Qcmult_div_r; [done|].
  by apply not_symmetry, Qclt_not_eq.
Qed.

Lemma Qc_ratio_ge (n d : nat) (q : Qc) :
  (0 < d)%nat →
  (Qc_of_Z (Z.of_nat n) / Qc_of_Z (Z.of_nat d) ≤ q)%Qc ↔
  (Qc_of_Z (Z.of_nat n) ≤ Qc_of_Z (Z.of_nat d) * q)%Qc.
Proof.
  intros Hd. pose proof (Qc_of_nat_pos d Hd) as Hpos.
  rewrite (Qcmult_le_mono_pos_l _ _ _ Hpos), Qcmult_div_r; [done|].
  by apply not_symmetry, Qclt_not_eq.
Qed.

Lemma Qc_ratio_range (n d : nat) :
  (0 < d)%nat → (n ≤ d)%nat →
  (0 ≤ Qc_of_Z (Z.of_nat n) / Qc_of_Z (Z.of_nat d) ≤ 1)%Qc.
Proof.
  intros Hd Hn. split.
  - apply Qc_ratio_le; [done|]. rewrite Qcmult_0_r, <-Z2Qc_inj_0, <-Z2Qc_inj_le. lia.
  - apply Qc_ratio_ge; [done|]. rewrite Qcmult_1_r, <-Z2Qc_inj_le. lia.
Qed.

Lemma Qc_ratio_eq (n d m : nat) :
  (0 < d)%nat →
  (Qc_of_Z (Z.of_nat n) / Qc_of_Z (Z.of_nat d))%Qc = Qc_of_Z (Z.of_nat m) ↔
  n = (d * m)%nat.
Proof.
  intros Hd. pose proof (Qc_of_nat_pos d Hd) as Hpos.
  assert (Qc_of_Z (Z.of_nat d) ≠ 0%Qc) as Hne by (by apply not_symmetry, Qclt_not_eq).
  split.
  - intros Heq.
    assert (Qc_of_Z (Z.of_nat n) = Qc_of_Z (Z.of_nat d) * Qc_of_Z (Z.of_nat m))%Qc as H.
    { by rewrite <-Heq, Qcmult_div_r. }
    rewrite <-Z2Qc_inj_mul in H. apply Z2Qc_inj in H. lia.
  - intros ->. rewrite Nat2Z.inj_mul, Z2Qc_inj_mul.
    rewrite (Qcmult_comm (Qc_of_Z (Z.of_nat d))). by apply Qcdiv_mult_l.
Qed.

Section scoring_more.
Variable upper : string → string.
Implicit Types (d predicted gold : dict) (l : list string) (x : string).

Lemma sum_min_le_max predicted gold :
  (spec_sum_min upper predicted gold ≤ spec_sum_max upper predicted gold)%nat.
Proof.
  unfold spec_sum_min, spec_sum_max.
  induction (spec_keys upper predicted gold) as [|x l IH]; simpl; lia.
Qed.

(** The value of [jaccard_similarity], by cases on the denominator. *)
Lemma jaccard_similarity_cases predicted gold :
  (spec_sum_max upper predicted gold = 0%nat ∧
   Conll.jaccard_similarity upper predicted gold = 1%Qc) ∨
  ((0 < spec_sum_max upper predicted gold)%nat ∧
   Conll.jaccard_similarity upper predicted gold =
     (Qc_of_Z (Z.of_nat (spec_sum_min upper predicted gold)) /
      Qc_of_Z (Z.of_nat (spec_sum_max upper predicted gold)))%Qc).
Proof.
  unfold Conll.jaccard_similarity. rewrite jaccard_counts.
  destruct (decide (spec_sum_max upper predicted gold = 0%nat)) as [H0|Hpos].
  - left. rewrite H0. done.
  - right. rewrite bool_decide_eq_false_2 by lia. split; [lia|done].
Qed.

(** X1. [jaccard_similarity] is always between 0 and 1. *)
Theorem jaccard_similarity_range predicted gold :
  (0 ≤ Conll.jaccard_similarity upper predicted gold ≤ 1)%Qc.
Proof.
  destruct (jaccard_similarity_cases predicted gold) as [[_ ->]|[Hpos ->]].
  - split; discriminate.
  - apply Qc_ratio_range; [done|apply sum_min_le_max].
Qed.

Lemma multiplicity_in_count x l :
  multiplicity_in x l = count_occ String.string_dec l x.
Proof.
  unfold multiplicity_in. induction l as [|y l IH]; [done|].
  rewrite filter_cons. simpl.
  destruct (decide (x = y)) as [->|Hne].
  - destruct (String.string_dec y y); [simpl; by rewrite IH|done].
  - destruct (String.string_dec y x); [by subst|done].
Qed.

Lemma multiplicity_in_pos x l : (0 < multiplicity_in x l)%nat ↔ x ∈ l.
Proof.
  rewrite multiplicity_in_count, list_elem_of_In.
  rewrite (count_occ_In String.string_dec). unfold gt. done.
Qed.

Lemma same_multiplicities l l' :
  (∀ x, multiplicity_in x l = multiplicity_in x l') ↔ l ≡ₚ l'.
Proof.
  rewrite (Permutation_count_occ String.string_dec).
  split; intros H x; specialize (H x); by rewrite ?multiplicity_in_count in *.
Qed.

Lemma sum_list_with_eq_pointwise (f g : string → nat) l :
  (∀ x, f x ≤ g x)%nat →
  sum_list_with f l = sum_list_with g l ↔ ∀ x, x ∈ l → f x = g x.
Proof.
  intros Hle. induction l as [|y l IH]; simpl.
  - split; [by intros _ x ?%elem_of_nil|done].
  - assert (sum_list_with f l ≤ sum_list_with g l)%nat as Hsum.
    { clear IH. induction l as [|z l IH]; simpl; [done|]. specialize (Hle z). lia. }
    pose proof (Hle y). split.
    + intros Heq x [->|Hx]%elem_of_cons; [lia|]. apply IH; [lia|done].
    + intros Hall. rewrite (Hall y) by left.
      f_equal. apply IH. intros x Hx. apply Hall. by right.
Qed.

Lemma sum_list_with_zero (f : string → nat) l :
  sum_list_with f l = 0%nat ↔ ∀ x, x ∈ l → f x = 0%nat.
Proof.
  induction l as [|y l IH]; simpl.
  - split; [by intros _ x ?%elem_of_nil|done].
  - split.
    + intros Heq x [->|Hx]%elem_of_cons; [lia|]. apply IH; [lia|done].
    + intros Hall. rewrite (Hall y) by left. apply IH. intros x Hx. apply Hall. by right.
Qed.

Lemma elem_of_spec_keys predicted gold x :
  x ∈ spec_keys upper predicted gold ↔
  x ∈ spec_entries upper predicted ∨ x ∈ spec_entries upper gold.
Proof. unfold spec_keys. by rewrite elem_of_remove_dups, elem_of_app. Qed.

Lemma sums_equal_iff predicted gold :
  spec_sum_min upper predicted gold = spec_sum_max upper predicted gold ↔
  spec_entries upper predicted ≡ₚ spec_entries upper gold.
Proof.
  unfold spec_sum_min, spec_sum_max.
  rewrite sum_list_with_eq_pointwise by (intros x; lia).
  rewrite <-same_multiplicities. split.
  - intros Hkeys x.
    destruct (decide (x ∈ spec_keys upper predicted gold)) as [Hin|Hout].
    + specialize (Hkeys x Hin). lia.
    + rewrite elem_of_spec_keys in Hout.
      assert (¬ (0 < multiplicity_in x (spec_entries upper predicted))%nat)
        by (rewrite multiplicity_in_pos; tauto).
      assert (¬ (0 < multiplicity_in x (spec_entries upper gold))%nat)
        by (rewrite multiplicity_in_pos; tauto).
      lia.
  - intros Hall x _. rewrite (Hall x). lia.
Qed.

Lemma jaccard_one_iff_entries predicted gold :
  Conll.jaccard_similarity upper predicted gold = 1%Qc ↔
  spec_entries upper predicted ≡ₚ spec_entries upper gold.
Proof.
  destruct (jaccard_similarity_cases predicted gold) as [[H0 ->]|[Hpos ->]].
  - apply spec_sum_max_zero in H0 as [-> ->]. done.
  - rewrite <-sums_equal_iff, <-Z2Qc_inj_1.
    change 1 with (Z.of_nat 1). rewrite Qc_ratio_eq by done. lia.
Qed.

Lemma spec_sums_comm predicted gold :
  spec_sum_min upper predicted gold = spec_sum_min upper gold predicted ∧
  spec_sum_max upper predicted gold = spec_sum_max upper gold predicted.
Proof.
  assert (spec_keys upper predicted gold ≡ₚ spec_keys upper gold predicted) as Hk.
  { unfold spec_keys. apply remove_dups_perm, Permutation_app_comm. }
  unfold spec_sum_min, spec_sum_max.
  rewrite !(sum_list_with_perm _ _ _ Hk). split.
  - apply sum_list_with_pointwise. intros x. lia.
  - apply sum_list_with_pointwise. intros x. lia.
Qed.

(** X2. Both scores are symmetric in their two arguments. *)
Theorem scores_symmetric predicted gold :
  Conll.exact_match upper predicted gold = Conll.exact_match upper gold predicted ∧
  Conll.jaccard_similarity upper predicted gold =
    Conll.jaccard_similarity upper gold predicted.
Proof.
  split.
  - unfold Conll.exact_match. apply bool_decide_ext. split; by intros ->.
  - unfold Conll.jaccard_similarity. rewrite !jaccard_counts.
    destruct (spec_sums_comm predicted gold) as [-> ->]. done.
Qed.

(** X3. [jaccard_similarity] is 1 exactly when the two dictionaries flatten
    to the same entries with the same repetitions, in any order; and then
    [exact_match] holds as well. *)
Theorem jaccard_one_iff_same_entries predicted gold :
  (Conll.jaccard_similarity upper predicted gold = 1%Qc ↔
   Conll.flatten_dict upper predicted ≡ₚ Conll.flatten_dict upper gold) ∧
  (Conll.jaccard_similarity upper predicted gold = 1%Qc →
   Conll.exact_match upper predicted gold = true).
Proof.
  rewrite !flatten_dict_entries. split; [apply jaccard_one_iff_entries|].
  intros Hperm%jaccard_one_iff_entries.
  unfold Conll.exact_match. rewrite !flatten_dict_entries.
  apply bool_decide_eq_true. by apply list_to_set_perm_L.
Qed.

(** X4. [jaccard_similarity] is 0 exactly when the two dictionaries have
    entries but none in common. *)
Theorem jaccard_zero_iff_disjoint predicted gold :
  Conll.jaccard_similarity upper predicted gold = 0%Qc ↔
  (Conll.flatten_dict upper predicted ++ Conll.flatten_dict upper gold ≠ []) ∧
  ∀ x, ¬ (x ∈ Conll.flatten_dict upper predicted ∧
          x ∈ Conll.flatten_dict upper gold).
Proof.
  rewrite !flatten_dict_entries.
  destruct (jaccard_similarity_cases predicted gold) as [[H0 ->]|[Hpos ->]].
  - apply spec_sum_max_zero in H0 as [-> ->]. split; [done|by intros [? _]].
  - rewrite <-Z2Qc_inj_0. change 0 with (Z.of_nat 0) at 1.
    rewrite Qc_ratio_eq by done. rewrite Nat.mul_0_r.
    assert (spec_entries upper predicted ++ spec_entries upper gold ≠ []) as Hne.
    { intros [Hp Hg]%app_eq_nil.
      assert (spec_sum_max upper predicted gold = 0%nat); [|lia].
      by apply spec_sum_max_zero. }
    unfold spec_sum_min. rewrite sum_list_with_zero. split.
    + intros Hkeys. split; [done|]. intros x [Hp Hg].
      assert (x ∈ spec_keys upper predicted gold) as Hk
        by (apply elem_of_spec_keys; by left).
      specialize (Hkeys x Hk).
      apply multiplicity_in_pos in Hp, Hg. lia.
    + intros [_ Hdisj] x _.
      destruct (decide (x ∈ spec_entries upper predicted)) as [Hp|Hp];
        destruct (decide (x ∈ spec_entries upper gold)) as [Hg|Hg].
      * by destruct (Hdisj x).
      * rewrite <-multiplicity_in_pos in Hg. lia.
      * rewrite <-multiplicity_in_pos in Hp. lia.
      * rewrite <-multiplicity_in_pos in Hp. lia.
Qed.

(** X5. Repeating an entity of the prediction leaves [exact_match] true but
    takes [jaccard_similarity] below 1: exact match compares sets, the
    Jaccard score counts repetitions. *)
Theorem repeated_entity_scores d (k e : string) (v : list string) :
  Conll.exact_match upper ((k, e :: e :: v) :: d) ((k, e :: v) :: d) = true ∧
  Conll.jaccard_similarity upper ((k, e :: e :: v) :: d) ((k, e :: v) :: d) ≠ 1%Qc.
Proof.
  split.
  - unfold Conll.exact_match. rewrite !flatten_dict_entries, !spec_entries_cons.
    apply bool_decide_eq_true. rewrite !fmap_cons. apply set_eq. intros x.
    rewrite !elem_of_list_to_set, !elem_of_app, !elem_of_cons. tauto.
  - rewrite jaccard_one_iff_entries, !spec_entries_cons, !fmap_cons.
    intros Hperm%Permutation_length. simpl in Hperm. lia.
Qed.

(** X6. [flatten_dict] keeps every entity value, category after category:
    it distributes over the concatenation of two dictionaries, and the number
    of entries is the total number of values. *)
Theorem flatten_dict_app_length (d1 d2 : dict) :
  Conll.flatten_dict upper (d1 ++ d2) =
    Conll.flatten_dict upper d1 ++ Conll.flatten_dict upper d2 ∧
  length (Conll.flatten_dict upper d1) =
    sum_list_with (λ kv : string * list string, length kv.2) d1.
Proof.
  rewrite !flatten_dict_entries. split.
  - unfold spec_entries. by rewrite bind_app.
  - induction d1 as [|[k v] d IH]; [done|].
    rewrite spec_entries_cons, length_app, length_fmap, IH. done.
Qed.

Lemma string_app_inj (prefix a b : string) : prefix +:+ a = prefix +:+ b → a = b.
Proof. induction prefix as [|c prefix IH]; simpl; [done|]. intros [= H]. by apply IH. Qed.

Lemma spec_key_inj_value k e e' :
  spec_key upper k e = spec_key upper k e' → e = e'.
Proof. unfold spec_key. by intros ?%string_app_inj%string_app_inj%string_app_inj. Qed.

(** X7. Within one category entity values are never conflated: two
    dictionaries with the same single category match exactly when their value
    lists hold the same values, whatever the order and the repetitions. *)
Theorem exact_match_single_category (k : string) (v v' : list string) :
  Conll.exact_match upper [(k, v)] [(k, v')] = true ↔ ∀ e, e ∈ v ↔ e ∈ v'.
Proof.
  unfold Conll.exact_match. rewrite bool_decide_eq_true, set_eq.
  rewrite !flatten_dict_entries, !spec_entries_cons.
  change (spec_entries upper []) with (@nil string). rewrite !app_nil_r.
  split.
  - intros H e. specialize (H (spec_key upper k e)).
    rewrite !elem_of_list_to_set, !list_elem_of_fmap in H. split; intros He.
    + destruct (proj1 H) as (e' & Heq & He'); [by exists e|].
      by apply spec_key_inj_value in Heq as ->.
    + destruct (proj2 H) as (e' & Heq & He'); [by exists e|].
      by apply spec_key_inj_value in Heq as ->.
  - intros H x. rewrite !elem_of_list_to_set, !list_elem_of_fmap.
    split; intros (e & -> & He); exists e; split; try done; by apply H.
Qed.

End scoring_more.

(** *** Retries and failures *)

Lemma events_of_trace {A} (m : M A) (w : world) evs :
  trace (m w).2 = trace w ++ evs → events_of m w = evs.
Proof. unfold events_of. intros ->. by rewrite drop_app_length. Qed.

Section retry_facts.
Context {R : Type}.
Variable gateway : nat → inference_request → outcome R.
Variable random : nat → Qc.
Variable wait_bound : nat → Qc.
Variable req : inference_request.

(** What a retried inference call does, for any number of allowed attempts:
    every sleep follows a failed attempt, and the loop ends at the first
    success or when the attempts are used up. *)
Lemma retry_from_inference remaining attempt_number w o w' :
  retry_from remaining attempt_number
    (λ n, random_uniform random 0%Qc (wait_bound n))
    (inference gateway req) w = (o, w') →
  ∃ sleeps : list Qc,
    (length sleeps ≤ remaining)%nat ∧
    trace w' = trace w ++ attempts_trace req sleeps ∧
    calls w' = (calls w + S (length sleeps))%nat ∧
    feedbacks w' = feedbacks w ∧
    (∀ k s, sleeps !! k = Some s →
       s = (0 + (wait_bound (attempt_number + k) - 0) * random (draws w + k))%Qc ∧
       ∃ e, gateway (calls w + k) req = Raise e) ∧
    match o with
    | Return r => gateway (calls w + length sleeps) req = Return r
    | Raise e' =>
        length sleeps = remaining ∧
        ∃ e, e' = RetryError e ∧ gateway (calls w + remaining) req = Raise e
    end.
Proof.
  revert attempt_number w.
  induction remaining as [|remaining IH]; intros attempt_number w; simpl;
    unfold try_except at 1; unfold inference at 1;
    destruct (gateway (calls w) req) as [r|e] eqn:Hg.
  - intros [= <- <-]. exists []. simpl. rewrite Nat.add_0_r.
    split_and!; try done; lia.
  - unfold raise. intros [= <- <-]. exists []. simpl. rewrite Nat.add_0_r.
    split_and!; try done; try lia. by exists e.
  - intros [= <- <-]. exists []. simpl. rewrite Nat.add_0_r.
    split_and!; try done; lia.
  - unfold bind, random_uniform, sleep, emit. simpl.
    set (w1 := {| calls := S (calls w) |}). intros Hrun.
    destruct (IH _ _ Hrun) as (sleeps & Hlen & Htr & Hcalls & Hfb & Hsl & Hout).
    exists ((0 + (wait_bound attempt_number - 0) * random (draws w))%Qc :: sleeps).
    simpl. split_and!.
    + lia.
    + rewrite Htr. unfold w1, attempts_trace. simpl. by rewrite <-!app_assoc.
    + rewrite Hcalls. unfold w1. simpl. lia.
    + by rewrite Hfb.
    + intros [|k] s Hk; simpl in Hk.
      * injection Hk as <-. rewrite !Nat.add_0_r. split; [done|by exists e].
      * apply Hsl in Hk as [-> [e' He']]. unfold w1 in *. simpl in *. split.
        -- repeat f_equal; lia.
        -- exists e'. rewrite <-He'. f_equal. lia.
    + destruct o as [r|e0].
      * rewrite <-Hout. unfold w1. simpl. f_equal. lia.
      * destruct Hout as (Hl & e' & -> & Hg'). split; [lia|]. exists e'.
        split; [done|]. rewrite <-Hg'. unfold w1. simpl. f_equal. lia.
Qed.

End retry_facts.

Lemma Qc_of_Z_nonneg z : 0 ≤ z → (0 ≤ Qc_of_Z z)%Qc.
Proof. intros Hz. by rewrite <-Z2Qc_inj_0, <-Z2Qc_inj_le. Qed.

Lemma wait_exponential_range multiplier max n :
  (0 ≤ max)%Qc →
  (0 ≤ wait_exponential multiplier max n ≤ max)%Qc.
Proof.
  intros Hmax. unfold wait_exponential, Qc_max, Qc_min.
  repeat case_decide; by split.
Qed.

Lemma wait_exponential_power max n :
  (wait_exponential (Qc_of_Z 1) max n ≤ Qc_of_Z (2 ^ Z.of_nat (n - 1)))%Qc.
Proof.
  unfold wait_exponential, Qc_max, Qc_min.
  rewrite Z2Qc_inj_1, Qcmult_1_l.
  assert (0 ≤ Qc_of_Z (2 ^ Z.of_nat (n - 1)))%Qc by (apply Qc_of_Z_nonneg; lia).
  repeat case_decide; try done.
  by apply Qclt_le_weak, Qclt_nge.
Qed.

(** Below the cap the bound of the wait is the power of two itself. *)
Lemma wait_exponential_below_cap max n :
  (Qc_of_Z (2 ^ Z.of_nat (n - 1)) ≤ max)%Qc →
  wait_exponential (Qc_of_Z 1) max n = Qc_of_Z (2 ^ Z.of_nat (n - 1)).
Proof.
  intros Hcap. unfold wait_exponential, Qc_max, Qc_min.
  rewrite Z2Qc_inj_1, Qcmult_1_l.
  assert (0 ≤ Qc_of_Z (2 ^ Z.of_nat (n - 1)))%Qc by (apply Qc_of_Z_nonneg; lia).
  by rewrite (decide_True (P := (Qc_of_Z _ ≤ max)%Qc)), decide_True.
Qed.

Lemma random_uniform_range b r :
  (0 ≤ b)%Qc → (0 ≤ r ≤ 1)%Qc → (0 ≤ 0 + (b - 0) * r ≤ b)%Qc.
Proof.
  intros Hb [Hr0 Hr1].
  replace (0 + (b - 0) * r)%Qc with (b * r)%Qc by ring. split.
  - replace 0%Qc with (b * 0)%Qc by ring. by apply Qcmult_le_mono_nonneg_l.
  - replace b with (b * 1)%Qc at 2 by ring. by apply Qcmult_le_mono_nonneg_l.
Qed.

Section conll_failures.
Variable gateway : nat → inference_request → outcome Conll.InferenceResponse.
Variable random : nat → Qc.
Implicit Types (text : string) (variant_name : option string) (dryrun : bool).

(** [get_entities] in terms of the run of [_get_entities]. *)
Lemma get_entities_run text variant_name dryrun w :
  Conll.get_entities gateway random text variant_name dryrun w =
  match Conll._get_entities gateway random text variant_name dryrun w with
  | (Return r, w') => (Return (Some r), w')
  | (Raise e, w') => (Return None, (print [Lit "Error: "; StrOf e] w').2)
  end.
Proof.
  unfold Conll.get_entities, try_except, bind.
  by destruct (Conll._get_entities _ _ _ _ _ w) as [[r|e] w'].
Qed.

(** [get_entities] never raises. *)
Lemma get_entities_returns text variant_name dryrun w :
  ∃ r w', Conll.get_entities gateway random text variant_name dryrun w = (Return r, w').
Proof.
  rewrite get_entities_run.
  destruct (Conll._get_entities _ _ _ _ _ w) as [[r|e] w']; eauto.
Qed.

(** C5. The retry policy wraps only the inference call: [_get_entities]
    makes at most 3 attempts at the same request and nothing else but a
    sleep between two attempts; the sleep after the attempt numbered k+1 is
    the random backoff 2^k * random(), a fresh draw each time, so between 0
    and 2^k, twice as long a range after the second failure as after the
    first, and never above the cap 10 (multiplier 1); and when every attempt
    fails there were two sleeps and a [RetryError] surfaces to
    [get_entities], which yields [None] - as it does in no other case. *)
Theorem get_entities_retry_policy text variant_name dryrun w :
  (∀ n, (0 ≤ random n ≤ 1)%Qc) →
  let req := InferenceRequest "extract_entities" (UserText text) variant_name dryrun None in
  ∃ sleeps : list Qc,
    (length sleeps ≤ 2)%nat ∧
    events_of (Conll._get_entities gateway random text variant_name dryrun) w =
      attempts_trace req sleeps ∧
    (∀ k s, sleeps !! k = Some s →
       s = (Qc_of_Z (2 ^ Z.of_nat k) * random (draws w + k))%Qc ∧
       (0 ≤ s ≤ Qc_of_Z 10)%Qc ∧ (s ≤ Qc_of_Z (2 ^ Z.of_nat k))%Qc ∧
       ∃ e, gateway (calls w + k) req = Raise e) ∧
    ((∀ k, (k < 3)%nat → ∃ e, gateway (calls w + k) req = Raise e) →
     length sleeps = 2%nat ∧
     ∃ e, (Conll._get_entities gateway random text variant_name dryrun w).1 =
            Raise (RetryError e) ∧
          gateway (calls w + 2) req = Raise e) ∧
    ((Conll.get_entities gateway random text variant_name dryrun w).1 = Return None ↔
     ∀ k, (k < 3)%nat → ∃ e, gateway (calls w + k) req = Raise e).
Proof.
  intros Hrandom req. rewrite get_entities_run.
  destruct (Conll._get_entities gateway random text variant_name dryrun w)
    as [o w'] eqn:Hrun.
  pose proof Hrun as Hrun'. unfold Conll._get_entities, retry in Hrun'.
  apply (retry_from_inference gateway random
           (wait_exponential (Qc_of_Z 1) (Qc_of_Z 10)) req) in Hrun'
    as (sleeps & Hlen & Htr & Hcalls & Hfb & Hsl & Hout).
  simpl in Hlen. fold req in Hout, Hsl.
  assert (Hfailed : ∀ k, (k < length sleeps)%nat →
            ∃ e, gateway (calls w + k) req = Raise e).
  { intros k Hk. destruct (lookup_lt_is_Some_2 sleeps k Hk) as [s Hs].
    by apply Hsl in Hs as [_ ?]. }
  exists sleeps. split_and!.
  - done.
  - apply events_of_trace. by rewrite Hrun.
  - intros k s Hk. pose proof (lookup_lt_Some _ _ _ Hk) as Hlt.
    apply Hsl in Hk as [-> Hfail].
    assert (0 ≤ Qc_of_Z 10)%Qc as H10 by (by apply Qc_of_Z_nonneg).
    pose proof (wait_exponential_range (Qc_of_Z 1) (Qc_of_Z 10) (1 + k) H10)
      as [Hlo Hhi].
    pose proof (random_uniform_range _ _ Hlo (Hrandom (draws w + k)%nat))
      as [Hs0 Hs1].
    pose proof (wait_exponential_power (Qc_of_Z 10) (1 + k)) as Hpow.
    pose proof (wait_exponential_below_cap (Qc_of_Z 10) (1 + k)) as Hexact.
    replace (1 + k - 1)%nat with k in Hpow, Hexact by lia.
    split_and!; [|done|by etrans|by etrans|done].
    rewrite Hexact; [ring|]. rewrite <-Z2Qc_inj_le.
    destruct k as [|[|k]]; simpl in *; lia.
  - intros Hall. destruct o as [r|e']; simpl.
    + destruct (Hall (length sleeps)) as [e He]; [lia|]. congruence.
    + destruct Hout as (Hl & e & -> & He). split; [done|]. by exists e.
  - destruct o as [r|e']; simpl; split.
    + done.
    + intros Hall. destruct (Hall (length sleeps)) as [e He]; [lia|]. congruence.
    + intros _ k Hk. destruct Hout as (Hl & e & -> & He).
      destruct (decide (k = 2%nat)) as [->|]; [by exists e|].
      apply Hfailed. simpl in Hl. lia.
    + done.
Qed.

End conll_failures.

(** With the gateway down and every draw at one half, the two sleeps last
    half a second and one second. *)
Lemma get_entities_retry_policy_witness :
  (∀ n, (0 ≤ one_half n ≤ 1)%Qc) ∧
  (Conll.get_entities timing_out one_half "hello" None false start).1 = Return None ∧
  events_of (Conll._get_entities timing_out one_half "hello" None false) start =
    attempts_trace
      (InferenceRequest "extract_entities" (UserText "hello") None false None)
      [Q2Qc (1 # 2); Qc_of_Z 1].
Proof.
  assert (Hhalf : ∀ n, (0 ≤ one_half n ≤ 1)%Qc) by (intros n; split; discriminate).
  split; [exact Hhalf|].
  destruct (get_entities_retry_policy timing_out one_half "hello" None false start Hhalf)
    as (sleeps & _ & Hevents & Hsleeps & Hall & Hnone).
  assert (∀ k, (k < 3)%nat →
            ∃ e, @timing_out Conll.InferenceResponse (calls start + k)
                   (InferenceRequest "extract_entities" (UserText "hello") None false None) =
                 Raise e) as Hdown by (intros k _; by eexists).
  split; [by apply Hnone|].
  destruct (Hall Hdown) as [Hlen _]. rewrite Hevents. f_equal.
  destruct sleeps as [|s0 [|s1 [|s2 sleeps]]]; try discriminate.
  destruct (Hsleeps 0%nat s0 eq_refl) as [-> _].
  destruct (Hsleeps 1%nat s1 eq_refl) as [-> _].
  repeat f_equal; apply Qc_is_canon; reflexivity.
Defined.

(** Completion of a batch: when no task raises, gathering returns. *)
Lemma as_completed_returns {A} (ifs : list (M A)) order w :
  (∀ f w, f ∈ ifs → ∃ a w', f w = (Return a, w')) →
  ∃ res w', as_completed order ifs w = (Return res, w').
Proof.
  intros Hifs. revert w. induction order as [|i order IH]; intros w; simpl.
  - by eexists _, _.
  - destruct (ifs !! i) as [f|] eqn:Hi; [|apply IH].
    destruct (Hifs f w) as (a & w1 & Hf); [by eapply list_elem_of_lookup_2|].
    destruct (IH w1) as (res & w2 & Hres).
    exists (a :: res), w2. unfold bind, ret. by rewrite Hf, Hres.
Qed.

Lemma tqdm_gather_returns {A} (fs : list (M A)) order w :
  (∀ f w, f ∈ fs → ∃ a w', f w = (Return a, w')) →
  ∃ rs w', tqdm_gather order fs w = (Return rs, w').
Proof.
  intros Hfs.
  destruct (as_completed_returns (imap wrap_awaitable fs) order w)
    as (res & w' & Hres).
  { intros f w0 Hf. apply list_elem_of_lookup_1 in Hf as [i Hi].
    rewrite list_lookup_imap in Hi.
    destruct (fs !! i) as [f0|] eqn:Hf0; [|done]. injection Hi as <-.
    destruct (Hfs f0 w0) as (a & w1 & Ha); [by eapply list_elem_of_lookup_2|].
    exists (i, a), w1. unfold wrap_awaitable, bind, ret. by rewrite Ha. }
  unfold tqdm_gather, bind, ret. rewrite Hres. by eexists _, _.
Qed.

Lemma async_with_semaphore_returns {A} (body : M A) w :
  (∀ w, ∃ a w', body w = (Return a, w')) →
  ∃ a w', async_with_semaphore body w = (Return a, w').
Proof.
  intros Hbody. unfold async_with_semaphore, bind, try_except, emit, ret. simpl.
  match goal with |- context [body ?w0] => destruct (Hbody w0) as (a & w1 & ->) end.
  by eexists _, _.
Qed.

(** C4. An inference call that raises is caught, logged and turned into
    [None]: [get_entities] returns [None], having printed the error, whenever
    [_get_entities] raises, and it never raises itself;
    [write_grade_haiku] returns [None], having printed the error, when its
    first inference call raises and when its second one does; and the
    training batch of the NER notebook always runs to completion, failures
    or not. *)
Theorem inference_failure_yields_none :
  (∀ gateway random text variant_name dryrun w e w',
     Conll._get_entities gateway random text variant_name dryrun w = (Raise e, w') →
     Conll.get_entities gateway random text variant_name dryrun w =
       (Return None, (print [Lit "Error: "; StrOf e] w').2)) ∧
  (∀ gateway random text variant_name dryrun w,
     ∃ r w', Conll.get_entities gateway random text variant_name dryrun w =
               (Return r, w')) ∧
  (∀ strip gateway topic w e,
     let req := InferenceRequest "write_haiku" (UserArguments [("topic", topic)])
                  None false None in
     gateway (calls w) req = Raise e →
     (Haiku.write_grade_haiku strip gateway topic w).1 = Return None ∧
     events_of (Haiku.write_grade_haiku strip gateway topic) w =
       [EvInference req; EvPrint [StrOf e]]) ∧
  (∀ strip gateway topic w inference_id episode_id variant_name t blocks e,
     let req := InferenceRequest "write_haiku" (UserArguments [("topic", topic)])
                  None false None in
     let haiku_text :=
       Haiku.join_lines (Haiku.last_three (Haiku.split_lines (strip t))) in
     let judge_req :=
       InferenceRequest "judge_haiku"
         (UserArguments [("topic", topic); ("haiku", haiku_text)])
         None false (Some episode_id) in
     gateway (calls w) req =
       Return (Haiku.ChatInferenceResponse inference_id episode_id variant_name
                 (Haiku.Text t :: blocks)) →
     gateway (S (calls w)) judge_req = Raise e →
     (Haiku.write_grade_haiku strip gateway topic w).1 = Return None ∧
     events_of (Haiku.write_grade_haiku strip gateway topic) w =
       [EvInference req; EvInference judge_req;
        EvPrint [Lit "Error occurred: "; TypeNameOf e; Lit ": "; StrOf e]]) ∧
  (∀ gateway random order train_input w,
     ∃ rs w', Conll.responses gateway random order train_input w = (Return rs, w')).
Proof.
  split_and!.
  - intros gateway random text variant_name dryrun w e w' Hrun.
    by rewrite get_entities_run, Hrun.
  - intros. apply get_entities_returns.
  - intros strip gateway topic w e req Hfail.
    unfold Haiku.write_grade_haiku, events_of, bind, try_except, inference, print,
      emit, ret.
    fold req. rewrite Hfail. simpl. split; [done|].
    by rewrite <-app_assoc, drop_app_length.
  - intros strip gateway topic w inference_id episode_id variant_name t blocks e
      req haiku_text judge_req Hok Hfail.
    unfold Haiku.write_grade_haiku, events_of, bind, try_except, inference, print,
      emit, ret, lift.
    fold req. rewrite Hok. simpl. fold haiku_text judge_req. rewrite Hfail. simpl.
    split; [done|]. by rewrite <-!app_assoc, drop_app_length.
  - intros gateway random order train_input w. unfold Conll.responses.
    apply tqdm_gather_returns. intros f w0 Hf.
    apply list_elem_of_fmap in Hf as (text & -> & _).
    apply async_with_semaphore_returns. intros w1. apply get_entities_returns.
Qed.

Lemma inference_failure_yields_none_witness :
  haiku_then_down 1%nat
    (InferenceRequest "judge_haiku"
       (UserArguments [("topic", "pond"); ("haiku", "An old silent pond")])
       None false (Some 2%N)) = Raise (PyError "TimeoutError" "timed out") ∧
  (Haiku.write_grade_haiku id haiku_then_down "pond" start).1 = Return None.
Proof.
  split; [reflexivity|].
  apply (proj1 (proj1 (proj2 (proj2 (proj2 inference_failure_yields_none)))
                  id haiku_then_down "pond" start 1%N 2%N "initial_prompt"
                  "An old silent pond" [] (PyError "TimeoutError" "timed out")
                  eq_refl eq_refl)).
Defined.

(** *** Gathering a batch *)

Section gather_facts.
Context {A : Type}.
Implicit Types (fs : list (M A)) (order : list nat).

Lemma as_completed_wrapped fs order w res w' :
  as_completed order (imap wrap_awaitable fs) w = (Return res, w') →
  res.*1 = filter (λ i, i < length fs)%nat order ∧
  Forall (λ ir, produced_by fs ir.1 ir.2) res.
Proof.
  revert w res. induction order as [|i order IH]; intros w res; simpl.
  - unfold ret. intros [= <- <-]. by split.
  - rewrite list_lookup_imap, filter_cons.
    destruct (fs !! i) as [f|] eqn:Hi; simpl.
    + apply lookup_lt_Some in Hi as Hlt. rewrite decide_True by done.
      unfold bind at 1. unfold wrap_awaitable at 1. unfold bind at 1.
      destruct (f w) as [[a|e] w1] eqn:Hf; [|done]. unfold ret at 1.
      unfold bind at 1.
      destruct (as_completed order _ w1) as [[rest|e] w2] eqn:Hrest; [|done].
      unfold ret. intros [= <- <-].
      destruct (IH _ _ Hrest) as [Hfst Hall]. split.
      * by rewrite fmap_cons, Hfst.
      * constructor; [|done]. by exists f, w, w1.
    + apply lookup_ge_None in Hi. rewrite decide_False by lia. apply IH.
Qed.

Global Instance position_le_total : Total (@position_le A).
Proof. intros x y. unfold position_le. lia. Qed.

Global Instance position_le_trans : Transitive (@position_le A).
Proof. intros x y z. unfold position_le. lia. Qed.

Lemma filter_all {B} (P : B → Prop) `{∀ x, Decision (P x)} (l : list B) :
  (∀ x, x ∈ l → P x) → filter P l = l.
Proof.
  induction l as [|x l IH]; intros HP; [done|].
  rewrite filter_cons_True by (apply HP; left).
  f_equal. apply IH. intros y Hy. apply HP. by right.
Qed.

Lemma Sorted_le_seq j n : Sorted le (seq j n).
Proof.
  revert j. induction n as [|n IH]; intros j; simpl; constructor; [apply IH|].
  destruct n; simpl; constructor. lia.
Qed.

Lemma sorted_positions (l : list (nat * A)) n :
  Sorted position_le l → l.*1 ≡ₚ seq 0 n → l.*1 = seq 0 n.
Proof.
  intros Hsorted Hperm.
  apply (Sorted_unique le); [| |done].
  - eapply (Sorted_fmap fst position_le le); [|done]. by intros x y.
  - apply Sorted_le_seq.
Qed.

(** Gathering puts every result at the position of the task that produced
    it. *)
Lemma tqdm_gather_positions fs order w rs w' :
  order ≡ₚ seq 0 (length fs) →
  tqdm_gather order fs w = (Return rs, w') →
  length rs = length fs ∧
  ∀ i r, rs !! i = Some r → produced_by fs i r.
Proof.
  intros Horder. unfold tqdm_gather, bind at 1.
  destruct (as_completed order _ w) as [[res|e] w1] eqn:Hres; [|done].
  unfold ret. intros [= <- <-].
  destruct (as_completed_wrapped _ _ _ _ _ Hres) as [Hfst Hall].
  assert (Hin : filter (λ i, i < length fs)%nat order = order).
  { apply filter_all. intros i Hi. rewrite Horder in Hi.
    apply elem_of_seq in Hi. lia. }
  rewrite Hin in Hfst.
  set (sorted := merge_sort position_le res).
  assert (Hperm : sorted ≡ₚ res) by apply merge_sort_Permutation.
  assert (Hpos : sorted.*1 = seq 0 (length fs)).
  { apply sorted_positions; [apply Sorted_merge_sort, _|].
    by rewrite Hperm, Hfst. }
  split.
  - by rewrite length_fmap, <-(length_fmap fst sorted), Hpos, length_seq.
  - intros i r Hi. apply list_lookup_fmap_Some in Hi as ([i' r'] & -> & Hir).
    simpl. assert (sorted.*1 !! i = Some i') as Hi'.
    { by rewrite list_lookup_fmap, Hir. }
    rewrite Hpos in Hi'. apply lookup_seq in Hi' as [-> _]. simpl.
    assert ((i, r') ∈ res) as Hmem.
    { rewrite <-Hperm. by eapply list_elem_of_lookup_2. }
    by apply (proj1 (Forall_forall _ _) Hall) in Hmem.
Qed.
End gather_facts.

Lemma tqdm_gather_map {T A} (task : T → M A) (inputs : list T) order w rs w' :
  order ≡ₚ seq 0 (length inputs) →
  tqdm_gather order (task <$> inputs) w = (Return rs, w') →
  length rs = length inputs ∧
  ∀ i r, rs !! i = Some r →
    ∃ x wi wi', inputs !! i = Some x ∧ task x wi = (Return r, wi').
Proof.
  intros Horder Hrun.
  destruct (tqdm_gather_positions (task <$> inputs) order w rs w') as [Hlen Hpos];
    [by rewrite length_fmap|done|].
  rewrite length_fmap in Hlen. split; [done|].
  intros i r Hi. destruct (Hpos i r Hi) as (f & wi & wi' & Hf & Hrun').
  apply list_lookup_fmap_Some in Hf as (x & -> & Hx). by exists x, wi, wi'.
Qed.

Lemma zip_lookup_Some {B C} (l : list B) (k : list C) i x y :
  zip l k !! i = Some (x, y) ↔ l !! i = Some x ∧ k !! i = Some y.
Proof.
  revert k i. induction l as [|b l IH]; intros [|c k] [|i]; simpl;
    try (split; [done|intros [? ?]; done]).
  - split; [by intros [= -> ->]|by intros [[= ->] [= ->]]].
  - apply IH.
Qed.

(** C6. The gathered results have exactly one entry per input, in the
    order of the inputs, whatever the order in which the tasks complete: the
    entry at position i was returned by the task made for the i-th input, so
    zipping the results with the gold outputs of the same slice pairs every
    response (or [None]) with the gold label of its own text. The two
    fan-outs of the NER notebook always produce their list; the fan-out of
    the haiku notebook produces it unless a task raises. *)
Theorem gathered_results_positional :
  (∀ gateway random order (train_input : list string) (train_output : list dict) w,
     order ≡ₚ seq 0 (length (take Conll.NUM_TRAIN_PREDICTIONS train_input)) →
     ∃ rs w',
       Conll.responses gateway random order train_input w = (Return rs, w') ∧
       length rs = length (take Conll.NUM_TRAIN_PREDICTIONS train_input) ∧
       ∀ i response gold,
         zip rs (take Conll.NUM_TRAIN_PREDICTIONS train_output) !! i =
           Some (response, gold) →
         ∃ text wi wi',
           train_input !! i = Some text ∧ train_output !! i = Some gold ∧
           Conll.make_inference gateway random text wi = (Return response, wi')) ∧
  (∀ gateway random order variant_name (test_input : list string)
     (test_output : list dict) w,
     order ≡ₚ seq 0 (length (take Conll.NUM_TEST_PREDICTIONS test_input)) →
     ∃ rs w',
       Conll.variant_result gateway random order variant_name test_input w =
         (Return rs, w') ∧
       length rs = length (take Conll.NUM_TEST_PREDICTIONS test_input) ∧
       ∀ i response gold,
         zip rs (take Conll.NUM_TEST_PREDICTIONS test_output) !! i =
           Some (response, gold) →
         ∃ text wi wi',
           test_input !! i = Some text ∧ test_output !! i = Some gold ∧
           Conll.make_inference_dryrun gateway random text (Some variant_name) wi =
             (Return response, wi')) ∧
  (∀ strip gateway order (nouns : list string) w rs w',
     order ≡ₚ seq 0 (length (take Haiku.num_requests nouns)) →
     Haiku.results strip gateway order nouns w = (Return rs, w') →
     length rs = length (take Haiku.num_requests nouns) ∧
     ∀ i result, rs !! i = Some result →
       ∃ noun wi wi',
         nouns !! i = Some noun ∧
         Haiku.ratelimited_write_grade_haiku strip gateway noun wi =
           (Return result, wi')).
Proof.
  split_and!.
  - intros gateway random order train_input train_output w Horder.
    destruct (Conll.responses gateway random order train_input w) as [o w']
      eqn:Hrun.
    destruct (tqdm_gather_returns
                (Conll.make_inference gateway random <$>
                 take Conll.NUM_TRAIN_PREDICTIONS train_input) order w)
      as (rs & w'' & Hret).
    { intros f w0 Hf. apply list_elem_of_fmap in Hf as (text & -> & _).
      apply async_with_semaphore_returns. intros w1. apply get_entities_returns. }
    unfold Conll.responses in Hrun. rewrite Hret in Hrun. injection Hrun as <- <-.
    exists rs, w''. split; [done|].
    destruct (tqdm_gather_map _ _ _ _ _ _ Horder Hret) as [Hlen Hpos].
    split; [done|]. intros i response gold Hi.
    apply zip_lookup_Some in Hi as [Hr Hg].
    destruct (Hpos i response Hr) as (text & wi & wi' & Ht & Hrun').
    apply lookup_take_Some in Ht as [Ht _]. apply lookup_take_Some in Hg as [Hg _].
    by exists text, wi, wi'.
  - intros gateway random order variant_name test_input test_output w Horder.
    destruct (Conll.variant_result gateway random order variant_name test_input w)
      as [o w'] eqn:Hrun.
    destruct (tqdm_gather_returns
                ((λ text, Conll.make_inference_dryrun gateway random text
                            (Some variant_name)) <$>
                 take Conll.NUM_TEST_PREDICTIONS test_input) order w)
      as (rs & w'' & Hret).
    { intros f w0 Hf. apply list_elem_of_fmap in Hf as (text & -> & _).
      apply async_with_semaphore_returns. intros w1. apply get_entities_returns. }
    unfold Conll.variant_result in Hrun. rewrite Hret in Hrun.
    injection Hrun as <- <-.
    exists rs, w''. split; [done|].
    destruct (tqdm_gather_map _ _ _ _ _ _ Horder Hret) as [Hlen Hpos].
    split; [done|]. intros i response gold Hi.
    apply zip_lookup_Some in Hi as [Hr Hg].
    destruct (Hpos i response Hr) as (text & wi & wi' & Ht & Hrun').
    apply lookup_take_Some in Ht as [Ht _]. apply lookup_take_Some in Hg as [Hg _].
    by exists text, wi, wi'.
  - intros strip gateway order nouns w rs w' Horder Hrun.
    destruct (tqdm_gather_map _ _ _ _ _ _ Horder Hrun) as [Hlen Hpos].
    split; [done|]. intros i result Hi.
    destruct (Hpos i result Hi) as (noun & wi & wi' & Ht & Hrun').
    apply lookup_take_Some in Ht as [Ht _]. by exists noun, wi, wi'.
Qed.

Lemma gathered_results_positional_witness :
  [1; 0]%nat ≡ₚ seq 0 2 ∧
  ∃ rs, (Conll.responses timing_out one_half [1; 0]%nat ["a"; "b"] start).1 = Return rs ∧
        length rs = 2%nat.
Proof.
  split; [apply perm_swap|].
  destruct (proj1 gathered_results_positional timing_out one_half [1; 0]%nat
              ["a"; "b"] [[]; []] start (perm_swap _ _ _))
    as (rs & w' & Hrun & Hlen & _).
  exists rs. split; [by rewrite Hrun|exact Hlen].
Defined.

(** *** The semaphore *)

Section semaphore_facts.
Variable width size : nat.

Lemma body_no_acquire body :
  Forall (awaits_at_most width) body → IAcquire ∉ body ++ [IRelease].
Proof.
  intros Hbody Hin. apply elem_of_app in Hin as [Hin|Hin].
  - by apply (proj1 (Forall_forall _ _) Hbody) in Hin.
  - by apply list_elem_of_singleton in Hin.
Qed.

Lemma holding_waiting body : holding (Running (IAcquire :: body ++ [IRelease])) = false.
Proof. apply bool_decide_eq_false. intros [_ H]. apply H. left. Qed.

Lemma holding_held body t :
  Forall (awaits_at_most width) body →
  remaining t = body ++ [IRelease] → holding t = true.
Proof.
  intros Hbody Hrem. apply bool_decide_eq_true. rewrite Hrem. split.
  - apply elem_of_app. right. left.
  - by apply body_no_acquire.
Qed.

Lemma holding_done : holding (Running []) = false.
Proof. apply bool_decide_eq_false. intros [H _]. by apply elem_of_nil in H. Qed.

Lemma in_flight_ok t :
  task_ok width t → (in_flight t ≤ width * (if holding t then 1 else 0))%nat.
Proof.
  destruct 1 as [body Hb|body Hb|m body Hm Hb|]; simpl; try lia.
  rewrite (holding_held body) by done. lia.
Qed.

Lemma holders_weight s : holders s = sum_list (weight <$> tasks s).
Proof.
  unfold holders. induction (tasks s) as [|t l IH]; [done|].
  rewrite filter_cons, fmap_cons. simpl. unfold weight at 1.
  destruct (holding t) eqn:Ht; simpl; by rewrite IH.
Qed.

Lemma sum_list_insert (f : task → nat) l i t t' :
  l !! i = Some t →
  (sum_list (f <$> <[i := t']> l) + f t = sum_list (f <$> l) + f t')%nat.
Proof.
  revert i. induction l as [|x l IH]; intros [|i] Hi; simplify_eq/=.
  - lia.
  - specialize (IH i Hi). lia.
Qed.

Lemma invariant_batch progs :
  Forall (guarded width) progs → invariant width size (batch size progs).
Proof.
  intros Hprogs. split; simpl.
  - apply Forall_fmap. eapply Forall_impl; [done|].
    intros prog (body & -> & Hbody). simpl. by constructor.
  - rewrite holders_weight. simpl.
    assert (sum_list (weight <$> (Running <$> progs)) = 0%nat) as ->; [|lia].
    induction Hprogs as [|prog progs (body & -> & Hbody) _ IH]; [done|].
    rewrite !fmap_cons. simpl. unfold weight at 1. by rewrite holding_waiting, IH.
Qed.

Lemma invariant_update i s t t' v o :
  invariant width size s → tasks s !! i = Some t → task_ok width t' →
  (v + weight t' = sem_value s + weight t)%nat →
  invariant width size
    {| sem_value := v; tasks := <[i := t']> (tasks s); orphans := o |}.
Proof.
  intros [Hok Hsem] Hi Ht' Hv. rewrite holders_weight in Hsem. split; simpl.
  - by apply Forall_insert.
  - rewrite holders_weight. simpl.
    pose proof (sum_list_insert weight _ i t t' Hi). lia.
Qed.

Lemma invariant_step_task i s s' :
  invariant width size s → step_task i s = Some s' → invariant width size s'.
Proof.
  intros Hinv. pose proof Hinv as [Hok _]. unfold step_task.
  destruct (tasks s !! i) as [t|] eqn:Hi; [|done].
  pose proof (proj1 (Forall_lookup _ _) Hok i t Hi) as Ht.
  pose proof (λ t' v o, invariant_update i s t t' v o Hinv Hi) as Hupd.
  unfold weight in Hupd.
  destruct Ht as [body Hb|body Hb|m body Hm Hb|].
  - case_decide; [|done]. intros [= <-]. apply Hupd; [by constructor|].
    rewrite holding_waiting, (holding_held body) by done. lia.
  - destruct body as [|[| |n] body]; simpl.
    + intros [= <-]. apply Hupd; [constructor|].
      rewrite holding_done, (holding_held []) by done. lia.
    + by apply Forall_cons_1 in Hb as [? _].
    + by apply Forall_cons_1 in Hb as [? _].
    + apply Forall_cons_1 in Hb as [Hn Hb]. intros [= <-].
      apply Hupd; [by constructor|].
      rewrite (holding_held body), (holding_held (IAwait n :: body)); try done.
      by constructor.
  - destruct m as [|m]; intros [= <-]; (apply Hupd; [constructor; try done; lia|]);
      by rewrite !(holding_held body).
  - done.
Qed.

(** A task whose call fails is still inside the semaphore: the release is
    ahead of it. *)
Lemma invariant_fail_task i s s' :
  invariant width size s → fail_task i s = Some s' → invariant width size s'.
Proof.
  intros Hinv. pose proof Hinv as [Hok _]. unfold fail_task.
  destruct (tasks s !! i) as [t|] eqn:Hi; [|done].
  pose proof (proj1 (Forall_lookup _ _) Hok i t Hi) as Ht.
  destruct Ht as [body Hb|body Hb|m body Hm Hb|]; try done.
  destruct m as [|m]; [done|]. intros [= <-].
  apply (invariant_update i s (Awaiting (S m) (body ++ [IRelease]))); try done.
  all: try by constructor.
  all: unfold weight; by rewrite !(holding_held body).
Qed.

Lemma invariant_step_move mv s s' :
  invariant width size s → step_move mv s = Some s' → invariant width size s'.
Proof.
  destruct mv as [i|i|]; simpl.
  - apply invariant_step_task.
  - apply invariant_fail_task.
  - intros Hinv. unfold orphan_done. destruct (orphans s); [done|].
    by intros [= <-].
Qed.

Lemma invariant_reachable s0 s : invariant width size s0 → reachable s0 s → invariant width size s.
Proof.
  intros Hinv Hreach. induction Hreach as [|s1 s2 s3 [mv Hstep] _ IH]; [done|].
  apply IH. by eapply invariant_step_move.
Qed.

(** The calls left behind and the calls that can still be left behind never
    grow, whatever the tasks. *)
Lemma left_behind_step_move mv s s' :
  step_move mv s = Some s' →
  (orphans s' + sum_list (can_leave_behind <$> tasks s') ≤
   orphans s + sum_list (can_leave_behind <$> tasks s))%nat.
Proof.
  destruct mv as [i|i|]; simpl.
  - unfold step_task. destruct (tasks s !! i) as [t|] eqn:Hi; [|done].
    destruct t as [[|[| |n] p]|[|m] p]; try done.
    + destruct (decide _); [|done]. intros [= <-]. simpl.
      pose proof (sum_list_insert can_leave_behind _ i _ (Running p) Hi).
      csimpl in *. lia.
    + intros [= <-]. simpl.
      pose proof (sum_list_insert can_leave_behind _ i _ (Running p) Hi).
      csimpl in *. lia.
    + intros [= <-]. simpl.
      pose proof (sum_list_insert can_leave_behind _ i _ (Awaiting n p) Hi).
      csimpl in *. lia.
    + intros [= <-]. simpl.
      pose proof (sum_list_insert can_leave_behind _ i _ (Running p) Hi).
      csimpl in *. lia.
    + intros [= <-]. simpl.
      pose proof (sum_list_insert can_leave_behind _ i _ (Awaiting m p) Hi).
      csimpl in *. lia.
  - unfold fail_task. destruct (tasks s !! i) as [t|] eqn:Hi; [|done].
    destruct t as [|[|m] p]; try done. intros [= <-]. simpl.
    pose proof (sum_list_insert can_leave_behind _ i _ (Running p) Hi).
    csimpl in *. lia.
  - unfold orphan_done. destruct (orphans s) as [|k] eqn:Hk; [done|].
    intros [= <-]. simpl. lia.
Qed.

Lemma left_behind_reachable s0 s :
  reachable s0 s →
  (orphans s + sum_list (can_leave_behind <$> tasks s) ≤
   orphans s0 + sum_list (can_leave_behind <$> tasks s0))%nat.
Proof.
  intros Hreach. induction Hreach as [|s1 s2 s3 [mv Hstep] _ IH]; [done|].
  apply left_behind_step_move in Hstep. lia.
Qed.

(** Of the calls a task awaits, all but one can still be left behind, and
    the task holds the semaphore. *)
Lemma in_flight_left_behind t :
  task_ok width t → (in_flight t ≤ can_leave_behind t + weight t)%nat.
Proof.
  destruct 1 as [body Hb|body Hb|m body Hm Hb|]; simpl; try lia.
  unfold weight. rewrite (holding_held body) by done. lia.
Qed.

Lemma invariant_bounds s :
  invariant width size s →
  (holders s ≤ size)%nat ∧ (awaited_in_flight s ≤ width * size)%nat ∧
  (total_in_flight s ≤
   size + (orphans s + sum_list (can_leave_behind <$> tasks s)))%nat.
Proof.
  intros [Hok Hsem]. split; [lia|].
  assert (awaited_in_flight s ≤ width * holders s ∧
          awaited_in_flight s ≤
            sum_list (can_leave_behind <$> tasks s) + holders s)%nat as [H1 H2].
  { rewrite holders_weight. unfold awaited_in_flight.
    induction Hok as [|t l Ht _ [IH1 IH2]]; csimpl; [lia|].
    pose proof (in_flight_ok t Ht) as Hflight.
    pose proof (in_flight_left_behind t Ht) as Hleft. unfold weight in *.
    destruct (holding t); split; nia. }
  unfold total_in_flight. split; [nia|lia].
Qed.

Lemma run_schedule_reachable schedule s s' :
  run_schedule schedule s = Some s' → reachable s s'.
Proof.
  revert s. induction schedule as [|mv schedule IH]; intros s; simpl.
  - intros [= <-]. apply rtc_refl.
  - destruct (step_move mv s) as [s1|] eqn:Hstep; [|done].
    intros Hrun. eapply rtc_l; [by exists mv|by apply IH].
Qed.

End semaphore_facts.

Lemma skeleton_app tr1 tr2 : skeleton (tr1 ++ tr2) = skeleton tr1 ++ skeleton tr2.
Proof. apply omap_app. Qed.

Lemma skeleton_attempts_trace req sleeps :
  skeleton (attempts_trace req sleeps) = replicate (S (length sleeps)) (IAwait 1).
Proof.
  unfold attempts_trace.
  change (EvInference req :: ?l) with ([EvInference req] ++ l).
  rewrite skeleton_app. simpl. f_equal.
  induction sleeps as [|x sleeps IH]; [done|].
  rewrite fmap_cons, concat_cons, skeleton_app, IH. done.
Qed.

Lemma awaits_replicate width n k :
  (k ≤ width)%nat → Forall (awaits_at_most width) (replicate n (IAwait k)).
Proof. intros Hk. by apply Forall_replicate. Qed.

(** Whatever the body does, [async with semaphore] brackets its events
    between an acquire and a release. *)
Lemma async_with_semaphore_events {A} (body : M A) w evs :
  (∀ w0, trace (body w0).2 = trace w0 ++ evs w0) →
  events_of (async_with_semaphore body) w =
    EvAcquire :: evs (emit EvAcquire w).2 ++ [EvRelease].
Proof.
  intros Hbody. apply events_of_trace.
  specialize (Hbody (emit EvAcquire w).2).
  unfold async_with_semaphore, bind, try_except, ret, raise, emit in *.
  simpl in *.
  destruct (body _) as [[a|e] w1]; simpl in *; rewrite Hbody;
    by rewrite <-!app_assoc.
Qed.

Lemma guarded_async_with_semaphore {A} (body : M A) w width evs :
  (∀ w0, trace (body w0).2 = trace w0 ++ evs w0) →
  (∀ w0, Forall (awaits_at_most width) (skeleton (evs w0))) →
  guarded width (skeleton (events_of (async_with_semaphore body) w)).
Proof.
  intros Hbody Hevs. rewrite (async_with_semaphore_events body w evs Hbody).
  exists (skeleton (evs (emit EvAcquire w).2)). split; [|apply Hevs].
  change (EvAcquire :: ?l) with ([EvAcquire] ++ l). by rewrite !skeleton_app.
Qed.

Lemma get_entities_events gateway random text variant_name dryrun :
  ∃ evs, (∀ w, trace (Conll.get_entities gateway random text variant_name dryrun w).2 =
               trace w ++ evs w) ∧
         ∀ w, Forall (awaits_at_most 1) (skeleton (evs w)).
Proof.
  exists (events_of (Conll.get_entities gateway random text variant_name dryrun)).
  assert (∀ w, ∃ sleeps tail,
            trace (Conll.get_entities gateway random text variant_name dryrun w).2 =
              trace w ++ attempts_trace
                (InferenceRequest "extract_entities" (UserText text) variant_name
                   dryrun None) sleeps ++ tail ∧
            skeleton tail = []) as Hshape.
  { intros w. rewrite get_entities_run.
    destruct (Conll._get_entities gateway random text variant_name dryrun w)
      as [o w'] eqn:Hrun.
    unfold Conll._get_entities, retry in Hrun.
    apply retry_from_inference in Hrun as (sleeps & _ & Htr & _).
    exists sleeps. destruct o as [r|e]; simpl.
    - exists []. by rewrite app_nil_r.
    - eexists [_]. by rewrite Htr, <-app_assoc. }
  split; intros w; destruct (Hshape w) as (sleeps & tail & Htr & Htail).
  - symmetry. rewrite Htr. f_equal. by apply events_of_trace.
  - rewrite (events_of_trace _ _ _ Htr), skeleton_app, Htail, app_nil_r,
      skeleton_attempts_trace.
    by apply awaits_replicate.
Qed.

Lemma events_of_shape {A} (m : M A) (P : list event → Prop) :
  (∀ w, ∃ tail, trace (m w).2 = trace w ++ tail ∧ P tail) →
  (∀ w, trace (m w).2 = trace w ++ events_of m w) ∧ ∀ w, P (events_of m w).
Proof.
  intros Hshape. split; intros w; destruct (Hshape w) as (tail & Htr & Htail);
    by rewrite (events_of_trace _ _ _ Htr).
Qed.

Lemma write_grade_haiku_events strip gateway topic :
  ∃ evs, (∀ w, trace (Haiku.write_grade_haiku strip gateway topic w).2 =
               trace w ++ evs w) ∧
         ∀ w, Forall (awaits_at_most 1) (skeleton (evs w)).
Proof.
  exists (events_of (Haiku.write_grade_haiku strip gateway topic)).
  apply (events_of_shape _ (λ tail, Forall (awaits_at_most 1) (skeleton tail))).
  intros w.
  unfold Haiku.write_grade_haiku, bind, try_except, inference, print, emit, ret,
    lift.
  simpl.
  repeat
    (match goal with
     | |- context [match gateway ?n ?r with _ => _ end] =>
         destruct (gateway n r) as [?|?]; simpl
     | |- context [match Haiku.content ?r with _ => _ end] =>
         destruct (Haiku.content r) as [?|?]; simpl
     | |- context [match Haiku.first_item ?l with _ => _ end] =>
         destruct (Haiku.first_item l) as [?|?]; simpl
     | |- context [match Haiku.text ?b with _ => _ end] =>
         destruct (Haiku.text b) as [?|?]; simpl
     | |- context [match Haiku.output ?r with _ => _ end] =>
         destruct (Haiku.output r) as [?|?]; simpl
     | |- context [match Haiku.subscript ?p ?k with _ => _ end] =>
         destruct (Haiku.subscript p k) as [?|?]; simpl
     end);
    rewrite <-?app_assoc; eexists; (split; [reflexivity|]);
    simpl; repeat constructor.
Qed.

(** The skeleton of a feedback task, whatever the outcomes of its calls. *)
Lemma evaluate_send_feedback_skeleton upper feedback_gateway completion response gold w :
  skeleton (events_of
    (Conll.evaluate_send_feedback upper feedback_gateway completion response gold) w) =
  match response with
  | Some _ => [IAcquire; IAwait 4; IRelease]
  | None => [IAcquire; IRelease]
  end.
Proof.
  unfold Conll.evaluate_send_feedback.
  destruct (Conll.evaluate upper response gold) as [[valid_json matched] jaccard].
  destruct response as [r|].
  - erewrite (async_with_semaphore_events _ _ (λ _, [EvGather _])).
    2: { intros w0. unfold bind, gather_feedback, ret.
         by destruct (gather_outcome _ _). }
    done.
  - rewrite (async_with_semaphore_events _ _ (λ _, [])); [done|].
    intros w0. unfold raise. simpl. by rewrite app_nil_r.
Qed.

Lemma evaluate_send_feedback_guarded upper feedback_gateway completion response gold w :
  guarded 4 (skeleton (events_of
    (Conll.evaluate_send_feedback upper feedback_gateway completion response gold) w)).
Proof.
  rewrite evaluate_send_feedback_skeleton. destruct response.
  - exists [IAwait 4]. split; [done|]. repeat constructor.
  - exists []. split; [done|]. constructor.
Qed.

(** A task that awaits one call at a time leaves no call behind. *)
Lemma guarded_one_spare prog :
  guarded 1 prog → sum_list (spare_calls <$> prog) = 0%nat.
Proof.
  intros (body & -> & Hbody). rewrite fmap_cons, fmap_app. csimpl.
  induction Hbody as [|[| |n] body Hn _ IH]; csimpl; try done.
  simpl in Hn. rewrite IH. lia.
Qed.

Lemma spare_calls_batch (bound : nat) progs :
  Forall (λ prog, sum_list (spare_calls <$> prog) ≤ bound)%nat progs →
  (sum_list (can_leave_behind <$> (Running <$> progs)) ≤ bound * length progs)%nat.
Proof.
  induction 1 as [|prog progs Hprog _ IH]; csimpl; [lia|]. simpl in *. lia.
Qed.

(** Every reachable state of a batch of guarded tasks respects the bounds:
    on the tasks inside the semaphore, on the calls they await, and on all
    the calls in flight, given a bound on what a task can leave behind. *)
Lemma guarded_batch_bounds width size bound progs s :
  Forall (guarded width) progs →
  Forall (λ prog, sum_list (spare_calls <$> prog) ≤ bound)%nat progs →
  reachable (batch size progs) s →
  (holders s ≤ size)%nat ∧ (awaited_in_flight s ≤ width * size)%nat ∧
  (total_in_flight s ≤ size + bound * length progs)%nat.
Proof.
  intros Hprogs Hspare Hreach.
  destruct (invariant_bounds width size s) as (Hholders & Hawaited & Htotal).
  { eapply invariant_reachable; [|done]. by apply invariant_batch. }
  split; [done|]. split; [done|].
  pose proof (left_behind_reachable _ _ Hreach) as Hleft. simpl in Hleft.
  pose proof (spare_calls_batch bound progs Hspare). lia.
Qed.

Lemma guarded_one_batch_bounds size progs s :
  Forall (guarded 1) progs →
  reachable (batch size progs) s →
  (holders s ≤ size)%nat ∧ (total_in_flight s ≤ size)%nat.
Proof.
  intros Hprogs Hreach.
  destruct (guarded_batch_bounds 1 size 0 progs s) as (? & _ & ?); try done; [|lia].
  eapply Forall_impl; [done|]. intros prog Hprog.
  by rewrite guarded_one_spare.
Qed.

(** Tasks that await one call and never acquire can all be in flight at
    once, whatever the semaphore. *)
Lemma unguarded_all_in_flight size n :
  reachable (batch size (replicate n [IAwait 1]))
    {| sem_value := size; tasks := replicate n (Awaiting 1 []); orphans := 0 |}.
Proof.
  assert (∀ k, (k ≤ n)%nat →
            reachable (batch size (replicate n [IAwait 1]))
              {| sem_value := size;
                 tasks := replicate k (Awaiting 1 []) ++
                          replicate (n - k) (Running [IAwait 1]);
                 orphans := 0 |}) as Hk.
  { induction k as [|k IH]; intros Hle.
    - unfold batch. rewrite fmap_replicate, Nat.sub_0_r. apply rtc_refl.
    - eapply rtc_r; [apply IH; lia|]. exists (Go k). simpl. unfold step_task. simpl.
      replace (n - k)%nat with (S (n - S k)) by lia.
      rewrite lookup_app_r by (by rewrite length_replicate).
      rewrite length_replicate, Nat.sub_diag. simpl. f_equal. f_equal.
      rewrite insert_app_r_alt by (by rewrite length_replicate).
      rewrite length_replicate, Nat.sub_diag. simpl.
      change (Awaiting 1 [] :: replicate k (Awaiting 1 []) ++ ?l) with
        (replicate (S k) (Awaiting 1 []) ++ l).
      by rewrite replicate_S_end, <-app_assoc. }
  specialize (Hk n (Nat.le_refl n)).
  by rewrite Nat.sub_diag, app_nil_r in Hk.
Qed.

Lemma awaited_in_flight_replicate size n o :
  awaited_in_flight
    {| sem_value := size; tasks := replicate n (Awaiting 1 []); orphans := o |} = n.
Proof.
  unfold awaited_in_flight. simpl. induction n as [|n IH]; [done|].
  csimpl. by rewrite IH.
Qed.

(** C8, as the code has it. In the four fan-outs that use the semaphore,
    every task acquires it before its first gateway call and releases it
    after its last one, also when a call fails, so in every reachable state
    at most as many tasks hold the semaphore as its size: 20 in the NER
    notebook, 50 in the haiku notebook. An inference task awaits one gateway
    call at a time, so at most 20 (resp. 50) inference calls are in flight.
    A feedback task of the NER notebook awaits four feedback calls together
    inside one hold: the calls awaited by tasks are bounded by 4 * 20; but
    when a call fails the task leaves the semaphore with up to three calls
    still in flight, so all the feedback calls in flight are bounded only by
    20 plus three per task. The feedback fan-out of the haiku notebook takes
    no semaphore: all its calls can be in flight at once. *)
Theorem semaphore_bounds_holders :
  (∀ gateway random (runs : list (string * world)) s,
     let progs := (λ '(text, w),
                     skeleton (events_of (Conll.make_inference gateway random text) w))
                  <$> runs in
     Forall (guarded 1) progs ∧
     (reachable (batch Conll.MAX_CONCURRENT_REQUESTS progs) s →
      (holders s ≤ Conll.MAX_CONCURRENT_REQUESTS)%nat ∧
      (total_in_flight s ≤ Conll.MAX_CONCURRENT_REQUESTS)%nat)) ∧
  (∀ gateway random variant_name (runs : list (string * world)) s,
     let progs := (λ '(text, w),
                     skeleton (events_of
                       (Conll.make_inference_dryrun gateway random text variant_name) w))
                  <$> runs in
     Forall (guarded 1) progs ∧
     (reachable (batch Conll.MAX_CONCURRENT_REQUESTS progs) s →
      (holders s ≤ Conll.MAX_CONCURRENT_REQUESTS)%nat ∧
      (total_in_flight s ≤ Conll.MAX_CONCURRENT_REQUESTS)%nat)) ∧
  (∀ strip gateway (runs : list (string * world)) s,
     let progs := (λ '(noun, w),
                     skeleton (events_of
                       (Haiku.ratelimited_write_grade_haiku strip gateway noun) w))
                  <$> runs in
     Forall (guarded 1) progs ∧
     (reachable (batch Haiku.max_concurrent_requests progs) s →
      (holders s ≤ Haiku.max_concurrent_requests)%nat ∧
      (total_in_flight s ≤ Haiku.max_concurrent_requests)%nat)) ∧
  (∀ upper feedback_gateway completion
     (runs : list (option Conll.InferenceResponse * dict * world)) s,
     let progs := (λ '(response, gold, w),
                     skeleton (events_of
                       (Conll.evaluate_send_feedback upper feedback_gateway completion
                          response gold) w))
                  <$> runs in
     Forall (guarded 4) progs ∧
     (reachable (batch Conll.MAX_CONCURRENT_REQUESTS progs) s →
      (holders s ≤ Conll.MAX_CONCURRENT_REQUESTS)%nat ∧
      (awaited_in_flight s ≤ 4 * Conll.MAX_CONCURRENT_REQUESTS)%nat ∧
      (total_in_flight s ≤ Conll.MAX_CONCURRENT_REQUESTS + 3 * length runs)%nat)) ∧
  (∀ feedback_gateway (runs : list (UUID * json * world)) size,
     let progs := (λ '(inference_id, score, w),
                     skeleton (events_of
                       (Haiku.send_haiku_feedback feedback_gateway inference_id score) w))
                  <$> runs in
     Forall (λ prog, prog = [IAwait 1]) progs ∧
     ∃ s, reachable (batch size progs) s ∧ total_in_flight s = length runs).
Proof.
  split_and!.
  - intros gateway random runs s progs.
    assert (Forall (guarded 1) progs) as Hprogs.
    { apply Forall_fmap, Forall_forall. intros [text w] _. simpl.
      destruct (get_entities_events gateway random text None false) as (evs & ? & ?).
      by apply (guarded_async_with_semaphore _ _ _ evs). }
    split; [done|]. by apply guarded_one_batch_bounds.
  - intros gateway random variant_name runs s progs.
    assert (Forall (guarded 1) progs) as Hprogs.
    { apply Forall_fmap, Forall_forall. intros [text w] _. simpl.
      destruct (get_entities_events gateway random text variant_name true)
        as (evs & ? & ?).
      by apply (guarded_async_with_semaphore _ _ _ evs). }
    split; [done|]. by apply guarded_one_batch_bounds.
  - intros strip gateway runs s progs.
    assert (Forall (guarded 1) progs) as Hprogs.
    { apply Forall_fmap, Forall_forall. intros [noun w] _. simpl.
      destruct (write_grade_haiku_events strip gateway noun) as (evs & ? & ?).
      by apply (guarded_async_with_semaphore _ _ _ evs). }
    split; [done|]. by apply guarded_one_batch_bounds.
  - intros upper feedback_gateway completion runs s progs.
    assert (Forall (guarded 4) progs) as Hprogs.
    { apply Forall_fmap, Forall_forall. intros [[response gold] w] _. simpl.
      apply evaluate_send_feedback_guarded. }
    split; [done|]. intros Hreach.
    apply (guarded_batch_bounds 4 _ 3) in Hreach; [|done|].
    + subst progs. by rewrite length_fmap in Hreach.
    + apply Forall_fmap, Forall_forall. intros [[response gold] w] _. simpl.
      rewrite evaluate_send_feedback_skeleton. destruct response; simpl; lia.
  - intros feedback_gateway runs size progs.
    assert (progs = replicate (length runs) [IAwait 1]) as Hprogs.
    { subst progs. induction runs as [|[[inference_id score] w] runs IH]; [done|].
      rewrite fmap_cons, IH. simpl. f_equal.
      unfold events_of, Haiku.send_haiku_feedback, feedback. simpl.
      by rewrite drop_app_length. }
    split.
    + rewrite Hprogs. by apply Forall_replicate.
    + rewrite Hprogs. eexists. split; [apply unguarded_all_in_flight|].
      unfold total_in_flight. rewrite awaited_in_flight_replicate. simpl. lia.
Qed.

Lemma semaphore_bounds_holders_witness :
  ∃ s, run_schedule one_call_fails
         (batch Conll.MAX_CONCURRENT_REQUESTS
            ((λ '(response, gold, w),
                skeleton (events_of
                  (Conll.evaluate_send_feedback str_upper rejecting_exact_match
                     last_first response gold) w))
             <$> twenty_one_feedback_runs)) = Some s ∧
       (holders s ≤ Conll.MAX_CONCURRENT_REQUESTS)%nat ∧
       (awaited_in_flight s ≤ 4 * Conll.MAX_CONCURRENT_REQUESTS)%nat ∧
       (total_in_flight s ≤ Conll.MAX_CONCURRENT_REQUESTS + 3 * 21)%nat.
Proof.
  destruct (run_schedule one_call_fails _) as [s|] eqn:Hrun;
    [|vm_compute in Hrun; discriminate].
  exists s. split; [reflexivity|].
  apply (proj1 (proj2 (proj2 (proj2 semaphore_bounds_holders))) str_upper
           rejecting_exact_match last_first twenty_one_feedback_runs s).
  by apply run_schedule_reachable with one_call_fails.
Defined.

(** In-flight feedback calls are bounded neither by the semaphore's size
    nor by four times its size. With six feedback tasks inside the
    semaphore, each awaiting its four calls, 24 feedback calls are in flight.
    With twenty tasks inside, a call of one of them fails: the task leaves
    the semaphore while its three other calls are pending, another task
    enters and starts four calls, and 83 feedback calls are in flight. *)
Lemma feedback_calls_exceed_semaphore :
  (¬ ∀ upper feedback_gateway completion
       (runs : list (option Conll.InferenceResponse * dict * world)) s,
       reachable
         (batch Conll.MAX_CONCURRENT_REQUESTS
            ((λ '(response, gold, w),
                skeleton (events_of
                  (Conll.evaluate_send_feedback upper feedback_gateway completion
                     response gold) w))
             <$> runs)) s →
       (total_in_flight s ≤ Conll.MAX_CONCURRENT_REQUESTS)%nat) ∧
  (¬ ∀ upper feedback_gateway completion
       (runs : list (option Conll.InferenceResponse * dict * world)) s,
       reachable
         (batch Conll.MAX_CONCURRENT_REQUESTS
            ((λ '(response, gold, w),
                skeleton (events_of
                  (Conll.evaluate_send_feedback upper feedback_gateway completion
                     response gold) w))
             <$> runs)) s →
       (total_in_flight s ≤ 4 * Conll.MAX_CONCURRENT_REQUESTS)%nat).
Proof.
  split; intros Hbound.
  - destruct (run_schedule acquire_all_then_call
                (batch Conll.MAX_CONCURRENT_REQUESTS
                   ((λ '(response, gold, w),
                       skeleton (events_of
                         (Conll.evaluate_send_feedback str_upper accepting last_first
                            response gold) w))
                    <$> six_feedback_runs))) as [s|] eqn:Hrun;
      [|vm_compute in Hrun; discriminate].
    pose proof (Hbound str_upper accepting last_first six_feedback_runs s
                  (run_schedule_reachable _ _ _ Hrun)) as H.
    vm_compute in Hrun. injection Hrun as <-. vm_compute in H. lia.
  - destruct (run_schedule one_call_fails
                (batch Conll.MAX_CONCURRENT_REQUESTS
                   ((λ '(response, gold, w),
                       skeleton (events_of
                         (Conll.evaluate_send_feedback str_upper rejecting_exact_match
                            last_first response gold) w))
                    <$> twenty_one_feedback_runs))) as [s|] eqn:Hrun;
      [|vm_compute in Hrun; discriminate].
    pose proof (Hbound str_upper rejecting_exact_match last_first
                  twenty_one_feedback_runs s
                  (run_schedule_reachable _ _ _ Hrun)) as H.
    vm_compute in Hrun. injection Hrun as <-. vm_compute in H. lia.
Qed.

(** *** The analytics queries *)

Section query_facts.
Variable db : table → list row.

Lemma elem_of_product (l k : list row) i b :
  (i, b) ∈ (i ← l; b ← k; [(i, b)]) ↔ i ∈ l ∧ b ∈ k.
Proof.
  rewrite list_elem_of_bind. split.
  - intros (i' & Hin & Hi'). apply list_elem_of_bind in Hin as (b' & Hin & Hb').
    apply list_elem_of_singleton in Hin as [= -> ->]. done.
  - intros [Hi Hb]. exists i. split; [|done]. apply list_elem_of_bind.
    exists b. split; [|done]. by apply list_elem_of_singleton.
Qed.

Lemma elem_of_joined ps q i b :
  (i, b) ∈ joined db ps q ↔
  i ∈ db (from_table q) ∧ b ∈ db (join_table q) ∧
  holds ps q i b (on_condition q) = true ∧ holds ps q i b (where_condition q) = true.
Proof.
  unfold joined. rewrite list_elem_of_filter, elem_of_product, andb_true_iff. tauto.
Qed.

Lemma eq_columns_true (x y : option sql_value) :
  match x, y with Some vx, Some vy => bool_decide (vx = vy) | _, _ => false end = true ↔
  ∃ u, x = Some u ∧ y = Some u.
Proof.
  destruct x as [vx|], y as [vy|]; simpl; try (split; [done|by intros (? & ? & ?)]).
  rewrite bool_decide_eq_true. split; [intros ->; by eexists|by intros (u & [= ->] & [= ->])].
Qed.

Lemma eq_literal_true (x : option sql_value) (lit : string) :
  match x, Some (VString lit) with
  | Some vx, Some vy => bool_decide (vx = vy) | _, _ => false end = true ↔
  x = Some (VString lit).
Proof.
  destruct x as [vx|]; simpl; [|done].
  rewrite bool_decide_eq_true. split; [by intros ->|by intros [= ->]].
Qed.

Lemma exact_match_joined i b :
  (i, b) ∈ joined db Conll.exact_match_parameters Conll.exact_match_query ↔
  i ∈ db JsonInference ∧ b ∈ db BooleanMetricFeedback ∧
  same_inference i b ∧
  i !! "function_name" = Some (VString "extract_entities") ∧
  b !! "metric_name" = Some (VString "exact_match").
Proof.
  rewrite elem_of_joined. simpl. rewrite andb_true_iff.
  unfold Conll.exact_match_parameters. rewrite lookup_singleton_eq. simpl.
  rewrite eq_columns_true, !eq_literal_true. unfold same_inference. tauto.
Qed.

Lemma jaccard_joined i b :
  (i, b) ∈ joined db ∅ Conll.jaccard_query ↔
  i ∈ db JsonInference ∧ b ∈ db FloatMetricFeedback ∧
  same_inference i b ∧
  i !! "function_name" = Some (VString "extract_entities") ∧
  b !! "metric_name" = Some (VString "jaccard_similarity").
Proof.
  rewrite elem_of_joined. simpl. rewrite andb_true_iff.
  rewrite eq_columns_true, !eq_literal_true. unfold same_inference. tauto.
Qed.

Lemma haiku_joined i b :
  (i, b) ∈ joined db ∅ Haiku.haiku_query ↔
  i ∈ db ChatInference ∧ b ∈ db BooleanMetricFeedback ∧
  same_inference i b ∧
  i !! "function_name" = Some (VString "write_haiku").
Proof.
  rewrite elem_of_joined. simpl.
  rewrite eq_columns_true, !eq_literal_true. unfold same_inference. tauto.
Qed.

Lemma groupby_keys_lookup (g : string → Qc) (ks : list string) key :
  (list_to_map ((λ k, (k, g k)) <$> ks) : gmap string Qc) !! key =
  if decide (key ∈ ks) then Some (g key) else None.
Proof.
  induction ks as [|k ks IH].
  - by rewrite fmap_nil, list_to_map_nil, lookup_empty.
  - rewrite fmap_cons, list_to_map_cons. simpl fst. simpl snd.
    destruct (decide (k = key)) as [->|Hne].
    + rewrite lookup_insert_eq, decide_True; [done|left].
    + rewrite lookup_insert_ne, IH by done.
      destruct (decide (key ∈ ks)) as [Hin|Hin].
      * rewrite decide_True; [done|by right].
      * rewrite decide_False; [done|]. by intros [?|?]%elem_of_cons.
Qed.

Lemma groupby_mean_lookup by_ col (df : list row) key :
  groupby_mean by_ col df !! key =
  if decide (Exists (λ r : row, r !! by_ = Some (VString key)) df)
  then Some (mean (group by_ col df key)) else None.
Proof.
  unfold groupby_mean. rewrite groupby_keys_lookup.
  assert (key ∈ omap (λ r : row,
             match r !! by_ with Some (VString k) => Some k | _ => None end) df ↔
          Exists (λ r : row, r !! by_ = Some (VString key)) df) as Hkeys.
  { rewrite list_elem_of_omap, Exists_exists. split.
    - intros (r & Hr & Hk). exists r. split; [done|].
      destruct (r !! by_) as [[]|]; naive_solver.
    - intros (r & Hr & Hk). exists r. by rewrite Hk. }
  destruct (decide (key ∈ _)) as [Hin|Hin].
  - rewrite decide_True; [done|by apply Hkeys].
  - rewrite decide_False; [done|]. by rewrite <-Hkeys.
Qed.

(** The data frame keeps the variant of the inference row and the value of
    the feedback row of every kept pair. *)
Lemma query_df_row q (feedback_alias : string) i b :
  columns q = [Column "i" "variant_name"; Column "i" "input";
               Column "i" "output"; Column feedback_alias "value"] →
  from_alias q = "i" → join_alias q = feedback_alias → feedback_alias ≠ "i" →
  let r : row :=
    list_to_map
      (omap (λ c, match c with
                  | Column _ name => (λ v, (name, v)) <$> column_value q i b c
                  end) (columns q)) in
  r !! "variant_name" = i !! "variant_name" ∧ r !! "value" = b !! "value".
Proof.
  intros Hcols Hfrom Hjoin Hne. unfold column_value.
  rewrite Hcols, Hfrom, Hjoin. simpl.
  rewrite !(decide_False (P := feedback_alias = "i")) by done.
  rewrite !(decide_True (P := feedback_alias = feedback_alias)) by done.
  destruct (i !! "variant_name"), (i !! "input"), (i !! "output"), (b !! "value");
    simpl; by simplify_map_eq.
Qed.

Lemma query_df_group ps q (feedback_alias : string) v :
  columns q = [Column "i" "variant_name"; Column "i" "input";
               Column "i" "output"; Column feedback_alias "value"] →
  from_alias q = "i" → join_alias q = feedback_alias → feedback_alias ≠ "i" →
  group "variant_name" "value" (query_df db ps q) v =
    variant_values (joined db ps q) v ∧
  (Exists (λ r : row, r !! "variant_name" = Some (VString v)) (query_df db ps q) ↔
   Exists (λ '(i, b), i !! "variant_name" = Some (VString v)) (joined db ps q)).
Proof.
  intros Hcols Hfrom Hjoin Hne. unfold query_df, group, variant_values.
  induction (joined db ps q) as [|[i b] pairs [IH1 IH2]].
  { split; [done|]. split; by intros ?%Exists_nil. }
  rewrite fmap_cons, !filter_cons, !Exists_cons.
  destruct (query_df_row q feedback_alias i b Hcols Hfrom Hjoin Hne)
    as [Hvar Hval].
  cbv zeta in Hvar, Hval. rewrite Hvar, IH2. split; [|done].
  destruct (decide (i !! "variant_name" = Some (VString v))).
  - csimpl. by rewrite Hval, IH1.
  - apply IH1.
Qed.

Lemma by_variant_lookup ps q (feedback_alias : string) v :
  columns q = [Column "i" "variant_name"; Column "i" "input";
               Column "i" "output"; Column feedback_alias "value"] →
  from_alias q = "i" → join_alias q = feedback_alias → feedback_alias ≠ "i" →
  groupby_mean "variant_name" "value" (query_df db ps q) !! v =
  if decide (Exists (λ '(i, b), i !! "variant_name" = Some (VString v))
               (joined db ps q))
  then Some (mean (variant_values (joined db ps q) v)) else None.
Proof.
  intros Hcols Hfrom Hjoin Hne. rewrite groupby_mean_lookup.
  destruct (query_df_group ps q feedback_alias v Hcols Hfrom Hjoin Hne)
    as [Hgroup Hex].
  rewrite Hgroup. destruct (decide (Exists _ (query_df db ps q))) as [H|H].
  - rewrite decide_True; [done|by apply Hex].
  - rewrite decide_False; [done|by rewrite <-Hex].
Qed.

End query_facts.

(** C7, as the code has it. Every analytics query joins the inference
    table with a feedback table on the shared identifier and keeps the rows of
    one function name; the two queries of the NER notebook keep the rows of
    one metric name as well, the query of the haiku notebook has no condition
    on the metric name. The rows of each are then averaged per variant. *)
Theorem analytics_queries_join_filter_aggregate (db : table → list row) :
  (∀ i b,
     (i, b) ∈ joined db Conll.exact_match_parameters Conll.exact_match_query ↔
     i ∈ db JsonInference ∧ b ∈ db BooleanMetricFeedback ∧
     same_inference i b ∧
     i !! "function_name" = Some (VString "extract_entities") ∧
     b !! "metric_name" = Some (VString "exact_match")) ∧
  (∀ i b,
     (i, b) ∈ joined db ∅ Conll.jaccard_query ↔
     i ∈ db JsonInference ∧ b ∈ db FloatMetricFeedback ∧
     same_inference i b ∧
     i !! "function_name" = Some (VString "extract_entities") ∧
     b !! "metric_name" = Some (VString "jaccard_similarity")) ∧
  (∀ i b,
     (i, b) ∈ joined db ∅ Haiku.haiku_query ↔
     i ∈ db ChatInference ∧ b ∈ db BooleanMetricFeedback ∧
     same_inference i b ∧
     i !! "function_name" = Some (VString "write_haiku")) ∧
  (∀ v,
     Conll.exact_match_by_variant db !! v =
     let pairs := joined db Conll.exact_match_parameters Conll.exact_match_query in
     if decide (Exists (λ '(i, b), i !! "variant_name" = Some (VString v)) pairs)
     then Some (mean (variant_values pairs v)) else None) ∧
  (∀ v,
     Conll.jaccard_by_variant db !! v =
     let pairs := joined db ∅ Conll.jaccard_query in
     if decide (Exists (λ '(i, b), i !! "variant_name" = Some (VString v)) pairs)
     then Some (mean (variant_values pairs v)) else None) ∧
  (∀ v,
     Haiku.score_by_variant db !! v =
     let pairs := joined db ∅ Haiku.haiku_query in
     if decide (Exists (λ '(i, b), i !! "variant_name" = Some (VString v)) pairs)
     then Some (mean (variant_values pairs v)) else None).
Proof.
  split_and!.
  - apply exact_match_joined.
  - apply jaccard_joined.
  - apply haiku_joined.
  - intros v. by apply (by_variant_lookup db _ _ "b").
  - intros v. by apply (by_variant_lookup db _ _ "f").
  - intros v. by apply (by_variant_lookup db _ _ "b").
Qed.

(** The haiku query keeps feedback rows of different metric names, so not
    every query filters by metric name. *)
Lemma haiku_query_keeps_every_metric :
  ¬ ∀ ps q, (ps, q) ∈ issued_queries →
      joins_on_identifier ps q ∧ filters_function_name ps q ∧
      filters_metric_name ps q.
Proof.
  intros Hall.
  destruct (Hall ∅ Haiku.haiku_query) as (_ & _ & m & Hm).
  { unfold issued_queries. do 2 right. left. }
  pose (i := list_to_map [("id", VUuid 1%N); ("function_name", VString "write_haiku");
                          ("variant_name", VString "initial_prompt");
                          ("input", VString "{}"); ("output", VString "[]")] : row).
  pose (b1 := list_to_map [("target_id", VUuid 1%N);
                           ("metric_name", VString "haiku_score");
                           ("value", VBool true)] : row).
  pose (b2 := list_to_map [("target_id", VUuid 1%N);
                           ("metric_name", VString "haiku_liked");
                           ("value", VBool false)] : row).
  assert (Hkept : ∀ b, b ∈ [b1; b2] → (i, b) ∈ joined two_metrics_db ∅ Haiku.haiku_query).
  { intros b Hb. apply haiku_joined. split_and!.
    - left.
    - done.
    - exists (VUuid 1%N). split; [done|].
      apply elem_of_cons in Hb as [->|Hb]; [done|].
      by apply list_elem_of_singleton in Hb as ->.
    - done. }
  assert (b1 !! "metric_name" = Some (VString m)) as H1.
  { apply (Hm two_metrics_db i). apply Hkept. left. }
  assert (b2 !! "metric_name" = Some (VString m)) as H2.
  { apply (Hm two_metrics_db i). apply Hkept. right. left. }
  vm_compute in H1, H2. congruence.
Qed.

(** *** The inference calls of the NER notebook *)

Section conll_inference.
Variable gateway : nat → inference_request → outcome Conll.InferenceResponse.
Variable random : nat → Qc.
Implicit Types (text : string) (variant_name : option string) (dryrun : bool).

(** X9. [get_entities] returns the response of the first attempt that
    succeeds among the three allowed: it returns a response exactly when one
    of the first three calls succeeds and all the calls before it failed. *)
Theorem get_entities_first_success text variant_name dryrun w r :
  let req := InferenceRequest "extract_entities" (UserText text) variant_name dryrun None in
  (Conll.get_entities gateway random text variant_name dryrun w).1 = Return (Some r) ↔
  ∃ k, (k < 3)%nat ∧ gateway (calls w + k) req = Return r ∧
       ∀ j, (j < k)%nat → ∃ e, gateway (calls w + j) req = Raise e.
Proof.
  intros req. rewrite get_entities_run.
  destruct (Conll._get_entities gateway random text variant_name dryrun w)
    as [o w'] eqn:Hrun.
  unfold Conll._get_entities, retry in Hrun.
  apply retry_from_inference in Hrun
    as (sleeps & Hlen & _ & _ & _ & Hsl & Hout).
  simpl in Hlen. fold req in Hout, Hsl.
  assert (Hfailed : ∀ j, (j < length sleeps)%nat →
            ∃ e, gateway (calls w + j) req = Raise e).
  { intros j Hj. destruct (lookup_lt_is_Some_2 sleeps j Hj) as [s Hs].
    by apply Hsl in Hs as [_ ?]. }
  destruct o as [r'|e']; simpl; split.
  - intros [= ->]. exists (length sleeps). split_and!; [lia|done|done].
  - intros (k & Hk & Hok & Hbefore). f_equal. f_equal.
    destruct (Nat.lt_trichotomy k (length sleeps)) as [Hlt|[->|Hgt]].
    + destruct (Hfailed k Hlt) as [e He]. congruence.
    + congruence.
    + destruct (Hbefore _ Hgt) as [e He]. congruence.
  - done.
  - intros (k & Hk & Hok & Hbefore). exfalso.
    destruct Hout as (Hl & e & -> & He). simpl in Hl, He.
    destruct (decide (k = 2%nat)) as [->|Hne]; [congruence|].
    destruct (Hfailed k) as [e0 He0]; [lia|]. congruence.
Qed.

(** The events of [get_entities]: the attempts, then the printed error when
    all of them failed. *)
Lemma get_entities_trace text variant_name dryrun w :
  ∃ sleeps tail,
    trace (Conll.get_entities gateway random text variant_name dryrun w).2 =
      trace w ++ attempts_trace
        (InferenceRequest "extract_entities" (UserText text) variant_name dryrun None)
        sleeps ++ tail ∧
    (tail = [] ∨ ∃ line, tail = [EvPrint line]).
Proof.
  rewrite get_entities_run.
  destruct (Conll._get_entities gateway random text variant_name dryrun w)
    as [o w'] eqn:Hrun.
  unfold Conll._get_entities, retry in Hrun.
  apply retry_from_inference in Hrun as (sleeps & _ & Htr & _).
  exists sleeps. destruct o as [r|e]; simpl.
  - exists []. split; [by rewrite app_nil_r|by left].
  - eexists [_]. split; [by rewrite Htr, <-app_assoc|right; by eexists].
Qed.

Lemma elem_of_attempts_trace req sleeps r :
  EvInference r ∈ attempts_trace req sleeps → r = req.
Proof.
  unfold attempts_trace. intros [[= ->]|Hin]%elem_of_cons; [done|].
  induction sleeps as [|s sleeps IH]; [by apply elem_of_nil in Hin|].
  rewrite fmap_cons, concat_cons in Hin.
  apply elem_of_app in Hin as [Hin|Hin]; [|by apply IH].
  apply elem_of_cons in Hin as [[=]|Hin].
  by apply list_elem_of_singleton in Hin as [= ->].
Qed.

Lemma inference_of_get_entities text variant_name dryrun w0 r :
  EvInference r ∈ events_of (Conll.get_entities gateway random text variant_name dryrun) w0 →
  r = InferenceRequest "extract_entities" (UserText text) variant_name dryrun None.
Proof.
  destruct (get_entities_trace text variant_name dryrun w0)
    as (sleeps & tail & Htr & Htail).
  rewrite (events_of_trace _ _ _ Htr).
  intros [Hin|Hin]%elem_of_app; [by eapply elem_of_attempts_trace|].
  destruct Htail as [->|[line ->]]; [by apply elem_of_nil in Hin|].
  by apply list_elem_of_singleton in Hin.
Qed.

Lemma get_entities_extends text variant_name dryrun w0 :
  trace (Conll.get_entities gateway random text variant_name dryrun w0).2 =
  trace w0 ++ events_of (Conll.get_entities gateway random text variant_name dryrun) w0.
Proof.
  destruct (get_entities_trace text variant_name dryrun w0)
    as (sleeps & tail & Htr & Htail).
  by rewrite (events_of_trace _ _ _ Htr).
Qed.

(** X10. The test fan-out never makes a call that is not a dry run: every
    inference request of [make_inference] in the test cells is the
    [extract_entities] request for the task's own text with the pinned variant
    and [dryrun=True]; the requests of the training fan-out have no variant
    and [dryrun=False]. *)
Theorem fan_out_requests text variant_name w r :
  (EvInference r ∈ events_of
     (Conll.make_inference_dryrun gateway random text variant_name) w →
   r = InferenceRequest "extract_entities" (UserText text) variant_name true None) ∧
  (EvInference r ∈ events_of (Conll.make_inference gateway random text) w →
   r = InferenceRequest "extract_entities" (UserText text) None false None).
Proof.
  split; intros Hin.
  - unfold Conll.make_inference_dryrun in Hin.
    rewrite (async_with_semaphore_events _ _ _
               (get_entities_extends text variant_name true)) in Hin.
    apply elem_of_cons in Hin as [[=]|Hin].
    apply elem_of_app in Hin as [Hin|Hin].
    + by apply inference_of_get_entities in Hin.
    + by apply list_elem_of_singleton in Hin.
  - unfold Conll.make_inference in Hin.
    rewrite (async_with_semaphore_events _ _ _
               (get_entities_extends text None false)) in Hin.
    apply elem_of_cons in Hin as [[=]|Hin].
    apply elem_of_app in Hin as [Hin|Hin].
    + by apply inference_of_get_entities in Hin.
    + by apply list_elem_of_singleton in Hin.
Qed.
End conll_inference.

(** *** The feedback cells *)

Lemma as_completed_trace {A} (ifs : list (M A)) (evs : nat → list event) order w res w' :
  (∀ i f w0, ifs !! i = Some f → trace (f w0).2 = trace w0 ++ evs i) →
  as_completed order ifs w = (Return res, w') →
  trace w' = trace w ++ concat (evs <$> filter (λ i, i < length ifs)%nat order).
Proof.
  intros Hevs. revert w res. induction order as [|i order IH]; intros w res; simpl.
  - unfold ret. intros [= <- <-]. by rewrite app_nil_r.
  - rewrite filter_cons. destruct (ifs !! i) as [f|] eqn:Hi.
    + apply lookup_lt_Some in Hi as Hlt. rewrite decide_True by done.
      unfold bind at 1. pose proof (Hevs i f w Hi) as Hf.
      destruct (f w) as [[a|e] w1]; [|done]. unfold bind at 1.
      destruct (as_completed order ifs w1) as [[rest|e] w2] eqn:Hrest; [|done].
      unfold ret. intros [= <- <-]. rewrite (IH _ _ Hrest). simpl in Hf.
      by rewrite Hf, fmap_cons, concat_cons, <-app_assoc.
    + apply lookup_ge_None in Hi. rewrite decide_False by lia. apply IH.
Qed.

Lemma tqdm_gather_trace {A} (fs : list (M A)) (evs : nat → list event) order w rs w' :
  (∀ i f w0, fs !! i = Some f → trace (f w0).2 = trace w0 ++ evs i) →
  order ≡ₚ seq 0 (length fs) →
  tqdm_gather order fs w = (Return rs, w') →
  events_of (tqdm_gather order fs) w = concat (evs <$> order) ∧
  concat (evs <$> order) ≡ₚ concat (evs <$> seq 0 (length fs)).
Proof.
  intros Hevs Horder Hrun. split; [|by rewrite Horder].
  apply events_of_trace. rewrite Hrun. simpl.
  unfold tqdm_gather, bind in Hrun.
  destruct (as_completed order _ w) as [[res|e] w1] eqn:Hres; [|done].
  injection Hrun as _ <-.
  assert (∀ i f w0, imap wrap_awaitable fs !! i = Some f →
            trace (f w0).2 = trace w0 ++ evs i) as Hwrapped.
  { intros i f w0 Hi. rewrite list_lookup_imap in Hi.
    destruct (fs !! i) as [f0|] eqn:Hf0; [|done]. injection Hi as <-.
    pose proof (Hevs i f0 w0 Hf0) as Hf.
    unfold wrap_awaitable, bind, ret. by destruct (f0 w0) as [[a|e] w2]. }
  rewrite (as_completed_trace _ evs _ _ _ _ Hwrapped Hres).
  rewrite length_imap. rewrite filter_all; [done|].
  intros i Hi. rewrite Horder in Hi. apply elem_of_seq in Hi. lia.
Qed.


Lemma concat_fmap_seq {B C} (f : B → list C) (l : list B) (d : B) :
  concat ((λ i, f (default d (l !! i))) <$> seq 0 (length l)) = concat (f <$> l).
Proof.
  f_equal. apply list_eq. intros i. rewrite !list_lookup_fmap.
  destruct (decide (i < length l)%nat) as [Hi|Hi].
  - rewrite lookup_seq_lt by done. simpl.
    destruct (lookup_lt_is_Some_2 l i Hi) as [x Hx]. by rewrite Hx.
  - rewrite lookup_seq_ge by lia. by rewrite lookup_ge_None_2 by lia.
Qed.

Lemma first_failure_Return outcomes :
  (∃ us, first_failure outcomes = Return us) ↔ Forall (λ o, o = Return ()) outcomes.
Proof.
  induction outcomes as [|[[]|e] outcomes IH]; simpl.
  - split; [constructor|by eexists].
  - split.
    + intros [us Hus]. destruct (first_failure outcomes) as [us'|e]; [|done].
      constructor; [done|]. apply IH. by eexists.
    + intros [_ H]%Forall_cons. apply IH in H as [us ->]. by eexists.
  - split; [by intros [us ?]|]. by intros [? _]%Forall_cons.
Qed.

Lemma first_failure_Raise outcomes e :
  first_failure outcomes = Raise e → Raise e ∈ outcomes.
Proof.
  induction outcomes as [|[u|e'] outcomes IH]; simpl; [done| |].
  - destruct (first_failure outcomes) as [us|e'']; [done|].
    intros [= ->]. right. by apply IH.
  - intros [= ->]. left.
Qed.

(** Awaiting calls together returns exactly when every call returns, and
    otherwise raises the failure of one of the calls. *)
Lemma gather_outcome_Return completion outcomes :
  (∃ us, gather_outcome completion outcomes = Return us) ↔
  Forall (λ o, o = Return ()) outcomes.
Proof.
  unfold gather_outcome. rewrite <-first_failure_Return.
  destruct (first_failure (omap _ completion)) as [us'|e] eqn:Hfirst; [done|].
  split; [by intros [us ?]|]. intros Hall%first_failure_Return.
  apply first_failure_Raise, list_elem_of_omap in Hfirst as (i & _ & Hi).
  apply list_elem_of_lookup_2 in Hi.
  by apply (proj1 (Forall_forall _ _) Hall) in Hi.
Qed.

Lemma gather_outcome_Raise completion outcomes e :
  gather_outcome completion outcomes = Raise e →
  ∃ i, outcomes !! i = Some (Raise e).
Proof.
  unfold gather_outcome.
  destruct (first_failure (omap _ completion)) as [us'|e'] eqn:Hfirst.
  - intros Hraise%first_failure_Raise. by apply list_elem_of_lookup in Hraise.
  - intros [= ->].
    apply first_failure_Raise, list_elem_of_omap in Hfirst as (i & _ & Hi).
    by exists i.
Qed.

Section conll_feedback.
Variable upper : string → string.
Variable feedback_gateway : nat → feedback_request → outcome unit.
Variable completion : nat → list nat.

Lemma evaluate_send_feedback_trace r gold w :
  trace (Conll.evaluate_send_feedback upper feedback_gateway completion
           (Some r) gold w).2 =
    trace w ++ [EvAcquire; EvGather (feedback_requests upper r gold); EvRelease].
Proof.
  unfold Conll.evaluate_send_feedback, feedback_requests.
  destruct (Conll.evaluate upper (Some r) gold) as [[valid_json matched] jaccard].
  unfold async_with_semaphore, bind, try_except, ret, raise, emit, gather_feedback.
  cbn [fst snd trace]. destruct (gather_outcome _ _); cbn [fst snd trace];
    by rewrite <-!app_assoc.
Qed.

(** X11. [evaluate_send_feedback] on a response makes exactly four feedback
    calls, awaited together between one acquire and one release of the
    semaphore: valid_json, exact_match, jaccard_similarity and demonstration,
    carrying the three scores of [evaluate] and the gold output, all on the
    response's inference id. It returns exactly when the four calls succeed,
    and releases the semaphore when one fails; the exception that escapes
    is then the failure of one of the four calls. On an absent response it
    raises [AttributeError] inside the hold, having sent nothing. *)
Theorem evaluate_send_feedback_run r gold w :
  let run := Conll.evaluate_send_feedback upper feedback_gateway completion
               (Some r) gold w in
  events_of (Conll.evaluate_send_feedback upper feedback_gateway completion
               (Some r) gold) w =
    [EvAcquire; EvGather (feedback_requests upper r gold); EvRelease] ∧
  feedbacks run.2 = (feedbacks w + 4)%nat ∧
  (run.1 = Return () ↔
   ∀ i fb, feedback_requests upper r gold !! i = Some fb →
           feedback_gateway (feedbacks w + i) fb = Return ()) ∧
  (∀ e, run.1 = Raise e →
        ∃ i fb, feedback_requests upper r gold !! i = Some fb ∧
                feedback_gateway (feedbacks w + i) fb = Raise e) ∧
  (Conll.evaluate_send_feedback upper feedback_gateway completion None gold w).1 =
    Raise (PyError "AttributeError"
             "'NoneType' object has no attribute 'inference_id'") ∧
  events_of (Conll.evaluate_send_feedback upper feedback_gateway completion
               None gold) w =
    [EvAcquire; EvRelease].
Proof.
  split; [apply events_of_trace, evaluate_send_feedback_trace|].
  split; [|split; [|split; [|split]]].
  - unfold Conll.evaluate_send_feedback.
    destruct (Conll.evaluate upper (Some r) gold) as [[valid_json matched] jaccard].
    unfold async_with_semaphore, bind, try_except, ret, raise, emit, gather_feedback.
    cbn [fst snd trace feedbacks]. by destruct (gather_outcome _ _).
  - unfold Conll.evaluate_send_feedback, feedback_requests.
    destruct (Conll.evaluate upper (Some r) gold) as [[valid_json matched] jaccard].
    unfold async_with_semaphore, bind, try_except, ret, raise, emit, gather_feedback.
    cbn [imap length fst snd feedbacks].
    set (outcomes := [_; _; _; _]).
    pose proof (gather_outcome_Return (completion (feedbacks w)) outcomes) as Hall.
    destruct (gather_outcome _ outcomes) as [us|e] eqn:Hff; cbn [fst].
    + split; [intros _|done].
      assert (Forall (λ o, o = Return ()) outcomes) as Hok
        by (apply Hall; by eexists).
      subst outcomes.
      apply Forall_cons in Hok as [H0 Hok]. apply Forall_cons in Hok as [H1 Hok].
      apply Forall_cons in Hok as [H2 Hok]. apply Forall_cons in Hok as [H3 _].
      intros [|[|[|[|i]]]] fb [= <-]; simpl in *; done.
    + split; [done|]. intros Hok.
      assert (Forall (λ o, o = Return ()) outcomes) as Hok'.
      { subst outcomes. repeat constructor.
        - apply (Hok 0%nat). done.
        - apply (Hok 1%nat). done.
        - apply (Hok 2%nat). done.
        - apply (Hok 3%nat). done. }
      apply Hall in Hok' as [us Hus]. congruence.
  - intros e. unfold Conll.evaluate_send_feedback, feedback_requests.
    destruct (Conll.evaluate upper (Some r) gold) as [[valid_json matched] jaccard].
    unfold async_with_semaphore, bind, try_except, ret, raise, emit, gather_feedback.
    cbn [imap length fst snd feedbacks].
    set (outcomes := [_; _; _; _]).
    destruct (gather_outcome _ outcomes) as [us|e'] eqn:Hff; cbn [fst]; [done|].
    intros [= ->]. apply gather_outcome_Raise in Hff as [i Hi]. subst outcomes.
    destruct i as [|[|[|[|i]]]]; try done; injection Hi as Hi;
      [exists 0%nat|exists 1%nat|exists 2%nat|exists 3%nat];
      eexists; (split; [reflexivity|exact Hi]).
  - unfold Conll.evaluate_send_feedback.
    destruct (Conll.evaluate upper None gold) as [[valid_json matched] jaccard].
    done.
  - apply events_of_trace. unfold Conll.evaluate_send_feedback.
    destruct (Conll.evaluate upper None gold) as [[valid_json matched] jaccard].
    simpl. by rewrite <-app_assoc.
Qed.

Lemma feedback_tasks_present responses train_output :
  Conll.feedback_tasks upper feedback_gateway completion responses train_output =
  (λ '(r, gold), Conll.evaluate_send_feedback upper feedback_gateway completion (Some r) gold) <$>
  present_pairs Conll.NUM_TRAIN_PREDICTIONS responses train_output.
Proof.
  unfold Conll.feedback_tasks, present_pairs.
  induction (zip responses _) as [|[[r|] gold] l IH]; [done| |].
  - rewrite filter_cons_True by done. csimpl. by rewrite IH.
  - rewrite filter_cons_False by (by intros ?). csimpl. exact IH.
Qed.

Lemma elem_of_present_pairs {R G} n (responses : list (option R)) (golds : list G) r gold :
  (r, gold) ∈ present_pairs n responses golds ↔
  ∃ i, (i < n)%nat ∧ responses !! i = Some (Some r) ∧ golds !! i = Some gold.
Proof.
  unfold present_pairs. rewrite list_elem_of_omap. split.
  - intros ([[r'|] gold'] & Hin & Heq); [|done]. injection Heq as -> ->.
    apply list_elem_of_lookup in Hin as [i Hi].
    apply zip_lookup_Some in Hi as [Hr Hg].
    apply lookup_take_Some in Hg as [Hg Hlt]. by exists i.
  - intros (i & Hlt & Hr & Hg). exists (Some r, gold). split; [|done].
    apply list_elem_of_lookup. exists i.
    rewrite lookup_zip_with, Hr. simpl. by rewrite lookup_take_lt, Hg.
Qed.

(** X12. The feedback cell of the NER notebook, when it returns, has sent
    feedback exactly once for every response that is present among the first
    [NUM_TRAIN_PREDICTIONS] positions, scored against the gold output of the
    same position, and nothing for the absent responses: its events are, up
    to the order in which the tasks ran, one acquire, one group of four
    calls and one release per present response. *)
Theorem feedback_once_per_response order responses train_output w rs :
  order ≡ₚ seq 0 (length (present_pairs Conll.NUM_TRAIN_PREDICTIONS responses train_output)) →
  (Conll.send_all_feedback upper feedback_gateway completion order responses train_output w).1 =
    Return rs →
  events_of (Conll.send_all_feedback upper feedback_gateway completion order responses train_output) w ≡ₚ
  concat ((λ '(r, gold), [EvAcquire; EvGather (feedback_requests upper r gold); EvRelease]) <$>
          present_pairs Conll.NUM_TRAIN_PREDICTIONS responses train_output) ∧
  ∀ r gold,
    (r, gold) ∈ present_pairs Conll.NUM_TRAIN_PREDICTIONS responses train_output ↔
    ∃ i, (i < Conll.NUM_TRAIN_PREDICTIONS)%nat ∧
         responses !! i = Some (Some r) ∧ train_output !! i = Some gold.
Proof.
  intros Horder Hrun. split; [|intros r gold; apply elem_of_present_pairs].
  unfold Conll.send_all_feedback in *.
  rewrite feedback_tasks_present in *.
  set (pairs := present_pairs _ _ _) in *.
  set (block := λ '(r, gold), [EvAcquire; EvGather (feedback_requests upper r gold); EvRelease]).
  destruct (tqdm_gather order _ w) as [o w'] eqn:Hgather. simpl in Hrun. subst o.
  pose (d := (Conll.Build_InferenceResponse 0%N 0%N "" (Conll.Build_JsonInferenceOutput "" None),
              @nil (string * list string))).
  assert (events_of (tqdm_gather order
            ((λ '(r, gold), Conll.evaluate_send_feedback upper feedback_gateway completion
                              (Some r) gold) <$> pairs)) w =
            concat ((λ i, block (default d (pairs !! i))) <$> order) ∧
          concat ((λ i, block (default d (pairs !! i))) <$> order) ≡ₚ
            concat ((λ i, block (default d (pairs !! i))) <$>
                    seq 0 (length ((λ '(r, gold),
                       Conll.evaluate_send_feedback upper feedback_gateway completion
                         (Some r) gold) <$> pairs)))) as [Hev Hperm].
  { apply (tqdm_gather_trace _ _ order w rs w'); [|by rewrite length_fmap|done].
    intros i f w0 Hi. rewrite list_lookup_fmap in Hi.
    destruct (pairs !! i) as [[r gold]|]; [|done]. injection Hi as <-.
    apply evaluate_send_feedback_trace. }
  rewrite Hev, Hperm, length_fmap. by rewrite (concat_fmap_seq block pairs d).
Qed.

End conll_feedback.

Lemma feedback_once_per_response_witness :
  events_of (Conll.send_all_feedback str_upper accepting last_first [1; 0]%nat
               [Some sample_response; None; Some sample_response]
               [[("PER", ["a"])]; []; []]) start ≡ₚ
  concat ((λ '(r, gold), [EvAcquire; EvGather (feedback_requests str_upper r gold); EvRelease]) <$>
          [(sample_response, [("PER", ["a"])]); (sample_response, [])]).
Proof.
  apply (proj1 (feedback_once_per_response str_upper accepting last_first [1; 0]%nat
           [Some sample_response; None; Some sample_response]
           [[("PER", ["a"])]; []; []] start [(); ()] (perm_swap _ _ _) eq_refl)).
Defined.

Section haiku_feedback.
Variable feedback_gateway : nat → feedback_request → outcome unit.

(** X19. The feedback cell of the haiku notebook, when it returns, has made
    exactly one feedback call per result that is present, on the metric
    haiku_score with the result's score and inference id, none for a failed
    task, and it never touches the semaphore: the calls are not rate
    limited. *)
Theorem haiku_feedback_once_per_result order results w rs :
  order ≡ₚ seq 0 (length (omap id results)) →
  (Haiku.send_all_feedback feedback_gateway order results w).1 = Return rs →
  events_of (Haiku.send_all_feedback feedback_gateway order results) w ≡ₚ
  (λ result, EvFeedback (haiku_feedback_request result)) <$> omap id results.
Proof.
  intros Horder Hrun. unfold Haiku.send_all_feedback in *.
  set (present := omap id results) in *.
  destruct (tqdm_gather order _ w) as [o w'] eqn:Hgather. simpl in Hrun. subst o.
  pose (d := (EmptyString, JNull, 0%N) : string * json * UUID).
  pose (block := λ result, [EvFeedback (haiku_feedback_request result)]).
  assert (events_of (tqdm_gather order
            ((λ result : string * json * UUID,
                Haiku.send_haiku_feedback feedback_gateway result.2 result.1.2) <$>
             present)) w =
            concat ((λ i, block (default d (present !! i))) <$> order) ∧
          concat ((λ i, block (default d (present !! i))) <$> order) ≡ₚ
            concat ((λ i, block (default d (present !! i))) <$>
                    seq 0 (length ((λ result : string * json * UUID,
                       Haiku.send_haiku_feedback feedback_gateway result.2 result.1.2) <$>
                     present)))) as [Hev Hperm].
  { apply (tqdm_gather_trace _ _ order w rs w'); [|by rewrite length_fmap|done].
    intros i f w0 Hi. rewrite list_lookup_fmap in Hi.
    destruct (present !! i) as [result|]; [|done]. by injection Hi as <-. }
  rewrite Hev, Hperm, length_fmap, (concat_fmap_seq block present d).
  clear. induction present as [|result present IH]; [done|]. csimpl. by rewrite IH.
Qed.
End haiku_feedback.

Lemma haiku_feedback_once_per_result_witness :
  events_of (Haiku.send_all_feedback accepting [1; 0]%nat
               [Some ("An old silent pond", JBool true, 5%N); None;
                Some ("A frog jumps", JBool false, 6%N)]) start ≡ₚ
  [EvFeedback (FeedbackRequest "haiku_score" (JsonValue (JBool true)) 5%N);
   EvFeedback (FeedbackRequest "haiku_score" (JsonValue (JBool false)) 6%N)].
Proof.
  apply (haiku_feedback_once_per_result accepting [1; 0]%nat
           [Some ("An old silent pond", JBool true, 5%N); None;
            Some ("A frog jumps", JBool false, 6%N)] start [(); ()]).
  - apply perm_swap.
  - vm_compute. reflexivity.
Defined.

(** *** The averages of a variant *)

Lemma foldl_Qcplus (a : Qc) (xs : list Qc) :
  foldl Qcplus a xs = (a + foldr Qcplus 0%Qc xs)%Qc.
Proof.
  revert a. induction xs as [|x xs IH]; intros a; simpl.
  - by rewrite Qcplus_0_r.
  - by rewrite IH, Qcplus_assoc.
Qed.

Lemma sum_Qc_le {B} (f g : B → Qc) (l : list B) :
  (∀ x, x ∈ l → (f x ≤ g x)%Qc) →
  (foldl Qcplus 0%Qc (f <$> l) ≤ foldl Qcplus 0%Qc (g <$> l))%Qc.
Proof.
  rewrite !foldl_Qcplus, !Qcplus_0_l.
  induction l as [|x l IH]; intros Hle; csimpl; [apply Qcle_refl|].
  apply Qcplus_le_compat; [apply Hle; left|].
  apply IH. intros y Hy. apply Hle. by right.
Qed.

Lemma sum_Qc_const {B} (l : list B) (c : Z) :
  foldl Qcplus 0%Qc ((λ _, Qc_of_Z c) <$> l) = Qc_of_Z (Z.of_nat (length l) * c).
Proof.
  rewrite foldl_Qcplus, Qcplus_0_l.
  induction l as [|x l IH]; csimpl; [by rewrite Z.mul_0_l, Z2Qc_inj_0|].
  rewrite IH, <-Z2Qc_inj_add. f_equal. lia.
Qed.

Lemma Qcdiv_le_compat (a b d : Qc) : (0 < d)%Qc → (a ≤ b)%Qc → (a / d ≤ b / d)%Qc.
Proof.
  intros Hd Hab. assert (d ≠ 0%Qc) as Hne by (by apply not_symmetry, Qclt_not_eq).
  by rewrite (Qcmult_le_mono_pos_l _ _ _ Hd), !Qcmult_div_r.
Qed.

Section averages.
Variable upper : string → string.

Lemma evaluate_numbers (response : option Conll.InferenceResponse) gold :
  let score := Conll.evaluate upper response gold in
  (0 ≤ Conll.as_number score.1.2)%Qc ∧
  (Conll.as_number score.1.2 ≤ Conll.as_number score.1.1)%Qc ∧
  (Conll.as_number score.1.1 ≤ 1)%Qc ∧
  (0 ≤ score.2)%Qc ∧ (score.2 ≤ Conll.as_number score.1.1)%Qc.
Proof.
  unfold Conll.evaluate.
  destruct (match response with Some r => _ | None => None end) as [p|]; simpl;
    [|by repeat split].
  case_bool_decide as Hp; [|by repeat split].
  assert (0 ≤ Conll.jaccard_similarity upper p gold ≤ 1)%Qc as [H0 H1].
  { destruct (jaccard_similarity_cases upper p gold) as [[_ ->]|[Hpos ->]].
    - split; discriminate.
    - apply Qc_ratio_range; [done|apply sum_min_le_max]. }
  split_and!; try done; by destruct (Conll.exact_match upper p gold).
Qed.

Lemma average_Return (xs : list Qc) :
  xs ≠ [] →
  Conll.average xs =
    Return (foldl Qcplus 0%Qc xs / Qc_of_Z (Z.of_nat (length xs)))%Qc.
Proof.
  intros Hxs. unfold Conll.average. rewrite decide_False; [done|].
  by destruct xs.
Qed.

(** X13. The three averages printed for a variant: with no scored pair (no
    response or no gold output) the first division raises
    [ZeroDivisionError]; otherwise the three averages are between 0 and 1,
    and neither the exact-match average nor the Jaccard average exceeds the
    well-formed-JSON average. *)
Theorem variant_averages_consistent responses test_output :
  ((responses = [] ∨ test_output = []) →
   Conll.variant_averages upper responses test_output =
     Raise (PyError "ZeroDivisionError" "division by zero")) ∧
  (responses ≠ [] → test_output ≠ [] →
   ∃ well_formed jaccard matched,
     Conll.variant_averages upper responses test_output =
       Return (well_formed, jaccard, matched) ∧
     (0 ≤ matched)%Qc ∧ (matched ≤ well_formed)%Qc ∧ (well_formed ≤ 1)%Qc ∧
     (0 ≤ jaccard)%Qc ∧ (jaccard ≤ well_formed)%Qc).
Proof.
  unfold Conll.variant_averages. split.
  - intros Hempty.
    assert (Conll.variant_scores upper responses test_output = []) as ->; [|done].
    unfold Conll.variant_scores. destruct Hempty as [-> | ->]; [done|].
    by destruct responses.
  - intros Hr Ho.
    set (scores := Conll.variant_scores upper responses test_output).
    assert (scores ≠ []) as Hne.
    { subst scores. unfold Conll.variant_scores.
      by destruct responses, test_output. }
    assert (∀ score, score ∈ scores →
              (0 ≤ Conll.as_number score.1.2)%Qc ∧
              (Conll.as_number score.1.2 ≤ Conll.as_number score.1.1)%Qc ∧
              (Conll.as_number score.1.1 ≤ 1)%Qc ∧
              (0 ≤ score.2)%Qc ∧ (score.2 ≤ Conll.as_number score.1.1)%Qc) as Hscore.
    { intros score Hin. subst scores. unfold Conll.variant_scores in Hin.
      apply list_elem_of_fmap in Hin as ([response gold] & -> & _).
      apply evaluate_numbers. }
    rewrite !average_Return by (by destruct scores).
    eexists _, _, _. split; [done|]. rewrite !length_fmap.
    assert (0 < Qc_of_Z (Z.of_nat (length scores)))%Qc as Hpos.
    { apply Qc_of_nat_pos. destruct scores; [done|simpl; lia]. }
    assert ((foldl Qcplus 0 ((λ _, Qc_of_Z 0) <$> scores) /
             Qc_of_Z (Z.of_nat (length scores)))%Qc = 0%Qc) as Hzero.
    { rewrite sum_Qc_const, Z.mul_0_r, Z2Qc_inj_0. unfold Qcdiv.
      by rewrite Qcmult_0_l. }
    assert ((foldl Qcplus 0 ((λ _, Qc_of_Z 1) <$> scores) /
             Qc_of_Z (Z.of_nat (length scores)))%Qc = 1%Qc) as Hone.
    { rewrite sum_Qc_const, Z.mul_1_r.
      rewrite <-(Qcmult_1_l (Qc_of_Z _)) at 1. apply Qcdiv_mult_l.
      by apply not_symmetry, Qclt_not_eq. }
    assert (∀ f g : bool * bool * Qc → Qc,
              (∀ score, score ∈ scores → (f score ≤ g score)%Qc) →
              (foldl Qcplus 0 (f <$> scores) / Qc_of_Z (Z.of_nat (length scores)) ≤
               foldl Qcplus 0 (g <$> scores) / Qc_of_Z (Z.of_nat (length scores)))%Qc)
      as Hle.
    { intros f g Hfg. apply Qcdiv_le_compat; [done|]. by apply sum_Qc_le. }
    split_and!.
    + rewrite <-Hzero at 1. apply Hle.
      intros score Hin. rewrite Z2Qc_inj_0. apply Hscore, Hin.
    + apply Hle. intros score Hin. apply Hscore, Hin.
    + rewrite <-Hone. apply Hle.
      intros score Hin. rewrite Z2Qc_inj_1. apply Hscore, Hin.
    + rewrite <-Hzero at 1. apply Hle.
      intros score Hin. rewrite Z2Qc_inj_0. apply Hscore, Hin.
    + apply Hle. intros score Hin. apply Hscore, Hin.
Qed.
End averages.

(** *** The lines of a haiku *)

Lemma split_lines_nonempty s : Haiku.split_lines s ≠ [].
Proof.
  destruct s as [|a s]; simpl; [done|].
  destruct (Ascii.eqb a Haiku.newline); [done|].
  by destruct (Haiku.split_lines s).
Qed.

Lemma join_lines_cons line lines :
  lines ≠ [] →
  Haiku.join_lines (line :: lines) =
    line +:+ String Haiku.newline (Haiku.join_lines lines).
Proof. by destruct lines. Qed.

Lemma join_split_lines s : Haiku.join_lines (Haiku.split_lines s) = s.
Proof.
  induction s as [|a s IH]; [done|]. cbn [Haiku.split_lines].
  destruct (Ascii.eqb a Haiku.newline) eqn:Ha.
  - apply Ascii.eqb_eq in Ha as ->.
    rewrite join_lines_cons by apply split_lines_nonempty. by rewrite IH.
  - pose proof (split_lines_nonempty s) as Hne.
    destruct (Haiku.split_lines s) as [|line [|line' lines]]; [done| |].
    + simpl in *. by rewrite IH.
    + rewrite join_lines_cons by done. rewrite join_lines_cons in IH by done.
      simpl. by rewrite <-IH.
Qed.

Lemma split_lines_one_line s : one_line s = true → Haiku.split_lines s = [s].
Proof.
  induction s as [|a s IH]; [done|]. simpl.
  intros [Ha Hs]%andb_true_iff. apply negb_true_iff in Ha. rewrite Ha.
  by rewrite IH.
Qed.

Lemma split_lines_app line rest :
  one_line line = true →
  Haiku.split_lines (line +:+ String Haiku.newline rest) =
    line :: Haiku.split_lines rest.
Proof.
  induction line as [|a line IH]; intros Hline.
  - reflexivity.
  - simpl in Hline. apply andb_true_iff in Hline as [Ha Hline].
    apply negb_true_iff in Ha. 
    change (String a line +:+ ?s) with (String a (line +:+ s)).
    cbn [Haiku.split_lines]. rewrite Ha, IH by done. done.
Qed.

Lemma split_join_lines lines :
  lines ≠ [] → Forall (λ line, one_line line = true) lines →
  Haiku.split_lines (Haiku.join_lines lines) = lines.
Proof.
  induction lines as [|line lines IH]; [done|]. intros _ [Hline Hlines]%Forall_cons.
  destruct lines as [|line' lines].
  - by apply split_lines_one_line.
  - rewrite join_lines_cons by done. rewrite split_lines_app by done.
    by rewrite IH.
Qed.

Lemma split_lines_one_line_each s :
  Forall (λ line, one_line line = true) (Haiku.split_lines s).
Proof.
  induction s as [|a s IH]; [by repeat constructor|]. cbn [Haiku.split_lines].
  destruct (Ascii.eqb a Haiku.newline) eqn:Ha; [by constructor|].
  destruct (Haiku.split_lines s) as [|line lines].
  - repeat constructor. simpl. by rewrite Ha.
  - apply Forall_cons in IH as [Hline Hlines]. constructor; [|done].
    simpl. by rewrite Ha.
Qed.

(** X17. Splitting into lines and joining with line breaks are inverse to
    each other: joining the lines of a string gives the string back, and
    splitting the join of a non-empty list of lines that hold no line break
    gives the list back; the lines of a string are never an empty list, and
    none of them holds a line break. *)
Theorem lines_round_trip s lines :
  Haiku.join_lines (Haiku.split_lines s) = s ∧
  (lines ≠ [] → Forall (λ line, one_line line = true) lines →
   Haiku.split_lines (Haiku.join_lines lines) = lines) ∧
  Haiku.split_lines s ≠ [] ∧
  Forall (λ line, one_line line = true) (Haiku.split_lines s).
Proof.
  split_and!.
  - apply join_split_lines.
  - apply split_join_lines.
  - apply split_lines_nonempty.
  - apply split_lines_one_line_each.
Qed.

Lemma string_app_assoc (s1 s2 s3 : string) : (s1 +:+ s2) +:+ s3 = s1 +:+ (s2 +:+ s3).
Proof.
  induction s1 as [|a s1 IH]; [done|].
  change (String a ((s1 +:+ s2) +:+ s3) = String a (s1 +:+ (s2 +:+ s3))).
  by rewrite IH.
Qed.

Lemma join_lines_app l1 l2 :
  l2 ≠ [] → ∃ prefix, Haiku.join_lines (l1 ++ l2) = prefix +:+ Haiku.join_lines l2.
Proof.
  intros Hl2. induction l1 as [|line l1 [prefix IH]]; [by exists EmptyString|].
  exists (line +:+ String Haiku.newline prefix).
  rewrite <-app_comm_cons, join_lines_cons by (by destruct l1, l2).
  rewrite IH, string_app_assoc. done.
Qed.

Lemma last_three_nonempty {A} (l : list A) : l ≠ [] → Haiku.last_three l ≠ [].
Proof.
  unfold Haiku.last_three. intros Hl Hd.
  apply (f_equal length) in Hd. rewrite length_drop in Hd.
  destruct l; [done|]. simpl in Hd. lia.
Qed.

(** X18. The haiku [write_grade_haiku] extracts from a text is the end of
    that text: a suffix of it, made of exactly its last three lines, so of
    one to three lines, and the whole text when the text has at most three
    lines. *)
Theorem haiku_text_last_lines s :
  let haiku_text := Haiku.join_lines (Haiku.last_three (Haiku.split_lines s)) in
  (∃ prefix, s = prefix +:+ haiku_text) ∧
  Haiku.split_lines haiku_text = Haiku.last_three (Haiku.split_lines s) ∧
  (1 ≤ length (Haiku.split_lines haiku_text) ≤ 3)%nat ∧
  ((length (Haiku.split_lines s) ≤ 3)%nat → haiku_text = s).
Proof.
  intros haiku_text. subst haiku_text.
  pose proof (split_lines_nonempty s) as Hne.
  pose proof (last_three_nonempty _ Hne) as Hne3.
  assert (Haiku.split_lines (Haiku.join_lines (Haiku.last_three (Haiku.split_lines s))) =
          Haiku.last_three (Haiku.split_lines s)) as Hsplit.
  { apply split_join_lines; [done|]. unfold Haiku.last_three.
    apply Forall_drop, split_lines_one_line_each. }
  split_and!.
  - destruct (join_lines_app (take (length (Haiku.split_lines s) - 3) (Haiku.split_lines s))
                (Haiku.last_three (Haiku.split_lines s)) Hne3) as [prefix Hp].
    exists prefix. rewrite <-Hp. unfold Haiku.last_three.
    by rewrite take_drop, join_split_lines.
  - done.
  - rewrite Hsplit. destruct (Haiku.last_three _); [done|simpl; lia].
  - rewrite Hsplit. unfold Haiku.last_three. rewrite length_drop. lia.
  - intros Hle. unfold Haiku.last_three.
    replace (length (Haiku.split_lines s) - 3)%nat with 0%nat by lia.
    by rewrite drop_0, join_split_lines.
Qed.

(** *** The haiku task and its batch *)

Section haiku_task.
Variable strip : string → string.
Variable gateway : nat → inference_request → outcome Haiku.InferenceResponse.

(** X14. [write_grade_haiku] returns a result exactly when the first call
    returns a chat response that starts with a text block, the second call,
    made on the last three lines of the stripped text and in the episode of
    the first response, returns a JSON response, and the parsed output of
    that response is an object with a score: the result is then the haiku,
    that score, and the inference id of the first response (not of the
    judge's). *)
Theorem write_grade_haiku_result topic w haiku_text score id :
  (Haiku.write_grade_haiku strip gateway topic w).1 = Return (Some (haiku_text, score, id)) ↔
  ∃ episode variant blocks t judge_id judge_episode judge_variant out,
    gateway (calls w) (write_haiku_request topic) =
      Return (Haiku.ChatInferenceResponse id episode variant (Haiku.Text t :: blocks)) ∧
    haiku_text = Haiku.join_lines (Haiku.last_three (Haiku.split_lines (strip t))) ∧
    gateway (S (calls w)) (judge_haiku_request topic haiku_text episode) =
      Return (Haiku.JsonInferenceResponse judge_id judge_episode judge_variant out) ∧
    Haiku.subscript (Haiku.parsed out) "score" = Return score.
Proof.
  unfold Haiku.write_grade_haiku, write_haiku_request, judge_haiku_request.
  unfold bind, try_except, inference, ret, lift, print, emit. cbn [fst snd calls].
  destruct (gateway (calls w) _) as [[id1 ep1 v1 c1|id1 ep1 v1 o1]|e1] eqn:H1;
    cbn [fst snd calls Haiku.content Haiku.inference_id Haiku.episode_id].
  - destruct c1 as [|[t|name args] blocks]; cbn [Haiku.first_item Haiku.text fst snd calls].
    + split; [done|]. by intros (? & ? & ? & ? & ? & ? & ? & ? & [=] & _).
    + destruct (gateway (S (calls w)) _) as [[id2 ep2 v2 c2|id2 ep2 v2 o2]|e2] eqn:H2;
        cbn [fst snd Haiku.output].
      * split; [done|]. intros (? & ? & ? & ? & ? & ? & ? & ? & [= <- <- <- <- <-] & -> & H2' & _).
        rewrite H2 in H2'. done.
      * destruct (Haiku.subscript (Haiku.parsed o2) "score") as [sc|e] eqn:Hs; cbn [fst].
        -- split.
           ++ intros [= <- <- <-]. by exists ep1, v1, blocks, t, id2, ep2, v2, o2.
           ++ intros (? & ? & ? & ? & ? & ? & ? & ? & [= <- <- <- <- <-] & -> & H2' & Hs').
              rewrite H2 in H2'. injection H2' as <- <- <- <-. rewrite Hs in Hs'.
              by injection Hs' as <-.
        -- split; [done|].
           intros (? & ? & ? & ? & ? & ? & ? & ? & [= <- <- <- <- <-] & -> & H2' & Hs').
           rewrite H2 in H2'. injection H2' as <- <- <- <-. rewrite Hs in Hs'. done.
      * split; [done|].
        intros (? & ? & ? & ? & ? & ? & ? & ? & [= <- <- <- <- <-] & -> & H2' & Hs').
        rewrite H2 in H2'. done.
    + split; [done|]. by intros (? & ? & ? & ? & ? & ? & ? & ? & [=] & _).
  - split; [done|]. by intros (? & ? & ? & ? & ? & ? & ? & ? & [=] & _).
  - split; [done|]. by intros (? & ? & ? & ? & ? & ? & ? & ? & [=] & _).
Qed.

Lemma local_error_class cls msg :
  cls ∈ ["AttributeError"; "IndexError"; "TypeError"; "KeyError"] →
  local_error (PyError cls msg).
Proof. intros Hcls. by exists cls, msg. Qed.

Lemma write_grade_haiku_raises topic w e :
  (Haiku.write_grade_haiku strip gateway topic w).1 = Raise e →
  local_error e ∧ ∃ r, gateway (calls w) (write_haiku_request topic) = Return r.
Proof.
  unfold Haiku.write_grade_haiku, write_haiku_request.
  unfold bind, try_except, inference, ret, lift, print, emit. cbn [fst snd calls].
  destruct (gateway (calls w) _) as [[id1 ep1 v1 c1|id1 ep1 v1 o1]|e1] eqn:H1;
    cbn [fst snd calls Haiku.content Haiku.inference_id Haiku.episode_id];
    [| |done].
  - destruct c1 as [|[t|name args] blocks]; cbn [Haiku.first_item Haiku.text fst snd calls].
    + intros [= <-]. split; [|by eexists].
      apply local_error_class. set_solver.
    + destruct (gateway (S (calls w)) _) as [[id2 ep2 v2 c2|id2 ep2 v2 o2]|e2] eqn:H2;
        cbn [fst snd Haiku.output]; [| |done].
      * intros [= <-]. split; [|by eexists].
        apply local_error_class. set_solver.
      * unfold Haiku.subscript.
        destruct (Haiku.parsed o2) as [[| | | | |members]|]; cbn [fst];
          try (intros [= <-]; split; [|by eexists];
               apply local_error_class; set_solver).
        destruct (Haiku.member "score" members); cbn [fst]; [done|].
        intros [= <-]. split; [|by eexists]. apply local_error_class. set_solver.
    + intros [= <-]. split; [|by eexists].
      apply local_error_class. set_solver.
  - intros [= <-]. split; [|by eexists]. apply local_error_class. set_solver.
Qed.

(** X15. [write_grade_haiku] returns [None] only when one of its two
    inference calls raised, and an exception escapes it only when the first
    call returned: it is then an [AttributeError], [IndexError], [TypeError]
    or [KeyError] raised while reading a response, never a failure of the
    gateway. *)
Theorem write_grade_haiku_failures topic w :
  ((Haiku.write_grade_haiku strip gateway topic w).1 = Return None ↔
   (∃ e, gateway (calls w) (write_haiku_request topic) = Raise e) ∨
   (∃ id episode variant t blocks e,
      gateway (calls w) (write_haiku_request topic) =
        Return (Haiku.ChatInferenceResponse id episode variant (Haiku.Text t :: blocks)) ∧
      gateway (S (calls w))
        (judge_haiku_request topic
           (Haiku.join_lines (Haiku.last_three (Haiku.split_lines (strip t)))) episode) =
        Raise e)) ∧
  (∀ e, (Haiku.write_grade_haiku strip gateway topic w).1 = Raise e →
        local_error e ∧ ∃ r, gateway (calls w) (write_haiku_request topic) = Return r).
Proof.
  split; [|intros e; apply write_grade_haiku_raises].
  unfold Haiku.write_grade_haiku, write_haiku_request, judge_haiku_request.
  unfold bind, try_except, inference, ret, lift, print, emit. cbn [fst snd calls].
  destruct (gateway (calls w) _) as [[id1 ep1 v1 c1|id1 ep1 v1 o1]|e1] eqn:H1;
    cbn [fst snd calls Haiku.content Haiku.inference_id Haiku.episode_id].
  - destruct c1 as [|[t|name args] blocks]; cbn [Haiku.first_item Haiku.text fst snd calls].
    + split; [done|]. intros [[e [=]]|(? & ? & ? & ? & ? & ? & [=] & _)].
    + destruct (gateway (S (calls w)) _) as [[id2 ep2 v2 c2|id2 ep2 v2 o2]|e2] eqn:H2;
        cbn [fst snd Haiku.output].
      * split; [done|].
        intros [[e [=]]|(? & ? & ? & ? & ? & ? & [= <- <- <- <- <-] & H2')]. congruence.
      * destruct (Haiku.subscript (Haiku.parsed o2) "score") as [sc|e] eqn:Hs; cbn [fst].
        -- split; [done|].
           intros [[e [=]]|(? & ? & ? & ? & ? & ? & [= <- <- <- <- <-] & H2')]. congruence.
        -- split; [done|].
           intros [[e' [=]]|(? & ? & ? & ? & ? & ? & [= <- <- <- <- <-] & H2')]. congruence.
      * split; [intros _|done]. right. by exists id1, ep1, v1, t, blocks, e2.
    + split; [done|]. intros [[e [=]]|(? & ? & ? & ? & ? & ? & [=] & _)].
  - split; [done|]. intros [[e [=]]|(? & ? & ? & ? & ? & ? & [=] & _)].
  - split; [intros _|done]. left. by exists e1.
Qed.
End haiku_task.

Lemma as_completed_raises {A} (ifs : list (M A)) order w e :
  (as_completed order ifs w).1 = Raise e →
  ∃ f w0, f ∈ ifs ∧ (f w0).1 = Raise e.
Proof.
  revert w. induction order as [|i order IH]; intros w; simpl; [done|].
  destruct (ifs !! i) as [f|] eqn:Hi; [|apply IH].
  unfold bind at 1. destruct (f w) as [[a|e'] w1] eqn:Hf.
  - unfold bind at 1. destruct (as_completed order ifs w1) as [[rest|e'] w2] eqn:Hrest.
    + done.
    + simpl. intros [= ->]. apply (IH w1). by rewrite Hrest.
  - simpl. intros [= ->]. exists f, w. split; [exact (list_elem_of_lookup_2 _ _ _ Hi)|].
    by rewrite Hf.
Qed.

Lemma tqdm_gather_raises {A} (fs : list (M A)) order w e :
  (tqdm_gather order fs w).1 = Raise e →
  ∃ f w0, f ∈ fs ∧ (f w0).1 = Raise e.
Proof.
  unfold tqdm_gather, bind.
  destruct (as_completed order _ w) as [[res|e'] w1] eqn:Hres; [done|].
  simpl. intros [= ->].
  destruct (as_completed_raises (imap wrap_awaitable fs) order w e)
    as (f & w0 & Hf & Hraise); [by rewrite Hres|].
  apply list_elem_of_lookup in Hf as [i Hi]. rewrite list_lookup_imap in Hi.
  destruct (fs !! i) as [f0|] eqn:Hf0; [|done]. injection Hi as <-.
  exists f0, w0. split; [by eapply list_elem_of_lookup_2|].
  unfold wrap_awaitable, bind, ret in Hraise.
  destruct (f0 w0) as [[a|e'] w2]; simpl in *; congruence.
Qed.

Lemma async_with_semaphore_raises {A} (body : M A) w e :
  (async_with_semaphore body w).1 = Raise e →
  (body (emit EvAcquire w).2).1 = Raise e.
Proof.
  unfold async_with_semaphore, bind, try_except, ret, raise, emit. simpl.
  by destruct (body _) as [[a|e'] w1].
Qed.

(** X16. Unlike the NER batch, the haiku batch can fail as a whole: when
    gathering the tasks raises, the exception is the one a task raised while
    reading a response the gateway did return, an [AttributeError],
    [IndexError], [TypeError] or [KeyError]. *)
Theorem haiku_batch_aborts strip gateway order nouns w e :
  (Haiku.results strip gateway order nouns w).1 = Raise e →
  local_error e ∧
  ∃ noun w0 r, noun ∈ take Haiku.num_requests nouns ∧
               gateway (calls w0) (write_haiku_request noun) = Return r ∧
               (Haiku.write_grade_haiku strip gateway noun w0).1 = Raise e.
Proof.
  unfold Haiku.results. intros Hraise.
  apply tqdm_gather_raises in Hraise as (f & w0 & Hf & Hraise).
  apply list_elem_of_fmap in Hf as (noun & -> & Hnoun).
  apply async_with_semaphore_raises in Hraise.
  destruct (write_grade_haiku_raises strip gateway noun _ e Hraise) as [Hlocal [r Hr]].
  split; [done|]. by eexists _, _, _.
Qed.

Lemma haiku_batch_aborts_witness :
  local_error (PyError "IndexError" "list index out of range") ∧
  ∃ noun w0 r, noun ∈ take Haiku.num_requests ["pond"; "frog"] ∧
               empty_content (calls w0) (write_haiku_request noun) = Return r ∧
               (Haiku.write_grade_haiku id empty_content noun w0).1 =
                 Raise (PyError "IndexError" "list index out of range").
Proof.
  apply (haiku_batch_aborts id empty_content [1; 0]%nat ["pond"; "frog"] start).
  reflexivity.
Defined.

(** *** Progress and completion under the semaphore *)

Lemma awaits_at_most_mono width width' i :
  (width ≤ width')%nat → awaits_at_most width i → awaits_at_most width' i.
Proof. destruct i; simpl; [done|done|lia]. Qed.

Lemma guarded_mono width width' prog :
  (width ≤ width')%nat → guarded width prog → guarded width' prog.
Proof.
  intros Hle (body & -> & Hbody). exists body. split; [done|].
  eapply Forall_impl; [done|]. intros i. by apply awaits_at_most_mono.
Qed.

Lemma notebook_task_guarded size prog :
  notebook_task size prog → guarded 4 prog ∧ (0 < size)%nat.
Proof.
  destruct 1 as [gateway random text w|gateway random text variant_name w|
                 upper feedback_gateway response gold w|strip gateway noun w].
  - split; [|unfold Conll.MAX_CONCURRENT_REQUESTS; lia].
    apply (guarded_mono 1); [lia|].
    destruct (get_entities_events gateway random text None false) as (evs & ? & ?).
    by apply (guarded_async_with_semaphore _ _ _ evs).
  - split; [|unfold Conll.MAX_CONCURRENT_REQUESTS; lia].
    apply (guarded_mono 1); [lia|].
    destruct (get_entities_events gateway random text variant_name true)
      as (evs & ? & ?).
    by apply (guarded_async_with_semaphore _ _ _ evs).
  - split; [|unfold Conll.MAX_CONCURRENT_REQUESTS; lia].
    apply evaluate_send_feedback_guarded.
  - split; [|unfold Haiku.max_concurrent_requests; lia].
    apply (guarded_mono 1); [lia|].
    destruct (write_grade_haiku_events strip gateway noun) as (evs & ? & ?).
    by apply (guarded_async_with_semaphore _ _ _ evs).
Qed.

Section progress.
Variable width size : nat.

(** A task inside the semaphore can always move. *)
Lemma holder_steps i t s :
  tasks s !! i = Some t → task_ok width t → holding t = true →
  ∃ s', step_task i s = Some s'.
Proof.
  intros Hi Hok Hhold. unfold step_task. rewrite Hi.
  destruct Hok as [body Hb|body Hb|m body Hm Hb|].
  - by rewrite holding_waiting in Hhold.
  - destruct body as [|[| |n] body]; simpl; try by eexists.
    by apply Forall_cons in Hb as [[] _].
  - destruct m; by eexists.
  - by rewrite holding_done in Hhold.
Qed.

(** A task outside the semaphore is done, or moves when the semaphore is
    free. *)
Lemma waiter_steps i t s :
  tasks s !! i = Some t → task_ok width t → holding t = false →
  t ≠ Running [] → (0 < sem_value s)%nat →
  ∃ s', step_task i s = Some s'.
Proof.
  intros Hi Hok Hhold Hdone Hsem. unfold step_task. rewrite Hi.
  destruct Hok as [body Hb|body Hb|m body Hm Hb|].
  - rewrite decide_True by done. by eexists.
  - by rewrite (holding_held width body) in Hhold.
  - by rewrite (holding_held width body) in Hhold.
  - done.
Qed.

Lemma invariant_progress s :
  (0 < size)%nat → invariant width size s →
  all_done s ∨ ∃ i s', step_task i s = Some s'.
Proof.
  intros Hsize [Hok Hsem].
  destruct (decide (holders s = 0)%nat) as [Hnone|Hsome].
  - assert (0 < sem_value s)%nat as Hfree by lia.
    assert (∀ t, Decision (t = Running [])) as Hdec.
    { intros [[|]|]; (by left) || (by right). }
    destruct (Forall_Exists_dec (λ t, t = Running []) (λ t, t ≠ Running []) Hdec (tasks s))
      as [Hall|Hex]; [by left|right].
    apply Exists_exists in Hex as (t & Hin & Ht).
    apply list_elem_of_lookup in Hin as [i Hi].
    assert (holding t = false) as Hhold.
    { destruct (holding t) eqn:Hh; [|done]. unfold holders in Hnone.
      assert (t ∈ filter (λ t, holding t = true) (tasks s)) as Hf.
      { apply list_elem_of_filter. split; [done|by eapply list_elem_of_lookup_2]. }
      destruct (filter _ _); [by apply elem_of_nil in Hf|done]. }
    destruct (waiter_steps i t s Hi) as [s' Hs']; try done.
    { by apply (proj1 (Forall_lookup _ _) Hok i t). }
    by exists i, s'.
  - right. unfold holders in Hsome.
    destruct (filter (λ t, holding t = true) (tasks s)) as [|t l] eqn:Hf; [done|].
    assert (t ∈ filter (λ t, holding t = true) (tasks s)) as Hin by (rewrite Hf; left).
    apply list_elem_of_filter in Hin as [Hhold Hin].
    apply list_elem_of_lookup in Hin as [i Hi].
    destruct (holder_steps i t s Hi) as [s' Hs']; try done.
    { by apply (proj1 (Forall_lookup _ _) Hok i t). }
    by exists i, s'.
Qed.

Lemma invariant_all_done s :
  invariant width size s → all_done s → sem_value s = size.
Proof.
  intros [_ Hsem] Hdone. rewrite holders_weight in Hsem.
  assert (sum_list (weight <$> tasks s) = 0%nat) as H0; [|lia].
  clear Hsem. unfold all_done in Hdone. induction Hdone as [|t l -> _ IH]; [done|].
  rewrite fmap_cons. change (sum_list (?x :: ?l)) with (x + sum_list l)%nat.
  rewrite IH. unfold weight. by rewrite holding_done.
Qed.
End progress.

Lemma step_task_steps_left i s s' :
  step_task i s = Some s' → total_steps_left s = S (total_steps_left s').
Proof.
  unfold step_task, total_steps_left.
  destruct (tasks s !! i) as [t|] eqn:Hi; [|done].
  destruct t as [[|[| |n] p]|[|m] p]; try done.
  - destruct (decide _); [|done]. intros [= <-]. simpl.
    pose proof (sum_list_insert steps_left _ i _ (Running p) Hi). csimpl in *. lia.
  - intros [= <-]. simpl.
    pose proof (sum_list_insert steps_left _ i _ (Running p) Hi). csimpl in *. lia.
  - intros [= <-]. simpl.
    pose proof (sum_list_insert steps_left _ i _ (Awaiting n p) Hi). csimpl in *. lia.
  - intros [= <-]. simpl.
    pose proof (sum_list_insert steps_left _ i _ (Running p) Hi). csimpl in *. lia.
  - intros [= <-]. simpl.
    pose proof (sum_list_insert steps_left _ i _ (Awaiting m p) Hi). csimpl in *. lia.
Qed.

(** A batch whose tasks are well placed can run on until every task has
    finished: some task can always move, and every move brings the end
    nearer. *)
Lemma invariant_completes width size s :
  (0 < size)%nat → invariant width size s →
  ∃ s', reachable s s' ∧ all_done s'.
Proof.
  intros Hsize. remember (total_steps_left s) as n eqn:Hn. revert s Hn.
  induction n as [n IH] using lt_wf_ind. intros s -> Hinv.
  destruct (invariant_progress width size s Hsize Hinv) as [Hdone|(i & s1 & Hstep)].
  { exists s. split; [apply rtc_refl|done]. }
  destruct (IH (total_steps_left s1)) with (s := s1) as (s' & Hreach & Hdone).
  - apply step_task_steps_left in Hstep. lia.
  - done.
  - by eapply invariant_step_task.
  - exists s'. split; [|done]. eapply rtc_l; [|done]. by exists (Go i).
Qed.

Lemma reachable_empty_batch size s :
  reachable (batch size []) s → s = batch size [].
Proof.
  intros Hreach. apply rtc_inv in Hreach as [<-|(s1 & [mv Hstep] & _)]; [done|].
  by destruct mv.
Qed.

Lemma notebook_batch_invariant size progs s :
  Forall (notebook_task size) progs →
  reachable (batch size progs) s → invariant 4 size s.
Proof.
  intros Hprogs Hreach. eapply invariant_reachable; [|done]. apply invariant_batch.
  eapply Forall_impl; [done|]. intros prog Hprog.
  by apply notebook_task_guarded in Hprog as [? _].
Qed.

Lemma notebook_batch_size size progs :
  Forall (notebook_task size) progs → progs ≠ [] → (0 < size)%nat.
Proof.
  intros Hprogs Hne. destruct progs as [|prog progs]; [done|].
  apply Forall_cons in Hprogs as [Hprog _].
  by apply notebook_task_guarded in Hprog as [_ ?].
Qed.

(** X20. No batch of the notebooks can deadlock on its semaphore: in every
    state a fan-out can reach, also after calls have failed, either every
    task has finished or some task can make a move. *)
Theorem notebook_batch_never_stuck size progs s :
  Forall (notebook_task size) progs →
  reachable (batch size progs) s →
  all_done s ∨ ∃ i s', step_task i s = Some s'.
Proof.
  intros Hprogs Hreach.
  destruct (decide (progs = [])) as [->|Hne].
  { left. apply reachable_empty_batch in Hreach as ->. constructor. }
  apply (invariant_progress 4 size).
  - by apply (notebook_batch_size size progs).
  - by apply (notebook_batch_invariant size progs).
Qed.

(** X21. A fan-out of the notebooks always gives its semaphore back: from
    every state a batch can reach, also after calls have failed, the batch
    can run on until every task has finished, and whenever every task has
    finished the semaphore's value is its size again: every hold was
    released, by the tasks whose calls failed as well. *)
Theorem notebook_batch_restores_semaphore size progs s :
  Forall (notebook_task size) progs →
  reachable (batch size progs) s →
  (all_done s → sem_value s = size) ∧
  ∃ s', reachable s s' ∧ all_done s' ∧ sem_value s' = size.
Proof.
  intros Hprogs Hreach.
  pose proof (notebook_batch_invariant size progs s Hprogs Hreach) as Hinv.
  split; [by apply (invariant_all_done 4)|].
  destruct (decide (progs = [])) as [->|Hne].
  { apply reachable_empty_batch in Hreach as ->. exists (batch size []).
    split; [apply rtc_refl|]. split; [constructor|done]. }
  destruct (invariant_completes 4 size s) as (s' & Hreach' & Hdone); [|done|].
  { by apply (notebook_batch_size size progs). }
  exists s'. split; [done|]. split; [done|].
  apply (invariant_all_done 4); [|done].
  apply (notebook_batch_invariant size progs); [done|].
  by apply (rtc_trans _ s).
Qed.

Lemma notebook_batch_never_stuck_witness :
  ∃ s, run_schedule one_call_fails
         (batch Conll.MAX_CONCURRENT_REQUESTS
            ((λ '(response, gold, w),
                skeleton (events_of
                  (Conll.evaluate_send_feedback str_upper rejecting_exact_match
                     last_first response gold) w))
             <$> twenty_one_feedback_runs)) = Some s ∧
       (all_done s ∨ ∃ i s', step_task i s = Some s').
Proof.
  destruct (run_schedule one_call_fails _) as [s|] eqn:Hrun;
    [|vm_compute in Hrun; discriminate].
  exists s. split; [reflexivity|].
  apply (notebook_batch_never_stuck Conll.MAX_CONCURRENT_REQUESTS
           ((λ '(response, gold, w),
               skeleton (events_of
                 (Conll.evaluate_send_feedback str_upper rejecting_exact_match
                    last_first response gold) w))
            <$> twenty_one_feedback_runs) s).
  - apply Forall_fmap, Forall_forall. intros [[response gold] w] _.
    apply task_evaluate_send_feedback.
  - by apply run_schedule_reachable with one_call_fails.
Defined.

(** A feedback task whose gathering fails at the first completion: it
    leaves three calls behind, and the semaphore is back at 20. *)
Lemma notebook_batch_restores_semaphore_witness :
  ∃ s, run_schedule enter_fail_leave
         (batch Conll.MAX_CONCURRENT_REQUESTS
            [skeleton (events_of
               (Conll.evaluate_send_feedback str_upper rejecting_exact_match
                  last_first (Some sample_response) []) start)]) = Some s ∧
       all_done s ∧ orphans s = 3%nat ∧
       sem_value s = Conll.MAX_CONCURRENT_REQUESTS.
Proof.
  destruct (run_schedule enter_fail_leave _) as [s|] eqn:Hrun;
    [|vm_compute in Hrun; discriminate].
  exists s. split; [reflexivity|].
  destruct (notebook_batch_restores_semaphore Conll.MAX_CONCURRENT_REQUESTS
              [skeleton (events_of
                 (Conll.evaluate_send_feedback str_upper rejecting_exact_match
                    last_first (Some sample_response) []) start)] s) as [Hsem _].
  - repeat constructor.
  - by apply run_schedule_reachable with enter_fail_leave.
  - vm_compute in Hrun. injection Hrun as <-.
    split; [repeat constructor|]. split; [reflexivity|].
    apply Hsem. repeat constructor.
Defined.

(** *** The range of the aggregates *)

Lemma sum_range (xs : list Qc) :
  Forall (λ x, 0 ≤ x ≤ 1)%Qc xs →
  (0 ≤ foldr Qcplus 0%Qc xs ≤ Qc_of_Z (Z.of_nat (length xs)))%Qc.
Proof.
  induction 1 as [|x xs [H0 H1] _ [IH0 IH1]]; simpl foldr; simpl length.
  - rewrite <-Z2Qc_inj_0. split; apply Qcle_refl.
  - split.
    + rewrite <-(Qcplus_0_r 0). by apply Qcplus_le_compat.
    + rewrite Nat2Z.inj_succ, <-Z.add_1_l, Z2Qc_inj_add, Z2Qc_inj_1.
      by apply Qcplus_le_compat.
Qed.

Lemma mean_range (xs : list Qc) :
  Forall (λ x, 0 ≤ x ≤ 1)%Qc xs → (0 ≤ mean xs ≤ 1)%Qc.
Proof.
  intros Hxs. unfold mean. destruct (sum_range xs Hxs) as [H0 H1].
  destruct xs as [|x xs]; [done|].
  assert (0 < Qc_of_Z (Z.of_nat (length (x :: xs))))%Qc as Hpos.
  { apply Qc_of_nat_pos. simpl. lia. }
  assert (Qc_of_Z (Z.of_nat (length (x :: xs))) ≠ 0%Qc) as Hne
    by (by apply not_symmetry, Qclt_not_eq).
  split.
  - rewrite (Qcmult_le_mono_pos_l _ _ _ Hpos), Qcmult_div_r, Qcmult_0_r; done.
  - rewrite (Qcmult_le_mono_pos_l _ _ _ Hpos), Qcmult_div_r, Qcmult_1_r; done.
Qed.

Lemma variant_values_range (pairs : list (row * row)) v :
  (∀ i b, (i, b) ∈ pairs →
     ∀ x, b !! "value" ≫= numeric = Some x → (0 ≤ x ≤ 1)%Qc) →
  Forall (λ x, 0 ≤ x ≤ 1)%Qc (variant_values pairs v).
Proof.
  intros Hpairs. apply Forall_forall. intros x Hx. unfold variant_values in Hx.
  apply list_elem_of_omap in Hx as ([i b] & Hin & Hx).
  apply list_elem_of_filter in Hin as [_ Hin]. by apply (Hpairs i b).
Qed.

(** X23. The per-variant scores the notebooks plot are fractions: when the
    boolean feedback rows carry booleans and the float feedback rows carry
    numbers between 0 and 1 (as the scores sent by the notebooks are), every
    value of the exact-match, Jaccard and haiku-score aggregates is between
    0 and 1. *)
Theorem variant_means_in_range (db : table → list row) v q :
  (∀ b, b ∈ db BooleanMetricFeedback → ∃ flag, b !! "value" = Some (VBool flag)) →
  (∀ b, b ∈ db FloatMetricFeedback →
        ∃ x, b !! "value" = Some (VFloat x) ∧ (0 ≤ x ≤ 1)%Qc) →
  Conll.exact_match_by_variant db !! v = Some q ∨
  Conll.jaccard_by_variant db !! v = Some q ∨
  Haiku.score_by_variant db !! v = Some q →
  (0 ≤ q ≤ 1)%Qc.
Proof.
  intros Hbool Hfloat Hq.
  assert (∀ b x, b ∈ db BooleanMetricFeedback →
            b !! "value" ≫= numeric = Some x → (0 ≤ x ≤ 1)%Qc) as Hb.
  { intros b x Hin Hx. destruct (Hbool b Hin) as [flag Hflag].
    rewrite Hflag in Hx. destruct flag; injection Hx as <-; by split. }
  assert (∀ b x, b ∈ db FloatMetricFeedback →
            b !! "value" ≫= numeric = Some x → (0 ≤ x ≤ 1)%Qc) as Hf.
  { intros b x Hin Hx. destruct (Hfloat b Hin) as (y & Hy & Hrange).
    rewrite Hy in Hx. by injection Hx as <-. }
  destruct Hq as [Hq|[Hq|Hq]].
  - unfold Conll.exact_match_by_variant in Hq.
    rewrite (by_variant_lookup db _ _ "b") in Hq by done.
    destruct (decide _); [|done]. injection Hq as <-.
    apply mean_range, variant_values_range. intros i b Hin x Hx.
    apply exact_match_joined in Hin as (_ & Hin & _). by apply (Hb b).
  - unfold Conll.jaccard_by_variant in Hq.
    rewrite (by_variant_lookup db _ _ "f") in Hq by done.
    destruct (decide _); [|done]. injection Hq as <-.
    apply mean_range, variant_values_range. intros i b Hin x Hx.
    apply jaccard_joined in Hin as (_ & Hin & _). by apply (Hf b).
  - unfold Haiku.score_by_variant in Hq.
    rewrite (by_variant_lookup db _ _ "b") in Hq by done.
    destruct (decide _); [|done]. injection Hq as <-.
    apply mean_range, variant_values_range. intros i b Hin x Hx.
    apply haiku_joined in Hin as (_ & Hin & _). by apply (Hb b).
Qed.

Lemma variant_means_in_range_witness :
  ∃ q, Haiku.score_by_variant two_metrics_db !! "initial_prompt" = Some q ∧
       (0 ≤ q ≤ 1)%Qc.
Proof.
  destruct (Haiku.score_by_variant two_metrics_db !! "initial_prompt") as [q|] eqn:Hq;
    [|vm_compute in Hq; discriminate].
  exists q. split; [reflexivity|].
  apply (variant_means_in_range two_metrics_db "initial_prompt" q).
  - intros b Hb. simpl in Hb.
    apply elem_of_cons in Hb as [->|Hb]; [by eexists|].
    apply list_elem_of_singleton in Hb as ->. by eexists.
  - intros b Hb. simpl in Hb. by apply elem_of_nil in Hb.
  - right. right. exact Hq.
Defined.

(** *** The inference calls a batch makes *)









